(** * swayimg: the thumbnail disk cache (src/thumbnail.c)

    A shallow embedding of [thumbnail_params], [thumbnail_save],
    [thumbnail_load] and [thumbnail_create], together with the part of the
    C library and of the operating system they talk to, and the properties
    of the design document that can be settled on it.

    Conventions.
    - [size_t] and [ssize_t] are 64-bit (LP64); a value of either type is a
      [Z] and every wrap-around is written out.
    - [float] is IEEE-754 binary32 and [double] binary64, both evaluated in
      their own format with round-to-nearest-even; both are values of
      [spec_float] and the operations are those of the standard library's
      executable specification, instantiated at (24, 128) and (53, 1024).
    - A function whose C original has undefined behaviour or does not
      terminate on some input returns [None] there. *)

From Stdlib Require Import ZArith Lia Bool List Reals Lra Psatz.
From Stdlib Require Import Floats.SpecFloat.
From Stdlib Require Import Strings.Ascii Strings.Byte.
From stdpp Require Import base option list strings gmap.

Open Scope Z_scope.

(** ** Machine integers *)

Definition SIZE_MAX : Z := 2 ^ 64 - 1.

Definition wrap64 (z : Z) : Z := z mod 2 ^ 64.
Definition wrap32 (z : Z) : Z := z mod 2 ^ 32.

(** Conversion of a [size_t] to [ssize_t] (two's complement). *)
Definition to_ssize_t (z : Z) : Z :=
  let u := wrap64 z in if u <? 2 ^ 63 then u else u - 2 ^ 64.

Definition is_size_t (z : Z) : Prop := 0 <= z <= SIZE_MAX.

(** ** Floating point *)

Module F32.
Definition prec : Z := 24.
Definition emax : Z := 128.

Definition div : spec_float -> spec_float -> spec_float := SFdiv prec emax.
Definition mul : spec_float -> spec_float -> spec_float := SFmul prec emax.
Definition ltb : spec_float -> spec_float -> bool := SFltb.

(** [(float)n] for an unsigned integer [n]. *)
Definition of_size_t (n : Z) : spec_float := binary_normalize prec emax n 0 false.

(** Conversion of a [double] to [float]. *)
Definition of_double (x : spec_float) : spec_float :=
  match x with
  | S754_finite s m e => binary_round prec emax s m e
  | _ => x
  end.

(** Conversion of a [float] to [size_t]: the fractional part is
    discarded; the behaviour is undefined when the integral part is not a
    value of [size_t]. *)
Definition to_size_t (x : spec_float) : option Z :=
  match x with
  | S754_zero _ => Some 0
  | S754_finite s m e =>
      let t := if 0 <=? e then Z.pos m * 2 ^ e else Z.pos m / 2 ^ (- e) in
      if s then (if t =? 0 then Some 0 else None)
      else if t <=? SIZE_MAX then Some t else None
  | _ => None
  end.
End F32.

Module F64.
Definition prec : Z := 53.
Definition emax : Z := 1024.

Definition div : spec_float -> spec_float -> spec_float := SFdiv prec emax.
Definition ltb : spec_float -> spec_float -> bool := SFltb.

(** The constant [1.0]. *)
Definition one : spec_float := binary_normalize prec emax 1 0 false.

(** Promotion of a [float] to [double] (exact). *)
Definition of_float (x : spec_float) : spec_float :=
  match x with
  | S754_finite s m e => binary_round prec emax s m e
  | _ => x
  end.
End F64.

(** Modelled from the spec: the macros [min] and [max] come from a header
    that is not part of the sources; the design document calls them the
    minimum and the maximum of the two factors.  They are taken as the
    usual comparison macros [(a) < (b) ? (a) : (b)] and
    [(a) > (b) ? (a) : (b)]. *)
Definition min (a b : spec_float) : spec_float := if F32.ltb a b then a else b.
Definition max (a b : spec_float) : spec_float := if F32.ltb b a then a else b.

(** ** Real values and rounding

    What the proofs about the arithmetic of [thumbnail_params] are stated
    with: the real value of a floating-point number, the normal numbers of
    a format, and the integer rounding the operations are built on. *)

(** [N/D] as the specification's shift record: integer part, round bit
    and sticky bit. *)
Definition loc_of (N D : Z) : shr_record :=
  {| shr_m := N / D;
     shr_r := D <=? 2 * (N mod D);
     shr_s := negb ((N mod D =? 0) || (2 * (N mod D) =? D)) |}.

(** [N/D] rounded to the nearest integer, ties to even. *)
Definition rne (N D : Z) : Z :=
  round_nearest_even (shr_m (loc_of N D)) (loc_of_shr_record (loc_of N D)).

(** Powers of two and the value of a mantissa with an exponent. *)
Definition bpow (e : Z) : R := powerRZ 2 e.

Definition F2R (m e : Z) : R := (IZR m * bpow e)%R.

(** The real value of a finite number. *)
Definition SF2R (x : spec_float) : R :=
  match x with
  | S754_finite s m e => if s then (- F2R (Z.pos m) e)%R else F2R (Z.pos m) e
  | _ => 0%R
  end.

(** A positive normal number of the format. *)
Definition normal (prec emax : Z) (x : spec_float) : Prop :=
  match x with
  | S754_finite false m e =>
      2 ^ (prec - 1) <= Z.pos m < 2 ^ prec /\
      emin prec emax <= e <= emax - prec
  | _ => False
  end.

(** The unit roundoffs of [float] and [double]. *)
Definition u32 : R := bpow (-24).
Definition u64 : R := bpow (-53).

(** The two ends of the interval around [size/dim] in which the computed
    factor lies. *)
Definition factor_lo : R := ((1 - u64) * (1 - u32) / (1 + u32))%R.
Definition factor_hi : R := ((1 + u64) * (1 + u32) / (1 - u32))%R.

(** ** Data model *)

(** [struct pixmap]: [data] is the address of the pixel buffer, [None] being
    the null pointer. *)
Record pixmap := Pixmap {
  width : Z;
  height : Z;
  data : option positive;
}.

(** [struct image], as far as it is used here: the pixmap of the first
    frame and the alpha flag. *)
Record image := Image {
  frame0 : pixmap;
  alpha : bool;
}.

(** [struct thumbnail_params]. *)
Record ThumbnailParams := Params {
  thumb_width : Z;
  thumb_height : Z;
  offset_x : Z;
  offset_y : Z;
  fill : bool;
  antialias : bool;
  scale : spec_float;
}.

(** ** thumbnail_params *)

(** [1.0 / ((float)dim / size)]: the quotient is a [float], the reciprocal
    is taken in [double] and stored in a [float]. *)
Definition scale_factor (dim size : Z) : spec_float :=
  F32.of_double
    (F64.div F64.one
       (F64.of_float (F32.div (F32.of_size_t dim) (F32.of_size_t size)))).

(** [scale * dim] converted to [size_t]. *)
Definition scaled (sc : spec_float) (dim : Z) : option Z :=
  F32.to_size_t (F32.mul sc (F32.of_size_t dim)).

Definition thumbnail_params (img : image) (size : Z) (fill antialias : bool)
  : option ThumbnailParams :=
  let full := frame0 img in
  let scale_width := scale_factor (width full) size in
  let scale_height := scale_factor (height full) size in
  let scale :=
    if fill then max scale_width scale_height else min scale_width scale_height in
  match scaled scale (width full), scaled scale (height full) with
  | Some thumb_width, Some thumb_height =>
      if fill then
        Some (Params size size
                (to_ssize_t (wrap64 (size / 2 - thumb_width / 2)))
                (to_ssize_t (wrap64 (size / 2 - thumb_height / 2)))
                fill antialias scale)
      else
        Some (Params thumb_width thumb_height 0 0 fill antialias scale)
  | _, _ => None
  end.

(** ** Bytes and the text of the header *)

Definition byte_of_Z (z : Z) : byte :=
  default x00 (Byte.of_N (Z.to_N (z mod 256))).

Definition Z_of_byte (b : byte) : Z := Z.of_N (Byte.to_N b).

#[global] Instance byte_eq_decision : EqDecision byte := byte_eq_dec.

(** [isspace] in the C locale. *)
Definition isspace (b : byte) : bool :=
  let c := Z_of_byte b in ((9 <=? c) && (c <=? 13)) || (c =? 32).

Definition isdigit (b : byte) : bool :=
  let c := Z_of_byte b in (48 <=? c) && (c <=? 57).

Definition digit (d : Z) : byte := byte_of_Z (48 + d).

(** The decimal digits of [n] in front of [acc]; twenty digits are enough
    for a [size_t]. *)
Fixpoint dec_digits (fuel : nat) (n : Z) (acc : list byte) : list byte :=
  match fuel with
  | O => acc
  | S fuel' =>
      let acc' := digit (n mod 10) :: acc in
      if n <? 10 then acc' else dec_digits fuel' (n / 10) acc'
  end.

(** [printf("%zu", n)]. *)
Definition print_zu (n : Z) : list byte := dec_digits 20 n [].

(** The text written by [fprintf(fp, "P6\n%zu %zu\n255\n", w, h)]. *)
Definition header_bytes (w h : Z) : list byte :=
  [x50; x36; x0a] ++ print_zu w ++ [x20] ++ print_zu h ++ [x0a; x32; x35; x35; x0a].

(** ARGB pixels.  Modelled from the spec: the macro [ARGB] is not part of the
    sources; a pixel is a 32-bit value holding one byte each for alpha, red,
    green and blue, in that order from the most significant byte, as the
    shifts of [thumbnail_save] have it. *)
Definition ARGB (a r g b : Z) : Z :=
  Z.lor (Z.lor (Z.shiftl a 24) (Z.shiftl r 16)) (Z.lor (Z.shiftl g 8) b).

(** A pixel with its alpha channel replaced by 255. *)
Definition opaque (px : Z) : Z := Z.lor (Z.shiftl 255 24) (Z.land px (Z.ones 24)).

(** The three bytes [thumbnail_save] writes for a pixel. *)
Definition color (px : Z) : list byte :=
  [ byte_of_Z (Z.land (Z.shiftr px (8 * 2)) 255);
    byte_of_Z (Z.land (Z.shiftr px (8 * 1)) 255);
    byte_of_Z (Z.land (Z.shiftr px (8 * 0)) 255) ].

(** ** The process and its surroundings *)

Inductive node :=
  | Dir (ctime : Z)
  | File (content : list byte) (ctime : Z).

Definition st_ctime (n : node) : Z :=
  match n with Dir t => t | File _ t => t end.

Inductive errno := EEXIST | EACCES.

(** - [env] is the environment, [cache_dir] the static variable of
      [get_thumb_path];
    - [fs] maps a path to what is there, [denied] are the paths at which
      nothing may be created or written, [space] is the number of bytes the
      device still takes, [now] the clock;
    - [heap] maps the address of a live buffer to its pixels, [mem] is the
      number of pixels that can still be allocated;
    - [open_files] counts the open streams. *)
Record world := World {
  env : gmap string string;
  cache_dir : option string;
  fs : gmap string node;
  denied : gset string;
  space : nat;
  now : Z;
  heap : gmap positive (list Z);
  mem : Z;
  open_files : nat;
}.

Definition set_env (f : gmap string string -> gmap string string) (w : world) : world :=
  World (f (env w)) (cache_dir w) (fs w) (denied w) (space w) (now w)
        (heap w) (mem w) (open_files w).
Definition set_cache_dir (d : option string) (w : world) : world :=
  World (env w) d (fs w) (denied w) (space w) (now w)
        (heap w) (mem w) (open_files w).
Definition set_fs (f : gmap string node -> gmap string node) (w : world) : world :=
  World (env w) (cache_dir w) (f (fs w)) (denied w) (space w) (now w)
        (heap w) (mem w) (open_files w).
Definition set_space (n : nat) (w : world) : world :=
  World (env w) (cache_dir w) (fs w) (denied w) n (now w)
        (heap w) (mem w) (open_files w).
Definition set_heap (f : gmap positive (list Z) -> gmap positive (list Z)) (m : Z)
    (w : world) : world :=
  World (env w) (cache_dir w) (fs w) (denied w) (space w) (now w)
        (f (heap w)) m (open_files w).
Definition set_open_files (n : nat) (w : world) : world :=
  World (env w) (cache_dir w) (fs w) (denied w) (space w) (now w)
        (heap w) (mem w) n.

(** *** The C library *)

Definition getenv (w : world) (name : string) : option string := env w !! name.

(** [stat(path, &attr)], as far as [st_ctime] goes. *)
Definition stat (w : world) (path : string) : option Z := st_ctime <$> fs w !! path.

(** [difftime(a, b)]; only its sign is used, and that is the sign of the
    difference of the two times. *)
Definition difftime (a b : Z) : Z := a - b.

(** [mkdir(path, 0755)]: [None] is the return value 0, [Some e] is -1 with
    [errno] set to [e]. *)
Definition mkdir (w : world) (path : string) : world * option errno :=
  match fs w !! path with
  | Some _ => (w, Some EEXIST)
  | None =>
      if decide (path ∈ denied w) then (w, Some EACCES)
      else (set_fs <[path := Dir (now w)]> w, None)
  end.

(** [fopen(path, "wb")]: the file is created or truncated. *)
Definition fopen_wb (w : world) (path : string) : world * bool :=
  if decide (path ∈ denied w) then (w, false)
  else match fs w !! path with
       | Some (Dir _) => (w, false)
       | _ => (set_open_files (S (open_files w))
                 (set_fs <[path := File [] (now w)]> w), true)
       end.

(** [fopen(path, "rb")]: the stream is the list of the bytes still to be
    read; reading a directory yields nothing. *)
Definition fopen_rb (w : world) (path : string) : world * option (list byte) :=
  match fs w !! path with
  | Some (File c _) => (set_open_files (S (open_files w)) w, Some c)
  | Some (Dir _) => (set_open_files (S (open_files w)) w, Some [])
  | None => (w, None)
  end.

Definition fclose (w : world) : world := set_open_files (Nat.pred (open_files w)) w.

(** Writing [bs] to the stream open on [path]: the bytes the device still
    takes are appended, the others are lost.  The callers here never look
    at the result, so none is returned. *)
Definition fwrite (w : world) (path : string) (bs : list byte) : world :=
  match fs w !! path with
  | Some (File c _) =>
      set_space (space w - length bs)
        (set_fs <[path := File (c ++ take (space w) bs) (now w)]> w)
  | _ => w
  end.

(** [fread(buf, 1, n, fp)]: the bytes read and the rest of the stream. *)
Definition fread (n : nat) (fp : list byte) : list byte * list byte :=
  (take n fp, drop n fp).

(** *** fscanf *)

Fixpoint skip_space (fp : list byte) : list byte :=
  match fp with
  | b :: fp' => if isspace b then skip_space fp' else fp
  | [] => []
  end.

(** [%2s]: at most two bytes that are not white space. *)
Definition scan_2s (fp : list byte) : list byte * list byte :=
  match skip_space fp with
  | a :: fp1 =>
      match fp1 with
      | b :: fp2 => if isspace b then ([a], fp1) else ([a; b], fp2)
      | [] => ([a], [])
      end
  | [] => ([], [])
  end.

(** The digits of an unsigned conversion; the value sticks at [SIZE_MAX]. *)
Fixpoint scan_digits (v : Z) (fp : list byte) : Z * list byte :=
  match fp with
  | b :: fp' =>
      if isdigit b then scan_digits (Z.min SIZE_MAX (v * 10 + (Z_of_byte b - 48))) fp'
      else (v, fp)
  | [] => (v, [])
  end.

(** [%zu]: white space, an optional sign, at least one digit. *)
Definition scan_zu (fp : list byte) : option (Z * list byte) :=
  let fp0 := skip_space fp in
  let '(neg, fp1) :=
    match fp0 with
    | b :: fp' =>
        if Z_of_byte b =? 45 then (true, fp')
        else if Z_of_byte b =? 43 then (false, fp') else (false, fp0)
    | [] => (false, [])
    end in
  match fp1 with
  | b :: _ =>
      if isdigit b then
        let '(v, rest) := scan_digits 0 fp1 in
        Some (if neg then (if v =? SIZE_MAX then v else wrap64 (- v)) else v, rest)
      else None
  | [] => None
  end.

(** The literal [255] of the format: whether it matched, and the stream,
    which stays at the first byte that does not match. *)
Fixpoint scan_literal (lit fp : list byte) : bool * list byte :=
  match lit with
  | [] => (true, fp)
  | c :: lit' =>
      match fp with
      | b :: fp' => if decide (b = c) then scan_literal lit' fp' else (false, fp)
      | [] => (false, [])
      end
  end.

(** The head of a stream stops the scan of a number. *)
Definition no_digit_ahead (fp : list byte) : Prop :=
  match fp with
  | b :: _ => isdigit b = false
  | [] => True
  end.

(** What [fscanf(fp, "%2s\n%zu %zu\n255\n", header, &thumb->width,
    &thumb->height)] does: the number of conversions it reports (-1 for
    [EOF]), the bytes stored in [header], the pixmap with the fields it
    assigned, and the rest of the stream. *)
Definition fscanf_header (fp : list byte) (thumb : pixmap)
  : Z * list byte * pixmap * list byte :=
  match scan_2s fp with
  | ([], rest) => (-1, [], thumb, rest)
  | (header, fp1) =>
      match scan_zu (skip_space fp1) with
      | None => (1, header, thumb, fp1)
      | Some (w, fp2) =>
          let thumb1 := Pixmap w (height thumb) (data thumb) in
          match scan_zu (skip_space fp2) with
          | None => (2, header, thumb1, fp2)
          | Some (h, fp3) =>
              let thumb2 := Pixmap w h (data thumb) in
              let '(matched, fp4) := scan_literal [x32; x35; x35] (skip_space fp3) in
              (3, header, thumb2, if matched then skip_space fp4 else fp4)
          end
      end
  end.

(** *** Pixmaps *)

(** Modelled from the spec: [pixmap_create] and [pixmap_free] belong to the
    pixel-resampling collaborator, which exposes pixmap allocation and
    free.  Allocation fails when the request is larger than what is left,
    and when its size in bytes, four for each pixel, is not a value of
    [size_t]: the allocator is taken not to let the product wrap.  On
    success the pixmap gets the dimensions asked for and a buffer of its
    own.  Freeing releases the buffer and leaves the fields alone, the
    address of the buffer included. *)
Definition pixmap_create (w : world) (pm : pixmap) (wd ht : Z)
  : world * pixmap * bool :=
  let n := wd * ht in
  if (0 <=? n) && (n <=? mem w) && (n * 4 <=? SIZE_MAX) then
    let a := fresh (dom (heap w)) in
    (set_heap <[a := replicate (Z.to_nat n) 0]> (mem w - n) w,
     Pixmap wd ht (Some a), true)
  else (w, pm, false).

Definition pixmap_free (w : world) (pm : pixmap) : world :=
  match data pm with
  | Some a =>
      match heap w !! a with
      | Some buf => set_heap (delete a) (mem w + Z.of_nat (length buf)) w
      | None => w
      end
  | None => w
  end.

(** [pm->data[i] = px]. *)
Definition set_pixel (w : world) (pm : pixmap) (i px : Z) : world :=
  match data pm with
  | Some a => set_heap (alter (fun buf => <[Z.to_nat i := px]> buf) a) (mem w) w
  | None => w
  end.

Inductive pixmap_scale_t := pixmap_nearest | pixmap_bicubic | pixmap_average.

(** ** PathResolver *)

Definition PATH_MAX : Z := 4096.

(** [strchr(slash + 1, '/')] in a loop: [done] is the text before the
    position looked at, [rest] the text from it on. *)
Fixpoint make_directories_loop (w : world) (done rest : string) : world * bool :=
  match rest with
  | EmptyString => (w, true)
  | String c rest' =>
      if Ascii.eqb c "/"%char then
        match mkdir w done with
        | (w', Some EEXIST) | (w', None) =>
            make_directories_loop w' (done +:+ String c EmptyString) rest'
        | (w', Some _) => (w', false)
        end
      else make_directories_loop w (done +:+ String c EmptyString) rest'
  end.

Definition make_directories (w : world) (path : string) : world * bool :=
  match path with
  | EmptyString => (w, false)
  | String c rest => make_directories_loop w (String c EmptyString) rest
  end.

(** [strcat(cache_dir, suffix)] where [cache_dir] points into the
    environment: the text of the variable itself grows. *)
Definition strcat_env (w : world) (name dir suffix : string) : world :=
  set_cache_dir (Some (dir +:+ suffix)) (set_env <[name := dir +:+ suffix]> w).

Definition snprintf_path (dir source : string) : option string :=
  let r := Z.of_nat (String.length dir + String.length source) in
  if (0 <=? r) && (r <? PATH_MAX) then Some (dir +:+ source) else None.

Definition get_thumb_path (w : world) (source : string) : world * option string :=
  match cache_dir w with
  | Some dir => (w, snprintf_path dir source)
  | None =>
      match getenv w "XDG_CACHE_HOME" with
      | Some dir =>
          let w' := strcat_env w "XDG_CACHE_HOME" dir "/swayimg" in
          (w', snprintf_path (dir +:+ "/swayimg") source)
      | None =>
          match getenv w "HOME" with
          | None => (w, None)
          | Some dir =>
              let w' := strcat_env w "HOME" dir "/.swayimg" in
              (w', snprintf_path (dir +:+ "/.swayimg") source)
          end
      end
  end.

(** Everything but the environment and the static variable. *)
Definition same_store (w w' : world) : Prop :=
  fs w' = fs w /\ denied w' = denied w /\ space w' = space w /\ now w' = now w /\
  heap w' = heap w /\ mem w' = mem w /\ open_files w' = open_files w.

(** The static variable points into the environment. *)
Definition env_ok (w : world) : Prop :=
  forall dir, cache_dir w = Some dir ->
    env w !! "XDG_CACHE_HOME" = Some dir \/ env w !! "HOME" = Some dir.

(** The first half of [thumbnail_save]: resolving the path, making the
    directories and creating the file.  [Some] when all three succeed. *)
Definition cache_file_opened (w : world) (source : string) : option (world * string) :=
  match get_thumb_path w source with
  | (w1, Some path) =>
      match make_directories w1 path with
      | (w2, true) =>
          match fopen_wb w2 path with
          | (w3, true) => Some (w3, path)
          | _ => None
          end
      | _ => None
      end
  | _ => None
  end.

(** ** CacheCodec *)

Section Codec.

(** Modelled from the spec: the declaration of [struct thumbnail_params]
    is in a header that is not part of the sources, so its size and the
    bytes of its object representation are parameters here.  The entry
    holds a verbatim, fixed-width copy of the record.

    [params_bytes p] stands for the bytes of the object that holds the
    fields [p] in the call at hand, its padding included.  The store made
    by [thumbnail_params] does not set the padding, so the bytes of an
    object are not a function of its fields: a property about two objects,
    the one that was saved and the one passed to a later load, gives each
    a function of its own. *)
Variable sizeof_params : nat.
Variable params_bytes : ThumbnailParams -> list byte.
Hypothesis params_bytes_length :
  forall p, length (params_bytes p) = sizeof_params.

(** A cache entry: header, comment marker, parameters, line break and
    three bytes for each pixel. *)
Definition entry_bytes (wd ht : Z) (p : ThumbnailParams) (pxs : list Z) : list byte :=
  header_bytes wd ht ++ [x23] ++ params_bytes p ++ [x0a] ++ (pxs ≫= color).

(** The pixels [thumb->data[0 .. n-1]] read by the loop of
    [thumbnail_save]; reading outside a live buffer is undefined. *)
Definition pixels_of (w : world) (thumb : pixmap) (n : Z) : option (list Z) :=
  if n =? 0 then Some []
  else
    match data thumb with
    | Some a =>
        match heap w !! a with
        | Some buf =>
            if n <=? Z.of_nat (length buf) then Some (take (Z.to_nat n) buf)
            else None
        | None => None
        end
    | None => None
    end.

Definition thumbnail_save (w : world) (thumb : pixmap) (source : string)
    (params : ThumbnailParams) : option (world * bool) :=
  match get_thumb_path w source with
  | (w1, None) => Some (w1, false)
  | (w1, Some path) =>
      match make_directories w1 path with
      | (w2, false) => Some (w2, false)
      | (w2, true) =>
          match fopen_wb w2 path with
          | (w3, false) => Some (w3, false)
          | (w3, true) =>
              let w4 := fwrite w3 path (header_bytes (width thumb) (height thumb)) in
              let w5 := fwrite w4 path [x23] in
              let w6 := fwrite w5 path (params_bytes params) in
              let w7 := fwrite w6 path [x0a] in
              let n := wrap64 (width thumb * height thumb) in
              (* the counter is a uint32_t: it never reaches a larger bound *)
              if 2 ^ 32 <=? n then None
              else
                match pixels_of w7 thumb n with
                | Some pxs =>
                    let w8 := foldl (fun w px => fwrite w path (color px)) w7 pxs in
                    Some (fclose w8, true)
                | None => None
                end
          end
      end
  end.

(** The loop of [thumbnail_load] over the pixel records; [i] is the
    32-bit counter.  It stops with [false] when a record cannot be read
    in full. *)
Fixpoint load_pixels (fp : list byte) (w : world) (thumb : pixmap) (i n : Z)
    {struct fp} : world * bool :=
  if i <? n then
    match fp with
    | r :: g :: b :: fp' =>
        load_pixels fp'
          (set_pixel w thumb i (ARGB 255 (Z_of_byte r) (Z_of_byte g) (Z_of_byte b)))
          thumb (wrap32 (i + 1)) n
    | _ => (w, false)
    end
  else (w, true).

(** The body of [thumbnail_load] from the point where the stream [fp] is
    open.  [stack] is what happens to be in the memory of [saved_params]
    when the function is entered; [fread] overwrites as much of it as it
    reads. *)
Definition read_entry (w3 : world) (fp : list byte) (thumb : pixmap)
    (params : ThumbnailParams) (stack : list byte) : world * pixmap * bool :=
  match fscanf_header fp thumb with
  | (cnt, header, thumb1, fp1) =>
      if negb (cnt =? 3) then (fclose w3, thumb1, false)
      else if negb (bool_decide (header = [x50; x36])) then (fclose w3, thumb1, false)
      else
        let fp2 := (fread 1 fp1).2 in
        let got := (fread sizeof_params fp2).1 in
        let fp3 := (fread sizeof_params fp2).2 in
        let saved_params := take sizeof_params (got ++ drop (length got) stack) in
        let fp4 := (fread 1 fp3).2 in
        if negb (bool_decide (params_bytes params = saved_params))
        then (fclose w3, thumb1, false)
        else
          match pixmap_create w3 thumb1 (width thumb1) (height thumb1) with
          | (w4, thumb2, false) => (fclose w4, thumb2, false)
          | (w4, thumb2, true) =>
              let n := wrap64 (width thumb2 * height thumb2) in
              match load_pixels fp4 w4 thumb2 0 n with
              | (w5, true) => (fclose w5, thumb2, true)
              | (w5, false) => (fclose (pixmap_free w5 thumb2), thumb2, false)
              end
          end
  end.

Definition thumbnail_load (w : world) (thumb : pixmap) (source : string)
    (params : ThumbnailParams) (stack : list byte) : world * pixmap * bool :=
  match get_thumb_path w source with
  | (w1, None) => (w1, thumb, false)
  | (w1, Some path) =>
      match stat w1 source, stat w1 path with
      | Some attr_img, Some attr_thumb =>
          if 0 <? difftime attr_img attr_thumb then (w1, thumb, false)
          else
            match get_thumb_path w1 source with
            | (w2, None) => (w2, thumb, false)
            | (w2, Some path) =>
                match fopen_rb w2 path with
                | (w3, None) => (w3, thumb, false)
                | (w3, Some fp) => read_entry w3 fp thumb params stack
                end
            end
      | _, _ => (w1, thumb, false)
      end
  end.

(** The bytes [thumbnail_load] compares with the parameters of the caller
    when the stream holds [fp] and [fread] gets them all from it. *)
Definition embedded_params (fp : list byte) : option (list byte) :=
  let fp2 := drop 1 (fscanf_header fp (Pixmap 0 0 None)).2 in
  if decide (sizeof_params <= length fp2)%nat then Some (take sizeof_params fp2)
  else None.

End Codec.

(** ** ThumbnailGenerator *)

Section Generator.

(** The resampler of the pixmap collaborator: it fills the buffer of the
    destination. *)
Variable pixmap_scale :
  pixmap_scale_t -> pixmap -> pixmap -> Z -> Z -> spec_float -> bool -> world -> world.

(** [params->scale > 1.0], the comparison being made in [double]. *)
Definition enlarges (params : ThumbnailParams) : bool :=
  F64.ltb F64.one (F64.of_float (scale params)).

Definition scaler_of (params : ThumbnailParams) : pixmap_scale_t :=
  if antialias params then
    (if enlarges params then pixmap_bicubic else pixmap_average)
  else pixmap_nearest.

Definition thumbnail_create (w : world) (thumb : pixmap) (img : image)
    (params : ThumbnailParams) : world * pixmap * bool :=
  let full := frame0 img in
  let scaler := scaler_of params in
  match pixmap_create w thumb (thumb_width params) (thumb_height params) with
  | (w1, thumb1, false) => (w1, thumb1, false)
  | (w1, thumb1, true) =>
      (pixmap_scale scaler full thumb1 (offset_x params) (offset_y params)
         (scale params) (alpha img) w1,
       thumb1, true)
  end.

End Generator.

(** ** A concrete layout: LP64, little-endian *)

Module LP64.

Fixpoint le_bytes (n : nat) (z : Z) : list byte :=
  match n with
  | O => []
  | S n' => byte_of_Z z :: le_bytes n' (z / 256)
  end.

(** The bits of a binary32 value. *)
Definition bits_of_float (x : spec_float) : Z :=
  match x with
  | S754_zero s => if s then 2 ^ 31 else 0
  | S754_infinity s => (if s then 2 ^ 31 else 0) + 255 * 2 ^ 23
  | S754_nan => 255 * 2 ^ 23 + 2 ^ 22
  | S754_finite s m e =>
      (if s then 2 ^ 31 else 0) +
      (if Z.pos m <? 2 ^ 23 then Z.pos m else (e + 150) * 2 ^ 23 + (Z.pos m - 2 ^ 23))
  end.

Definition bool_byte (b : bool) : byte := if b then x01 else x00.

Definition sizeof_params : nat := 40.

(** Four 8-byte integers, two one-byte booleans, two bytes of padding
    (taken as zero) and the 4-byte [float]. *)
Definition params_bytes (p : ThumbnailParams) : list byte :=
  le_bytes 8 (thumb_width p) ++ le_bytes 8 (thumb_height p) ++
  le_bytes 8 (offset_x p) ++ le_bytes 8 (offset_y p) ++
  [bool_byte (fill p); bool_byte (antialias p); x00; x00] ++
  le_bytes 4 (bits_of_float (scale p)).

(** The same object with other bytes in its padding. *)
Definition params_bytes_padded (a b : byte) (p : ThumbnailParams) : list byte :=
  le_bytes 8 (thumb_width p) ++ le_bytes 8 (thumb_height p) ++
  le_bytes 8 (offset_x p) ++ le_bytes 8 (offset_y p) ++
  [bool_byte (fill p); bool_byte (antialias p); a; b] ++
  le_bytes 4 (bits_of_float (scale p)).

End LP64.

(** ** Concrete worlds *)

Module Examples.

Definition source : string := "/pics/a.png".
Definition cache : string := "/home/u/.swayimg/pics/a.png".

(** A two-pixel thumbnail whose first pixel is half transparent. *)
Definition thumb0 : pixmap := Pixmap 2 1 (Some 1%positive).
Definition pixels0 : list Z := [0x80112233; 0xff445566].

(** The parameters of a 4000 by 2000 source at size 2, and the same with
    another canvas. *)
Definition params0 : ThumbnailParams :=
  Params 2 1 0 0 false true (S754_finite false 8589935 (-34)).
Definition params1 : ThumbnailParams :=
  Params 3 3 0 0 false true (S754_finite false 8589935 (-34)).

(** A process that has not resolved the cache root yet; the source was
    last changed at time 5 and it is now 10. *)
Definition world0 : world :=
  World {[ "HOME" := "/home/u" ]} None
        {[ source := File [x01] 5 ]} ∅ 1000 10
        {[ 1%positive := pixels0 ]} 100 0.

(** The same with a full device. *)
Definition world_full : world :=
  World {[ "HOME" := "/home/u" ]} None
        {[ source := File [x01] 5 ]} ∅ 0 10
        {[ 1%positive := pixels0 ]} 100 0.

(** The same without the two variables. *)
Definition world_noenv : world :=
  World ∅ None {[ source := File [x01] 5 ]} ∅ 1000 10
        {[ 1%positive := pixels0 ]} 100 0.

(** [world0] after the thumbnail has been saved. *)
Definition world1 : world :=
  match thumbnail_save LP64.params_bytes world0 thumb0 source params0 with
  | Some (w, _) => w
  | None => world0
  end.

(** A cache file made at time 99 whose header is not that of the format. *)
Definition world_corrupt : world :=
  World {[ "HOME" := "/home/u" ]} None
        {[ source := File [x01] 5;
           cache := File [x50; x35; x0a; x37; x20; x39; x0a; x32; x35; x35; x0a] 99 ]}
        ∅ 1000 10 ∅ 100 0.

(** A cache file made at time 99 holding a complete entry of 2 by 1 pixels. *)
Definition world_entry (p : ThumbnailParams) : world :=
  World {[ "HOME" := "/home/u/.swayimg" ]} (Some "/home/u/.swayimg")
        {[ source := File [x01] 5;
           cache := File (entry_bytes LP64.params_bytes 2 1 p pixels0) 99 ]}
        ∅ 1000 10 ∅ 100 0.

Definition blank : pixmap := Pixmap 0 0 None.

End Examples.

(** ** Notions of the further properties *)

(** [d] is what [path] holds in front of one of its slashes, the first
    character apart: the directories [make_directories] asks for. *)
Definition ancestor (d path : string) : Prop :=
  d <> "" /\ exists post, path = d +:+ "/" +:+ post.

(** The pixels held by a payload: one for each full record of three
    bytes, opaque. *)
Fixpoint rgb_pixels (fp : list byte) : list Z :=
  match fp with
  | r :: g :: b :: fp' =>
      ARGB 255 (Z_of_byte r) (Z_of_byte g) (Z_of_byte b) :: rgb_pixels fp'
  | _ => []
  end.

(** What is left of the stream, which [fscanf] left at [fp], after the
    three reads that follow it: the comment marker, the parameters and the
    line break. *)
Definition payload_of (sizeof_params : nat) (fp : list byte) : list byte :=
  (fread 1 (fread sizeof_params (fread 1 fp).2).2).2.

(** The head of a stream is not white space. *)
Definition no_space_ahead (fp : list byte) : Prop :=
  match fp with
  | b :: _ => isspace b = false
  | [] => True
  end.

(** ** Further concrete worlds *)

Module MoreExamples.

Import Examples.

(** A cache file that stops four bytes before the end of its entry. *)
Definition world_truncated : world :=
  World {[ "HOME" := "/home/u/.swayimg" ]} (Some "/home/u/.swayimg")
        {[ source := File [x01] 5;
           cache := File (take 55 (entry_bytes LP64.params_bytes 2 1 params0 pixels0)) 99 ]}
        ∅ 1000 10 ∅ 100 0.

(** An entry with other bytes for the comment marker and the line break,
    and a byte after the last pixel. *)
Definition world_marks : world :=
  World {[ "HOME" := "/home/u/.swayimg" ]} (Some "/home/u/.swayimg")
        {[ source := File [x01] 5;
           cache := File (header_bytes 2 1 ++ x21 :: LP64.params_bytes params0
                            ++ x00 :: (pixels0 ≫= color) ++ [x07]) 99 ]}
        ∅ 1000 10 ∅ 100 0.

(** An entry without the line of the maximum value. *)
Definition world_no_maxval : world :=
  World {[ "HOME" := "/home/u/.swayimg" ]} (Some "/home/u/.swayimg")
        {[ source := File [x01] 5;
           cache := File ([x50; x36; x0a] ++ print_zu 2 ++ [x20] ++ print_zu 1
                            ++ x0a :: x23 :: LP64.params_bytes params0
                            ++ x0a :: (pixels0 ≫= color)) 99 ]}
        ∅ 1000 10 ∅ 100 0.

(** [world0] with an opaque thumbnail, before and after it is saved. *)
Definition pixels_opaque : list Z := [0xff112233; 0xff445566].

Definition world_opaque : world :=
  World {[ "HOME" := "/home/u" ]} None
        {[ source := File [x01] 5 ]} ∅ 1000 10
        {[ 1%positive := pixels_opaque ]} 100 0.

Definition world_opaque_saved : world :=
  match thumbnail_save LP64.params_bytes world_opaque thumb0 source params0 with
  | Some (w, _) => w
  | None => world_opaque
  end.

(** A cache file that may not be written, with an old entry in it, in a
    tree whose directories are still to be made. *)
Definition world_denied : world :=
  World {[ "HOME" := "/home/u" ]} None
        {[ source := File [x01] 5; cache := File [x07] 3 ]}
        {[ cache ]} 1000 10
        {[ 1%positive := pixels0 ]} 100 0.

(** A resampler that does nothing. *)
Definition no_scale : pixmap_scale_t -> pixmap -> pixmap -> Z -> Z -> spec_float ->
    bool -> world -> world :=
  fun _ _ _ _ _ _ _ w => w.

Definition picture : image := Image (Pixmap 4000 2000 None) false.

End MoreExamples.

(** * Properties *)

(** ** Bytes and decimal numbers *)

Lemma Z_of_byte_of_Z (z : Z) : Z_of_byte (byte_of_Z z) = z mod 256.
Proof.
  unfold Z_of_byte, byte_of_Z.
  assert (Hr : 0 <= z mod 256 < 256) by (apply Z.mod_pos_bound; lia).
  destruct (Byte.of_N (Z.to_N (z mod 256))) as [b|] eqn:E.
  - apply Byte.to_of_N in E. simpl. rewrite E. lia.
  - apply Byte.of_N_None_iff in E. lia.
Qed.

Lemma Z_of_byte_range (b : byte) : 0 <= Z_of_byte b < 256.
Proof.
  unfold Z_of_byte. pose proof (Byte.to_N_bounded b). lia.
Qed.

Lemma Z_of_digit (d : Z) : 0 <= d < 10 -> Z_of_byte (digit d) = 48 + d.
Proof.
  intros H. unfold digit. rewrite Z_of_byte_of_Z. apply Z.mod_small. lia.
Qed.

Lemma isdigit_digit (d : Z) : 0 <= d < 10 -> isdigit (digit d) = true.
Proof.
  intros H. unfold isdigit. rewrite Z_of_digit by done.
  apply andb_true_iff. split; apply Z.leb_le; lia.
Qed.

Lemma isspace_digit (b : byte) : isdigit b = true -> isspace b = false.
Proof.
  unfold isdigit, isspace. intros [H1 H2]%andb_true_iff.
  apply Z.leb_le in H1, H2.
  apply orb_false_iff. split.
  - apply andb_false_iff. right. apply Z.leb_gt. lia.
  - apply Z.eqb_neq. lia.
Qed.


Lemma scan_digits_stop (v : Z) (fp : list byte) :
  no_digit_ahead fp -> scan_digits v fp = (v, fp).
Proof.
  destruct fp as [|b fp]; simpl; [done|]. by intros ->.
Qed.

Lemma scan_dec_digits (fuel : nat) :
  forall n acc, 0 <= n < 10 ^ Z.of_nat fuel -> n <= SIZE_MAX ->
    scan_digits 0 (dec_digits fuel n acc) = scan_digits n acc.
Proof.
  induction fuel as [|fuel IH]; intros n acc Hn Hmax.
  - simpl in Hn. assert (n = 0) by lia. by subst.
  - assert (Hd : 0 <= n mod 10 < 10) by (apply Z.mod_pos_bound; lia).
    cbn [dec_digits]. destruct (n <? 10) eqn:E.
    + apply Z.ltb_lt in E. rewrite Z.mod_small by lia.
      cbn [scan_digits]. rewrite isdigit_digit, Z_of_digit by lia.
      f_equal. unfold SIZE_MAX in *. lia.
    + apply Z.ltb_ge in E.
      rewrite IH.
      * cbn [scan_digits]. rewrite isdigit_digit, Z_of_digit by lia.
        f_equal. pose proof (Z.div_mod n 10). unfold SIZE_MAX in *. lia.
      * split; [apply Z.div_pos; lia|].
        apply Z.div_lt_upper_bound; [lia|].
        replace (Z.of_nat (S fuel)) with (Z.succ (Z.of_nat fuel)) in Hn by lia.
        rewrite Z.pow_succ_r in Hn by lia. lia.
      * pose proof (Z.div_le_upper_bound n 10 n). lia.
Qed.

(** What [%zu] prints starts with a digit. *)
Lemma dec_digits_head (fuel : nat) (n : Z) (acc : list byte) :
  0 <= n ->
  exists b tl, dec_digits (S fuel) n acc = b :: tl /\ isdigit b = true.
Proof.
  revert n acc. induction fuel as [|fuel IH]; intros n acc Hn.
  - assert (Hd : 0 <= n mod 10 < 10) by (apply Z.mod_pos_bound; lia).
    simpl. destruct (n <? 10); eauto using isdigit_digit.
  - assert (Hd : 0 <= n mod 10 < 10) by (apply Z.mod_pos_bound; lia).
    cbn [dec_digits]. destruct (n <? 10) eqn:E.
    + eauto using isdigit_digit.
    + apply (IH (n / 10)). apply Z.div_pos; lia.
Qed.

Lemma skip_space_digit (b : byte) (fp : list byte) :
  isdigit b = true -> skip_space (b :: fp) = b :: fp.
Proof. intros H. simpl. by rewrite (isspace_digit b H). Qed.

Lemma isdigit_not_sign (b : byte) :
  isdigit b = true -> (Z_of_byte b =? 45) = false /\ (Z_of_byte b =? 43) = false.
Proof.
  unfold isdigit. intros [H1 H2]%andb_true_iff. apply Z.leb_le in H1, H2.
  split; apply Z.eqb_neq; lia.
Qed.

(** Reading back a number that was printed. *)
Lemma scan_zu_print_zu (n : Z) (rest : list byte) :
  is_size_t n -> no_digit_ahead rest ->
  scan_zu (print_zu n ++ rest) = Some (n, rest).
Proof.
  intros [Hn0 Hn] Hrest. unfold scan_zu, print_zu.
  destruct (dec_digits_head 19 n [] Hn0) as (b & tl & Heq & Hb).
  assert (Hscan : scan_digits 0 (dec_digits 20 n [] ++ rest) = (n, rest)).
  { replace (dec_digits 20 n [] ++ rest) with (dec_digits 20 n rest).
    - rewrite scan_dec_digits; [by apply scan_digits_stop| |done].
      unfold SIZE_MAX in Hn. split; [done|]. simpl. lia.
    - clear. generalize 20%nat. intros fuel. revert n.
      assert (G : forall acc n, dec_digits fuel n (acc ++ rest) = dec_digits fuel n acc ++ rest).
      { induction fuel as [|fuel IH]; intros acc n; [done|].
        cbn [dec_digits]. destruct (n <? 10); [done|].
        by rewrite <- IH. }
      intros n. apply (G [] n). }
  rewrite Heq in *. cbn [app] in *.
  rewrite skip_space_digit by done.
  destruct (isdigit_not_sign b Hb) as [-> ->].
  rewrite Hb, Hscan. done.
Qed.

Lemma print_zu_head (n : Z) :
  0 <= n -> exists b tl, print_zu n = b :: tl /\ isdigit b = true.
Proof. apply dec_digits_head. Qed.

(** The header written by [thumbnail_save] is read back by the [fscanf] of
    [thumbnail_load], which stops in front of the comment marker. *)
Lemma fscanf_header_bytes (wd ht : Z) (rest : list byte) (thumb : pixmap) :
  is_size_t wd -> is_size_t ht ->
  fscanf_header (header_bytes wd ht ++ x23 :: rest) thumb
  = (3, [x50; x36], Pixmap wd ht (data thumb), x23 :: rest).
Proof.
  intros Hw Hh.
  destruct (print_zu_head wd (proj1 Hw)) as (bw & tw & Ew & Dw).
  destruct (print_zu_head ht (proj1 Hh)) as (bh & th & Eh & Dh).
  assert (S1 : forall l, skip_space (print_zu wd ++ l) = print_zu wd ++ l).
  { intros l. rewrite Ew. cbn [app]. by apply skip_space_digit. }
  assert (S2 : forall l, skip_space (print_zu ht ++ l) = print_zu ht ++ l).
  { intros l. rewrite Eh. cbn [app]. by apply skip_space_digit. }
  replace (header_bytes wd ht ++ x23 :: rest)
    with (x50 :: x36 :: x0a :: print_zu wd ++ x20 :: print_zu ht
            ++ x0a :: x32 :: x35 :: x35 :: x0a :: x23 :: rest)
    by (unfold header_bytes; cbn [app]; rewrite <- !app_assoc; cbn [app];
        rewrite <- !app_assoc; reflexivity).
  unfold fscanf_header.
  change (scan_2s (x50 :: x36 :: ?l)) with ([x50; x36], l). cbv iota beta.
  change (skip_space (x0a :: ?l)) with (skip_space l).
  rewrite !S1, scan_zu_print_zu by done.
  change (skip_space (x20 :: ?l)) with (skip_space l).
  rewrite !S2, scan_zu_print_zu by done.
  reflexivity.
Qed.

(** ** Pixels *)


Lemma Z_of_byte_channel (x : Z) :
  Z_of_byte (byte_of_Z (Z.land x 255)) = Z.land x (Z.ones 8).
Proof.
  rewrite Z_of_byte_of_Z. change 255 with (Z.ones 8).
  rewrite Z.land_ones by lia. apply Z.mod_small.
  apply Z.mod_pos_bound. lia.
Qed.

Lemma ARGB_color (px : Z) :
  match color px with
  | [r; g; b] => ARGB 255 (Z_of_byte r) (Z_of_byte g) (Z_of_byte b) = opaque px
  | _ => False
  end.
Proof.
  unfold color. rewrite !Z_of_byte_channel. unfold ARGB, opaque.
  apply Z.bits_inj'. intros n Hn.
  rewrite !Z.lor_spec, !Z.land_spec.
  destruct (Z.lt_ge_cases n 8); [|destruct (Z.lt_ge_cases n 16); [|destruct (Z.lt_ge_cases n 24)]].
  all: change 255 with (Z.ones 8).
  all: repeat first
         [ rewrite Z.shiftl_spec by lia | rewrite Z.shiftr_spec by lia
         | rewrite Z.land_spec | rewrite Z.testbit_neg_r by lia
         | rewrite Z.testbit_ones_nonneg by lia ].
  all: repeat match goal with
         | |- context [?a <? ?b] =>
             first [ replace (a <? b) with true by (symmetry; apply Z.ltb_lt; lia)
                   | replace (a <? b) with false by (symmetry; apply Z.ltb_ge; lia) ]
         end.
  all: rewrite ?andb_true_r, ?andb_false_r, ?orb_false_r, ?orb_false_l.
  all: try (f_equal; lia).
  all: destruct (n - 24 <? 8); reflexivity.
Qed.

(** ** The C library and the path resolver *)


Lemma same_store_refl (w : world) : same_store w w.
Proof. by repeat split. Qed.

Lemma get_thumb_path_store (w w1 : world) (source : string) (r : option string) :
  get_thumb_path w source = (w1, r) -> same_store w w1.
Proof.
  unfold get_thumb_path, strcat_env, getenv. intros H.
  destruct (cache_dir w); [|destruct (env w !! "XDG_CACHE_HOME"); [|destruct (env w !! "HOME")]].
  all: injection H as <- <-; by repeat split.
Qed.

Lemma get_thumb_path_Some (w w1 : world) (source path : string) :
  get_thumb_path w source = (w1, Some path) ->
  exists dir, cache_dir w1 = Some dir /\ snprintf_path dir source = Some path.
Proof.
  unfold get_thumb_path, strcat_env, getenv. intros H.
  destruct (cache_dir w) eqn:E;
    [|destruct (env w !! "XDG_CACHE_HOME"); [|destruct (env w !! "HOME")]].
  all: injection H as <- Hp; try discriminate; eauto.
Qed.

(** The second resolution made by [thumbnail_load] finds the static variable
    set and gives the same path. *)
Lemma get_thumb_path_again (w w1 : world) (source path : string) :
  get_thumb_path w source = (w1, Some path) ->
  get_thumb_path w1 source = (w1, Some path).
Proof.
  intros (dir & Hd & Hp)%get_thumb_path_Some.
  unfold get_thumb_path. by rewrite Hd, Hp.
Qed.

Lemma snprintf_path_Some (dir source path : string) :
  snprintf_path dir source = Some path -> path = dir +:+ source.
Proof.
  unfold snprintf_path. destruct (_ && _); [|done]. by intros [= <-].
Qed.


Lemma get_thumb_path_env_ok (w w1 : world) (source : string) (r : option string) :
  env_ok w -> get_thumb_path w source = (w1, r) -> env_ok w1.
Proof.
  unfold get_thumb_path, strcat_env, getenv, env_ok. intros Hok H.
  destruct (cache_dir w) eqn:E;
    [|destruct (env w !! "XDG_CACHE_HOME") eqn:E1; [|destruct (env w !! "HOME") eqn:E2]].
  all: injection H as <- _; simpl; try done.
  - rewrite E. exact Hok.
  - intros dir [= <-]. left. apply lookup_insert_eq.
  - intros dir [= <-]. right. apply lookup_insert_eq.
  - by rewrite E.
Qed.

Lemma get_thumb_path_unset (w : world) (source : string) :
  env_ok w -> getenv w "XDG_CACHE_HOME" = None -> getenv w "HOME" = None ->
  get_thumb_path w source = (w, None).
Proof.
  unfold getenv, get_thumb_path, env_ok. intros Hok H1 H2.
  destruct (cache_dir w) as [dir|] eqn:E.
  - destruct (Hok dir eq_refl); congruence.
  - unfold getenv. by rewrite H1, H2.
Qed.

Lemma fwrite_app (w : world) (path : string) (a b : list byte) :
  fwrite (fwrite w path a) path b = fwrite w path (a ++ b).
Proof.
  unfold fwrite. destruct (fs w !! path) as [[t|c t]|] eqn:E; simpl.
  - by rewrite E.
  - rewrite lookup_insert_eq. unfold set_space, set_fs. simpl.
    rewrite insert_insert_eq, take_app, length_app, <- app_assoc.
    f_equal. lia.
  - by rewrite E.
Qed.

Lemma fwrite_store (w : world) (path : string) (bs : list byte) :
  env (fwrite w path bs) = env w /\ cache_dir (fwrite w path bs) = cache_dir w /\
  denied (fwrite w path bs) = denied w /\ now (fwrite w path bs) = now w /\
  heap (fwrite w path bs) = heap w /\ mem (fwrite w path bs) = mem w /\
  open_files (fwrite w path bs) = open_files w.
Proof.
  unfold fwrite. by destruct (fs w !! path) as [[]|].
Qed.

(** The file after a write. *)
Lemma fwrite_lookup (w : world) (path : string) (c bs : list byte) (t : Z) :
  fs w !! path = Some (File c t) ->
  fs (fwrite w path bs) !! path = Some (File (c ++ take (space w) bs) (now w)).
Proof.
  intros E. unfold fwrite. rewrite E. simpl. apply lookup_insert_eq.
Qed.

Lemma fwrite_other (w : world) (path q : string) (bs : list byte) :
  q <> path -> fs (fwrite w path bs) !! q = fs w !! q.
Proof.
  intros Hq. unfold fwrite. destruct (fs w !! path) as [[]|]; simpl; try done.
  by rewrite lookup_insert_ne.
Qed.

Lemma mkdir_store (w w' : world) (path : string) (r : option errno) :
  mkdir w path = (w', r) ->
  env w' = env w /\ cache_dir w' = cache_dir w /\ denied w' = denied w /\
  space w' = space w /\ now w' = now w /\ heap w' = heap w /\ mem w' = mem w /\
  open_files w' = open_files w.
Proof.
  unfold mkdir. destruct (fs w !! path); [|case_decide]; by intros [= <- <-].
Qed.

Lemma make_directories_loop_store (rest : string) :
  forall w done w' r, make_directories_loop w done rest = (w', r) ->
    env w' = env w /\ cache_dir w' = cache_dir w /\ denied w' = denied w /\
    space w' = space w /\ now w' = now w /\ heap w' = heap w /\ mem w' = mem w /\
    open_files w' = open_files w.
Proof.
  induction rest as [|c rest IH]; intros w done w' r; cbn [make_directories_loop].
  - by intros [= <- <-].
  - destruct (Ascii.eqb c "/"); [|apply IH].
    destruct (mkdir w done) as [w1 [[]|]] eqn:E; apply mkdir_store in E.
    + intros H%IH. intuition congruence.
    + intros [= <- <-]. done.
    + intros H%IH. intuition congruence.
Qed.

Lemma make_directories_store (w w' : world) (path : string) (r : bool) :
  make_directories w path = (w', r) ->
  env w' = env w /\ cache_dir w' = cache_dir w /\ denied w' = denied w /\
  space w' = space w /\ now w' = now w /\ heap w' = heap w /\ mem w' = mem w /\
  open_files w' = open_files w.
Proof.
  unfold make_directories. destruct path as [|c rest].
  - by intros [= <- <-].
  - apply make_directories_loop_store.
Qed.

Lemma fopen_wb_true (w w' : world) (path : string) :
  fopen_wb w path = (w', true) ->
  w' = set_open_files (S (open_files w)) (set_fs <[path := File [] (now w)]> w) /\
  path ∉ denied w.
Proof.
  unfold fopen_wb. case_decide; [done|].
  destruct (fs w !! path) as [[]|]; by intros [= <-].
Qed.

Lemma fopen_wb_false (w w' : world) (path : string) :
  fopen_wb w path = (w', false) -> w' = w.
Proof.
  unfold fopen_wb. case_decide; [by intros [= <-]|].
  destruct (fs w !! path) as [[]|]; by intros [= <-].
Qed.

(** ** The cache codec *)

Section CodecProperties.

Variable sizeof_params : nat.
Variable params_bytes : ThumbnailParams -> list byte.
Hypothesis params_bytes_length :
  forall p, length (params_bytes p) = sizeof_params.

Abbreviation save := (thumbnail_save params_bytes).
Abbreviation load := (thumbnail_load sizeof_params params_bytes).
Abbreviation entry := (entry_bytes params_bytes).

Lemma pixels_of_heap (w w' : world) (thumb : pixmap) (n : Z) :
  heap w' = heap w -> pixels_of w' thumb n = pixels_of w thumb n.
Proof. unfold pixels_of. by intros ->. Qed.

Lemma pixels_of_length (w : world) (thumb : pixmap) (n : Z) (pxs : list Z) :
  0 <= n -> pixels_of w thumb n = Some pxs -> Z.of_nat (length pxs) = n.
Proof.
  unfold pixels_of. intros Hn. destruct (n =? 0) eqn:E.
  - apply Z.eqb_eq in E. intros [= <-]. simpl. lia.
  - destruct (data thumb); [|done]. destruct (heap w !! _); [|done].
    destruct (n <=? _) eqn:E'; [|done]. apply Z.leb_le in E'.
    intros [= <-]. rewrite length_take. lia.
Qed.

Lemma foldl_fwrite (path : string) (pxs : list Z) :
  forall w bs,
    foldl (fun w px => fwrite w path (color px)) (fwrite w path bs) pxs
    = fwrite w path (bs ++ (pxs ≫= color)).
Proof.
  induction pxs as [|px pxs IH]; intros w bs.
  - simpl. by rewrite app_nil_r.
  - cbn [foldl]. rewrite fwrite_app, IH, <- app_assoc. reflexivity.
Qed.

(** Once the file is open, [thumbnail_save] writes the entry, as far as
    the device takes it, and reports success. *)
Lemma thumbnail_save_open (w w1 w2 w3 : world) (thumb : pixmap)
    (source path : string) (p : ThumbnailParams) (pxs : list Z) :
  get_thumb_path w source = (w1, Some path) ->
  make_directories w1 path = (w2, true) ->
  fopen_wb w2 path = (w3, true) ->
  wrap64 (width thumb * height thumb) < 2 ^ 32 ->
  pixels_of w thumb (wrap64 (width thumb * height thumb)) = Some pxs ->
  save w thumb source p
  = Some (fclose (fwrite w3 path (entry (width thumb) (height thumb) p pxs)), true).
Proof.
  intros H1 H2 H3 Hn Hpx. unfold thumbnail_save. rewrite H1, H2, H3.
  destruct (2 ^ 32 <=? _) eqn:E; [apply Z.leb_le in E; lia|].
  rewrite !fwrite_app.
  erewrite pixels_of_heap, Hpx.
  - rewrite foldl_fwrite. unfold entry_bytes. by rewrite <- !app_assoc.
  - match goal with
    | |- heap (fwrite ?a ?b ?c) = _ =>
        destruct (fwrite_store a b c) as (_ & _ & _ & _ & -> & _)
    end.
    apply fopen_wb_true in H3 as [-> _]. simpl.
    apply make_directories_store in H2. apply get_thumb_path_store in H1.
    unfold same_store in H1. intuition congruence.
Qed.

(** The file left by a save that found the file open. *)
Lemma thumbnail_save_file (w1 w2 w3 : world) (path : string) (bs : list byte) :
  make_directories w1 path = (w2, true) ->
  fopen_wb w2 path = (w3, true) ->
  fs (fclose (fwrite w3 path bs)) !! path = Some (File (take (space w1) bs) (now w1)) /\
  env (fclose (fwrite w3 path bs)) = env w1 /\
  cache_dir (fclose (fwrite w3 path bs)) = cache_dir w1 /\
  open_files (fclose (fwrite w3 path bs)) = open_files w1 /\
  heap (fclose (fwrite w3 path bs)) = heap w1.
Proof.
  intros H2 H3. apply fopen_wb_true in H3 as [-> _].
  apply make_directories_store in H2 as (He & Hc & _ & Hs & Hn & Hh & _ & Ho).
  destruct (fwrite_store
    (set_open_files (S (open_files w2)) (set_fs <[path:=File [] (now w2)]> w2)) path bs)
    as (E1 & E2 & _ & _ & E3 & _ & E4).
  unfold fclose. simpl. rewrite E1, E2, E3, E4. simpl.
  repeat split; try done.
  erewrite fwrite_lookup by (simpl; apply lookup_insert_eq).
  simpl. by rewrite Hs, Hn.
Qed.

Lemma load_pixels_done (fp : list byte) (w : world) (thumb : pixmap) (i n : Z) :
  n <= i -> load_pixels fp w thumb i n = (w, true).
Proof.
  intros H%Z.ltb_ge. destruct fp; simpl; by rewrite H.
Qed.

Lemma load_pixels_step (r g b : byte) (fp : list byte) (w : world)
    (thumb : pixmap) (i n : Z) :
  i < n ->
  load_pixels (r :: g :: b :: fp) w thumb i n
  = load_pixels fp
      (set_pixel w thumb i (ARGB 255 (Z_of_byte r) (Z_of_byte g) (Z_of_byte b)))
      thumb (wrap32 (i + 1)) n.
Proof.
  intros H%Z.ltb_lt. simpl. by rewrite H.
Qed.

(** The loop of [thumbnail_load] on the payload of an entry: [done] is the
    part of the buffer already filled. *)
Lemma load_pixels_entry (thumb : pixmap) (a : positive) (n : Z) (rest : list byte) :
  data thumb = Some a -> n < 2 ^ 32 ->
  forall pxs w done tail,
    heap w !! a = Some (done ++ tail) -> length tail = length pxs ->
    Z.of_nat (length done) + Z.of_nat (length pxs) = n ->
    load_pixels ((pxs ≫= color) ++ rest) w thumb (Z.of_nat (length done)) n
    = (set_heap <[a := done ++ (opaque <$> pxs)]> (mem w) w, true).
Proof.
  intros Ha Hn. induction pxs as [|px pxs IH]; intros w done tail Hw Hlen Hsum.
  - destruct tail; [|done]. rewrite app_nil_r in Hw.
    rewrite load_pixels_done by (simpl in Hsum; lia).
    f_equal. destruct w. unfold set_heap. simpl in *. f_equal.
    rewrite app_nil_r. symmetry. by apply insert_id.
  - destruct tail as [|t tail]; [done|]. simpl in Hlen, Hsum.
    rewrite bind_cons. pose proof (ARGB_color px) as Hc.
    destruct (color px) as [|r [|g [|b [|]]]]; try done.
    cbn [app]. rewrite load_pixels_step by lia. rewrite Hc.
    assert (Hi : wrap32 (Z.of_nat (length done) + 1)
                 = Z.of_nat (length (done ++ [opaque px]))).
    { unfold wrap32. rewrite length_app. simpl.
      rewrite Z.mod_small; lia. }
    rewrite Hi.
    rewrite (IH _ (done ++ [opaque px]) tail).
    + f_equal. unfold set_pixel. rewrite Ha. unfold set_heap. simpl.
      f_equal. rewrite insert_alter_eq. by rewrite <- app_assoc.
    + unfold set_pixel. rewrite Ha. simpl.
      rewrite lookup_alter_eq, Hw. simpl. f_equal.
      rewrite Nat2Z.id, insert_app_r_alt by lia.
      rewrite Nat.sub_diag. simpl. by rewrite <- app_assoc.
    + lia.
    + rewrite length_app. simpl. lia.
Qed.

(** The loop touches nothing but the buffer of the pixmap, whose length it
    keeps. *)
Lemma set_pixel_frame (w : world) (thumb : pixmap) (a : positive) (i px : Z) :
  data thumb = Some a ->
  env (set_pixel w thumb i px) = env w /\
  cache_dir (set_pixel w thumb i px) = cache_dir w /\
  fs (set_pixel w thumb i px) = fs w /\
  denied (set_pixel w thumb i px) = denied w /\
  space (set_pixel w thumb i px) = space w /\
  now (set_pixel w thumb i px) = now w /\
  mem (set_pixel w thumb i px) = mem w /\
  open_files (set_pixel w thumb i px) = open_files w /\
  delete a (heap (set_pixel w thumb i px)) = delete a (heap w) /\
  length <$> heap (set_pixel w thumb i px) !! a = length <$> heap w !! a.
Proof.
  intros Ha. unfold set_pixel. rewrite Ha. simpl.
  repeat split; try done.
  - apply delete_alter_eq.
  - rewrite lookup_alter_eq. destruct (heap w !! a); simpl; [|done].
    by rewrite length_insert.
Qed.

Lemma load_pixels_frame (thumb : pixmap) (a : positive) (n : Z) (k : nat) :
  data thumb = Some a ->
  forall fp w i w' r, (length fp <= k)%nat ->
    load_pixels fp w thumb i n = (w', r) ->
    env w' = env w /\ cache_dir w' = cache_dir w /\ fs w' = fs w /\
    denied w' = denied w /\ space w' = space w /\ now w' = now w /\
    mem w' = mem w /\ open_files w' = open_files w /\
    delete a (heap w') = delete a (heap w) /\
    length <$> heap w' !! a = length <$> heap w !! a.
Proof.
  intros Ha. induction k as [|k IH]; intros fp w i w' r Hk.
  - destruct fp; [|simpl in Hk; lia]. simpl.
    destruct (i <? n); intros [= <- <-]; by repeat split.
  - destruct (Z.lt_ge_cases i n) as [Hi|Hi].
    + destruct fp as [|r0 [|g [|b fp]]];
        try (simpl; apply Z.ltb_lt in Hi; rewrite Hi; intros [= <- <-]; by repeat split).
      rewrite load_pixels_step by done. intros H.
      apply IH in H; [|simpl in Hk; lia].
      destruct (set_pixel_frame w thumb a i
                  (ARGB 255 (Z_of_byte r0) (Z_of_byte g) (Z_of_byte b)) Ha)
        as (E1 & E2 & E3 & E4 & E5 & E6 & E7 & E8 & E9 & E10).
      destruct H as (-> & -> & -> & -> & -> & -> & -> & -> & -> & ->).
      by repeat split.
    + rewrite load_pixels_done by done. intros [= <- <-]. by repeat split.
Qed.

Lemma world_ext (w w' : world) :
  env w = env w' -> cache_dir w = cache_dir w' -> fs w = fs w' ->
  denied w = denied w' -> space w = space w' -> now w = now w' ->
  heap w = heap w' -> mem w = mem w' -> open_files w = open_files w' -> w = w'.
Proof.
  destruct w, w'. simpl. by intros -> -> -> -> -> -> -> -> ->.
Qed.

Lemma pixmap_create_true (w w' : world) (pm pm' : pixmap) (wd ht : Z) :
  pixmap_create w pm wd ht = (w', pm', true) ->
  heap w !! fresh (dom (heap w)) = None /\
  w' = set_heap <[fresh (dom (heap w)) := replicate (Z.to_nat (wd * ht)) 0]>
         (mem w - wd * ht) w /\
  pm' = Pixmap wd ht (Some (fresh (dom (heap w)))) /\
  0 <= wd * ht <= mem w /\ wd * ht * 4 <= SIZE_MAX.
Proof.
  unfold pixmap_create. destruct (_ && _) eqn:E; [|done].
  apply andb_true_iff in E as [[E1 E2]%andb_true_iff E3].
  apply Z.leb_le in E1, E2, E3. intros [= <- <-].
  repeat split; try done.
  apply not_elem_of_dom, is_fresh.
Qed.

Lemma pixmap_create_false (w w' : world) (pm pm' : pixmap) (wd ht : Z) :
  pixmap_create w pm wd ht = (w', pm', false) -> w' = w /\ pm' = pm.
Proof.
  unfold pixmap_create. destruct (_ && _); [done|]. by intros [= <- <-].
Qed.

Lemma fscanf_header_data (fp : list byte) (thumb : pixmap) :
  data (fscanf_header fp thumb).1.2 = data thumb.
Proof.
  unfold fscanf_header. repeat case_match; done.
Qed.

(** A failing read leaves nothing behind: the stream is closed and the
    buffer, if one was allocated, is freed. *)
Lemma read_entry_false (w3 w' : world) (fp : list byte) (thumb t' : pixmap)
    (p : ThumbnailParams) (stack : list byte) :
  read_entry sizeof_params params_bytes w3 fp thumb p stack = (w', t', false) ->
  w' = fclose w3.
Proof.
  unfold read_entry.
  destruct (fscanf_header fp thumb) as [[[cnt header] thumb1] fp1].
  destruct (negb (cnt =? 3)); [by intros [= <- <-]|].
  destruct (negb (bool_decide (header = _))); [by intros [= <- <-]|].
  destruct (negb (bool_decide (params_bytes p = _))); [by intros [= <- <-]|].
  destruct (pixmap_create _ _ _ _) as [[w4 thumb2] []] eqn:Ec.
  - apply pixmap_create_true in Ec as (Hfresh & -> & -> & Hn & _).
    set (a := fresh (dom (heap w3))) in *.
    destruct (load_pixels _ _ _ _ _) as [w5 []] eqn:El; [done|].
    intros [= <- <-].
    pose proof (load_pixels_frame _ a _ _
      (eq_refl : data (Pixmap (width thumb1) (height thumb1) (Some a)) = Some a)
      _ _ _ _ _ (le_n _) El) as (E1 & E2 & E3 & E4 & E5 & E6 & E7 & E8 & E9 & E10).
    simpl in *. rewrite lookup_insert_eq in E10. rewrite delete_insert_id in E9 by done.
    unfold pixmap_free. simpl.
    destruct (heap w5 !! a) as [buf|] eqn:Eb; [|done].
    simpl in E10. injection E10 as E10. rewrite length_replicate in E10.
    apply world_ext; simpl; try done; [lia | by rewrite E8].
  - apply pixmap_create_false in Ec as [-> ->]. by intros [= <- <-].
Qed.

(** What a successful read has checked. *)
Lemma read_entry_true (w3 w' : world) (fp : list byte) (thumb t' : pixmap)
    (p : ThumbnailParams) (stack : list byte) :
  read_entry sizeof_params params_bytes w3 fp thumb p stack = (w', t', true) ->
  exists thumb1 fp1,
    fscanf_header fp thumb = (3, [x50; x36], thumb1, fp1) /\
    params_bytes p
    = take sizeof_params
        (take sizeof_params (drop 1 fp1)
         ++ drop (length (take sizeof_params (drop 1 fp1))) stack) /\
    width t' = width thumb1 /\ height t' = height thumb1.
Proof.
  unfold read_entry.
  destruct (fscanf_header fp thumb) as [[[cnt header] thumb1] fp1].
  destruct (cnt =? 3) eqn:E1; [|done]. apply Z.eqb_eq in E1 as ->.
  case_bool_decide as E2; [|done]. subst header.
  case_bool_decide as E3; [|done]. simpl.
  destruct (pixmap_create _ _ _ _) as [[w4 thumb2] []] eqn:Ec; [|done].
  apply pixmap_create_true in Ec as (_ & _ & -> & _).
  destruct (load_pixels _ _ _ _ _) as [w5 []]; [|done].
  intros [= <- <-]. by exists thumb1, fp1.
Qed.

(** Reading an entry back: the pixmap gets the dimensions of the header
    and a fresh buffer with the pixels of the payload, made opaque. *)
Lemma read_entry_entry (w3 : world) (thumb : pixmap) (p : ThumbnailParams)
    (stack rest : list byte) (wd ht : Z) (pxs : list Z) :
  is_size_t wd -> is_size_t ht ->
  Z.of_nat (length pxs) = wd * ht -> wd * ht < 2 ^ 32 -> wd * ht <= mem w3 ->
  read_entry sizeof_params params_bytes w3 (entry wd ht p pxs ++ rest) thumb p stack
  = (fclose (set_heap <[fresh (dom (heap w3)) := opaque <$> pxs]>
               (mem w3 - wd * ht) w3),
     Pixmap wd ht (Some (fresh (dom (heap w3)))), true).
Proof.
  intros Hw Hh Hlen Hn Hmem. unfold read_entry, entry_bytes.
  replace ((header_bytes wd ht ++ [x23] ++ params_bytes p ++ [x0a] ++ pxs ≫= color) ++ rest)
    with (header_bytes wd ht ++ x23 :: (params_bytes p ++ x0a :: ((pxs ≫= color) ++ rest)))
    by (cbn [app]; rewrite <- !app_assoc; cbn [app]; rewrite <- !app_assoc; reflexivity).
  rewrite fscanf_header_bytes by done.
  change (negb (3 =? 3)) with false. cbv iota.
  rewrite bool_decide_eq_true_2 by done. cbn [negb fread fst snd].
  change (drop 1 (x23 :: ?l)) with l.
  rewrite !(take_app_length' (params_bytes p)) by (symmetry; apply params_bytes_length).
  rewrite (drop_app_length' (params_bytes p)) by (symmetry; apply params_bytes_length).
  rewrite bool_decide_eq_true_2 by done. cbn [negb].
  change (drop 1 (x0a :: ?l)) with l.
  unfold pixmap_create. cbn [width height data].
  replace ((0 <=? wd * ht) && (wd * ht <=? mem w3) && (wd * ht * 4 <=? SIZE_MAX))
    with true.
  2:{ symmetry. rewrite !andb_true_iff, !Z.leb_le. unfold SIZE_MAX. lia. }
  set (a := fresh (dom (heap w3))). cbn [width height].
  replace (wrap64 (wd * ht)) with (wd * ht)
    by (unfold wrap64; rewrite Z.mod_small; lia).
  pose proof (load_pixels_entry (Pixmap wd ht (Some a)) a (wd * ht) rest eq_refl Hn
                pxs (set_heap <[a := replicate (Z.to_nat (wd * ht)) 0]>
                       (mem w3 - wd * ht) w3)
                [] (replicate (Z.to_nat (wd * ht)) 0)) as L.
  change (Z.of_nat (length [])) with 0 in L. cbn [app] in L. rewrite L.
  - do 2 f_equal. unfold fclose, set_open_files, set_heap. simpl.
    by rewrite insert_insert_eq.
  - simpl. apply lookup_insert_eq.
  - rewrite length_replicate. lia.
  - lia.
Qed.

(** The destination after a failing read: the width and the height are
    what [fscanf] made of them, and the address of the buffer is the one
    passed in, or that of the buffer that was allocated and freed. *)
Lemma read_entry_false_pixmap (w3 w' : world) (fp : list byte) (thumb t' : pixmap)
    (p : ThumbnailParams) (stack : list byte) :
  read_entry sizeof_params params_bytes w3 fp thumb p stack = (w', t', false) ->
  width t' = width (fscanf_header fp thumb).1.2 /\
  height t' = height (fscanf_header fp thumb).1.2 /\
  (data t' = data thumb \/
   (data t' = Some (fresh (dom (heap w3))) /\
    heap w' !! fresh (dom (heap w3)) = None)).
Proof.
  intros H. pose proof (read_entry_false _ _ _ _ _ _ _ H) as Hw'.
  pose proof (fscanf_header_data fp thumb) as Hd.
  unfold read_entry in H.
  destruct (fscanf_header fp thumb) as [[[cnt header] thumb1] fp1].
  cbn [fst snd] in *.
  destruct (negb (cnt =? 3)); [injection H as _ <-; auto|].
  destruct (negb (bool_decide (header = _))); [injection H as _ <-; auto|].
  destruct (negb (bool_decide (params_bytes p = _))); [injection H as _ <-; auto|].
  destruct (pixmap_create _ _ _ _) as [[w4 thumb2] []] eqn:Ec.
  - apply pixmap_create_true in Ec as (Hfresh & _ & -> & _).
    destruct (load_pixels _ _ _ _ _) as [w5 []]; [done|].
    injection H as _ <-. cbn [width height data].
    repeat split. right. split; [done|]. by rewrite Hw'.
  - apply pixmap_create_false in Ec as [_ ->]. injection H as _ <-. auto.
Qed.

(** A failing load leaves the store as it was; only the resolver may have
    set its static variable. *)
Lemma thumbnail_load_false (w w' : world) (thumb t' : pixmap) (source : string)
    (p : ThumbnailParams) (stack : list byte) :
  load w thumb source p stack = (w', t', false) -> same_store w w'.
Proof.
  unfold thumbnail_load.
  destruct (get_thumb_path w source) as [w1 [path|]] eqn:E1;
    pose proof (get_thumb_path_store _ _ _ _ E1) as S1.
  2:{ by intros [= <- <-]. }
  destruct (stat w1 source) as [ts|]; [|by intros [= <- <-]].
  destruct (stat w1 path) as [tc|]; [|by intros [= <- <-]].
  destruct (0 <? difftime ts tc); [by intros [= <- <-]|].
  rewrite (get_thumb_path_again _ _ _ _ E1).
  unfold fopen_rb. destruct (fs w1 !! path) as [[t|c t]|]; [| |by intros [= <- <-]].
  all: intros ->%read_entry_false; unfold same_store in *; simpl; intuition.
Qed.

(** The destination after a failing load. *)
Lemma thumbnail_load_false_pixmap (w w' : world) (thumb t' : pixmap) (source : string)
    (p : ThumbnailParams) (stack : list byte) :
  load w thumb source p stack = (w', t', false) ->
  t' = thumb \/
  exists path c tc,
    (get_thumb_path w source).2 = Some path /\
    fs w !! path = Some (File c tc) /\
    width t' = width (fscanf_header c thumb).1.2 /\
    height t' = height (fscanf_header c thumb).1.2 /\
    (data t' = data thumb \/
     (data t' = Some (fresh (dom (heap w))) /\
      heap w' !! fresh (dom (heap w)) = None)).
Proof.
  unfold thumbnail_load.
  destruct (get_thumb_path w source) as [w1 [path|]] eqn:E1;
    pose proof (get_thumb_path_store _ _ _ _ E1) as (Hfs & _ & _ & _ & Hheap & _).
  2:{ intros [= _ <-]. by left. }
  destruct (stat w1 source) as [ts|]; [|intros [= _ <-]; by left].
  destruct (stat w1 path) as [tc|]; [|intros [= _ <-]; by left].
  destruct (0 <? difftime ts tc); [intros [= _ <-]; by left|].
  rewrite (get_thumb_path_again _ _ _ _ E1).
  unfold fopen_rb. destruct (fs w1 !! path) as [[t|c t]|] eqn:Ef;
    [| |intros [= _ <-]; by left].
  - intros [= _ <-]. by left.
  - intros H%read_entry_false_pixmap. right. exists path, c, t.
    cbn [snd heap set_open_files] in *. rewrite <- Hfs, <- Hheap. by rewrite Ef.
Qed.

(** What a successful load has checked. *)
Lemma thumbnail_load_true (w w' : world) (thumb t' : pixmap) (source : string)
    (p : ThumbnailParams) (stack : list byte) :
  load w thumb source p stack = (w', t', true) ->
  exists w1 path ts tc c,
    get_thumb_path w source = (w1, Some path) /\
    stat w1 source = Some ts /\ fs w1 !! path = Some (File c tc) /\ ts <= tc /\
    read_entry sizeof_params params_bytes
      (set_open_files (S (open_files w1)) w1) c thumb p stack = (w', t', true).
Proof.
  unfold thumbnail_load.
  destruct (get_thumb_path w source) as [w1 [path|]] eqn:E1; [|done].
  destruct (stat w1 source) as [ts|] eqn:Es; [|done].
  unfold stat at 1. destruct (fs w1 !! path) as [nd|] eqn:Ef; [|done]. simpl.
  destruct (0 <? difftime ts (st_ctime nd)) eqn:Ed; [done|].
  apply Z.ltb_ge in Ed. unfold difftime in Ed.
  rewrite (get_thumb_path_again _ _ _ _ E1).
  unfold fopen_rb. rewrite Ef. destruct nd as [t|c t].
  - unfold read_entry. by destruct thumb.
  - intros H. exists w1, path, ts, t, c. simpl in Ed. repeat split; try done. lia.
Qed.

(** Loading a complete entry. *)
Lemma thumbnail_load_entry (w w1 : world) (thumb : pixmap) (source path : string)
    (p : ThumbnailParams) (stack rest : list byte) (wd ht ts tc : Z) (pxs : list Z) :
  get_thumb_path w source = (w1, Some path) ->
  stat w1 source = Some ts ->
  fs w1 !! path = Some (File (entry wd ht p pxs ++ rest) tc) ->
  ts <= tc ->
  is_size_t wd -> is_size_t ht ->
  Z.of_nat (length pxs) = wd * ht -> wd * ht < 2 ^ 32 -> wd * ht <= mem w1 ->
  load w thumb source p stack
  = (set_heap <[fresh (dom (heap w1)) := opaque <$> pxs]> (mem w1 - wd * ht) w1,
     Pixmap wd ht (Some (fresh (dom (heap w1)))), true).
Proof.
  intros E1 Es Ef Ht Hw Hh Hlen Hn Hmem. unfold thumbnail_load.
  rewrite E1, Es. unfold stat. rewrite Ef. simpl.
  replace (0 <? difftime ts tc) with false
    by (symmetry; apply Z.ltb_ge; unfold difftime; lia).
  rewrite (get_thumb_path_again _ _ _ _ E1).
  unfold fopen_rb. rewrite Ef.
  rewrite read_entry_entry by done.
  reflexivity.
Qed.

Lemma fscanf_header_rest (fp : list byte) (t1 t2 : pixmap) :
  (fscanf_header fp t1).2 = (fscanf_header fp t2).2.
Proof.
  unfold fscanf_header.
  destruct (scan_2s fp) as [[|? ?] fp1]; [done|].
  destruct (scan_zu (skip_space fp1)) as [[? fp2]|]; [|done].
  destruct (scan_zu (skip_space fp2)) as [[? fp3]|]; [|done].
  by destruct (scan_literal _ _).
Qed.

(** C1.  A load succeeds only if the status-change time of the source is
    not later than that of the cache file; nothing is asked in the other
    direction: a complete entry is accepted whenever the time of the cache
    file is at or after that of the source, however far after. *)
Theorem thumbnail_load_staleness :
  (forall w w' thumb t' source p stack,
     load w thumb source p stack = (w', t', true) ->
     exists path ts tc,
       (get_thumb_path w source).2 = Some path /\
       stat w source = Some ts /\ stat w path = Some tc /\ ts <= tc) /\
  (forall w w1 thumb source path p stack wd ht ts tc pxs,
     get_thumb_path w source = (w1, Some path) ->
     stat w source = Some ts ->
     fs w !! path = Some (File (entry wd ht p pxs) tc) ->
     is_size_t wd -> is_size_t ht ->
     Z.of_nat (length pxs) = wd * ht -> wd * ht < 2 ^ 32 -> wd * ht <= mem w ->
     ts <= tc ->
     (load w thumb source p stack).2 = true).
Proof.
  split.
  - intros w w' thumb t' source p stack H.
    apply thumbnail_load_true in H as (w1 & path & ts & tc & c & E1 & Es & Ef & Ht & _).
    pose proof (get_thumb_path_store _ _ _ _ E1) as (Hfs & _).
    exists path, ts, tc. rewrite E1. unfold stat in *. rewrite <- Hfs.
    repeat split; try done. by rewrite Ef.
  - intros w w1 thumb source path p stack wd ht ts tc pxs E1 Es Ef Hw Hh Hl Hn Hm Ht.
    pose proof (get_thumb_path_store _ _ _ _ E1) as (Hfs & _ & _ & _ & _ & Hmem & _).
    erewrite (thumbnail_load_entry w w1 thumb source path p stack [] wd ht ts tc pxs);
      try done.
    + unfold stat. by rewrite Hfs.
    + by rewrite Hfs, app_nil_r.
    + by rewrite Hmem.
Qed.

(** C2.  When the parameters embedded in the cache file differ in some
    byte from those of the caller, the load reports a miss, whatever the
    times of the two files. *)
Theorem thumbnail_load_params_mismatch
    (w w1 : world) (thumb : pixmap) (source path : string) (p : ThumbnailParams)
    (stack c saved : list byte) (tc : Z) :
  get_thumb_path w source = (w1, Some path) ->
  fs w !! path = Some (File c tc) ->
  embedded_params sizeof_params c = Some saved ->
  saved <> params_bytes p ->
  (load w thumb source p stack).2 = false.
Proof.
  intros E1 Ef Hemb Hne.
  destruct (load w thumb source p stack) as [[w' t'] []] eqn:E; [|done].
  exfalso. apply Hne.
  apply thumbnail_load_true in E as (w1' & path' & ts & tc' & c' & E1' & _ & Ef' & _ & Hr).
  rewrite E1 in E1'. injection E1' as <- <-.
  pose proof (get_thumb_path_store _ _ _ _ E1) as (Hfs & _).
  rewrite Hfs, Ef in Ef'. injection Ef' as <- <-.
  apply read_entry_true in Hr as (thumb1 & fp1 & Hh & Hp & _).
  unfold embedded_params in Hemb.
  rewrite (fscanf_header_rest c _ thumb), Hh in Hemb. simpl in Hemb.
  case_decide as Hlen; [|done]. injection Hemb as <-.
  rewrite Hp. rewrite take_app_le by (rewrite length_take; lia).
  rewrite take_take. f_equal. lia.
Qed.

Lemma cache_file_opened_Some (w w3 : world) (source path : string) :
  cache_file_opened w source = Some (w3, path) ->
  exists w1 w2,
    get_thumb_path w source = (w1, Some path) /\
    make_directories w1 path = (w2, true) /\ fopen_wb w2 path = (w3, true).
Proof.
  unfold cache_file_opened.
  destruct (get_thumb_path w source) as [w1 [path'|]]; [|done].
  destruct (make_directories w1 path') as [w2 []] eqn:E2; [|done].
  destruct (fopen_wb w2 path') as [w3' []] eqn:E3; [|done].
  intros [= <- <-]. eauto.
Qed.

Lemma thumbnail_save_opened (w w3 : world) (thumb : pixmap) (source path : string)
    (p : ThumbnailParams) (pxs : list Z) :
  cache_file_opened w source = Some (w3, path) ->
  wrap64 (width thumb * height thumb) < 2 ^ 32 ->
  pixels_of w thumb (wrap64 (width thumb * height thumb)) = Some pxs ->
  save w thumb source p
  = Some (fclose (fwrite w3 path (entry (width thumb) (height thumb) p pxs)), true) /\
  fs (fclose (fwrite w3 path (entry (width thumb) (height thumb) p pxs))) !! path
  = Some (File (take (space w) (entry (width thumb) (height thumb) p pxs)) (now w)) /\
  exists dir,
    cache_dir (fclose (fwrite w3 path (entry (width thumb) (height thumb) p pxs)))
    = Some dir /\ snprintf_path dir source = Some path.
Proof.
  intros (w1 & w2 & E1 & E2 & E3)%cache_file_opened_Some Hn Hpx.
  split; [by eapply thumbnail_save_open|].
  destruct (thumbnail_save_file w1 w2 w3 path
              (entry (width thumb) (height thumb) p pxs) E2 E3)
    as (Hf & _ & Hc & _).
  pose proof (get_thumb_path_store _ _ _ _ E1) as (_ & _ & Hs & Hnow & _).
  rewrite Hs, Hnow in Hf. split; [done|].
  rewrite Hc. by apply get_thumb_path_Some in E1.
Qed.

Lemma thumbnail_save_not_opened (w : world) (thumb : pixmap) (source : string)
    (p : ThumbnailParams) :
  cache_file_opened w source = None ->
  exists w', save w thumb source p = Some (w', false).
Proof.
  unfold cache_file_opened, thumbnail_save.
  destruct (get_thumb_path w source) as [w1 [path|]]; [|eauto].
  destruct (make_directories w1 path) as [w2 []]; [|eauto].
  destruct (fopen_wb w2 path) as [w3 []]; [done|eauto].
Qed.

(** C7, as the code has it.  [thumbnail_save] reports failure exactly when
    the path cannot be resolved, a directory cannot be made or the file
    cannot be created.  The writes are not checked: once the file is
    open the result is success, and the file holds the entry (header,
    parameters, payload) as far as the device took it, which is all of it
    when there was room. *)
Theorem thumbnail_save_result (w : world) (thumb : pixmap) (source : string)
    (p : ThumbnailParams) (pxs : list Z) :
  wrap64 (width thumb * height thumb) < 2 ^ 32 ->
  pixels_of w thumb (wrap64 (width thumb * height thumb)) = Some pxs ->
  exists w' b,
    save w thumb source p = Some (w', b) /\
    (b = false <-> cache_file_opened w source = None) /\
    (forall w3 path,
       cache_file_opened w source = Some (w3, path) ->
       fs w' !! path
       = Some (File (take (space w) (entry (width thumb) (height thumb) p pxs))
                 (now w))).
Proof.
  intros Hn Hpx. destruct (cache_file_opened w source) as [[w3 path]|] eqn:E.
  - destruct (thumbnail_save_opened w w3 thumb source path p pxs E Hn Hpx)
      as (Hs & Hf & _).
    eexists _, true. split; [exact Hs|]. split; [done|].
    by intros ? ? [= <- <-].
  - destruct (thumbnail_save_not_opened w thumb source p E) as [w' Hs].
    exists w', false. by repeat split.
Qed.



(** C6, as the code has it.  A load that fails has closed the stream it
    opened and freed the buffer it allocated: files, heap, free memory and
    the number of open streams are what they were.  The destination is as
    it was, or else the cache file was read: then its width and height are
    what [fscanf] made of them from the header, and its buffer address is
    the one passed in, or the address of the buffer that was allocated and
    freed, which is not in the heap any more. *)
Theorem thumbnail_load_failure_releases (w w' : world) (thumb t' : pixmap)
    (source : string) (p : ThumbnailParams) (stack : list byte) :
  load w thumb source p stack = (w', t', false) ->
  fs w' = fs w /\ heap w' = heap w /\ mem w' = mem w /\
  open_files w' = open_files w /\
  (t' = thumb \/
   exists path c tc,
     (get_thumb_path w source).2 = Some path /\
     fs w !! path = Some (File c tc) /\
     width t' = width (fscanf_header c thumb).1.2 /\
     height t' = height (fscanf_header c thumb).1.2 /\
     (data t' = data thumb \/
      (data t' = Some (fresh (dom (heap w))) /\
       heap w' !! fresh (dom (heap w)) = None))).
Proof.
  intros H. pose proof (thumbnail_load_false_pixmap _ _ _ _ _ _ _ H) as Hp.
  apply thumbnail_load_false in H. unfold same_store in H. tauto.
Qed.

(** C8.  With both variables unset, a save and a load report failure and
    leave the world, hence the file system, as it is. *)
Theorem unset_environment_fails (w : world) (thumb : pixmap) (source : string)
    (p : ThumbnailParams) (stack : list byte) :
  env_ok w ->
  getenv w "XDG_CACHE_HOME" = None -> getenv w "HOME" = None ->
  save w thumb source p = Some (w, false) /\
  load w thumb source p stack = (w, thumb, false).
Proof.
  intros Hok H1 H2. unfold thumbnail_save, thumbnail_load.
  by rewrite (get_thumb_path_unset w source Hok H1 H2).
Qed.

(** C10.  The pixmap returned by a successful load has the width and the
    height read from the header of the cache file.  They are not compared
    with the parameters: a complete entry whose header gives other
    dimensions than [thumb_width] and [thumb_height] is loaded, with the
    dimensions of the header. *)
Theorem thumbnail_load_dimensions :
  (forall w w' thumb t' source p stack,
     load w thumb source p stack = (w', t', true) ->
     exists path c tc,
       (get_thumb_path w source).2 = Some path /\
       fs w !! path = Some (File c tc) /\
       width t' = width (fscanf_header c thumb).1.2 /\
       height t' = height (fscanf_header c thumb).1.2) /\
  (forall w w1 thumb source path p stack wd ht ts tc pxs,
     get_thumb_path w source = (w1, Some path) ->
     stat w source = Some ts ->
     fs w !! path = Some (File (entry wd ht p pxs) tc) ->
     ts <= tc ->
     is_size_t wd -> is_size_t ht ->
     Z.of_nat (length pxs) = wd * ht -> wd * ht < 2 ^ 32 -> wd * ht <= mem w ->
     (wd, ht) <> (thumb_width p, thumb_height p) ->
     exists w' t',
       load w thumb source p stack = (w', t', true) /\
       (width t', height t') = (wd, ht) /\
       (width t', height t') <> (thumb_width p, thumb_height p)).
Proof.
  split.
  - intros w w' thumb t' source p stack H.
    apply thumbnail_load_true in H as (w1 & path & ts & tc & c & E1 & _ & Ef & _ & Hr).
    pose proof (get_thumb_path_store _ _ _ _ E1) as (Hfs & _).
    apply read_entry_true in Hr as (thumb1 & fp1 & Hh & _ & Hwd & Hht).
    exists path, c, tc. rewrite E1, <- Hfs, Hh. by repeat split.
  - intros w w1 thumb source path p stack wd ht ts tc pxs E1 Es Ef Ht Hw Hh Hl Hn Hm Hne.
    pose proof (get_thumb_path_store _ _ _ _ E1) as (Hfs & _ & _ & _ & _ & Hmem & _).
    eexists _, _. split.
    + eapply (thumbnail_load_entry w w1 thumb source path p stack [] wd ht ts tc pxs);
        try done.
      * unfold stat. by rewrite Hfs.
      * by rewrite Hfs, app_nil_r.
      * by rewrite Hmem.
    + done.
Qed.

End CodecProperties.

(** C3, as the code has it.  After a save that found room for the whole
    entry, a load made while the cache file is as the save left it and the
    source has not changed since before the save succeeds exactly when the
    object of parameters passed to it has the bytes of the object that was
    saved, padding included; equal fields are not enough.  The pixmap of
    the hit has the dimensions that were saved and its pixels are the
    saved ones with the alpha channel set to 255. *)
Theorem thumbnail_round_trip (sizeof_params : nat)
    (saved_bytes loaded_bytes : ThumbnailParams -> list byte)
    (w w1 : world) (thumb : pixmap) (source : string)
    (p p' : ThumbnailParams) (pxs : list Z)
    (w2 : world) (thumb2 : pixmap) (stack : list byte) (ts : Z) :
  (forall q, length (saved_bytes q) = sizeof_params) ->
  (forall q, length (loaded_bytes q) = sizeof_params) ->
  thumbnail_save saved_bytes w thumb source p = Some (w1, true) ->
  is_size_t (width thumb) -> is_size_t (height thumb) ->
  width thumb * height thumb < 2 ^ 32 ->
  pixels_of w thumb (width thumb * height thumb) = Some pxs ->
  (length (entry_bytes saved_bytes (width thumb) (height thumb) p pxs) <= space w)%nat ->
  cache_dir w2 = cache_dir w1 ->
  (forall path, (get_thumb_path w source).2 = Some path ->
                fs w2 !! path = fs w1 !! path) ->
  stat w2 source = Some ts -> ts <= now w ->
  width thumb * height thumb <= mem w2 ->
  (loaded_bytes p' = saved_bytes p ->
   exists w3 a,
     thumbnail_load sizeof_params loaded_bytes w2 thumb2 source p' stack
     = (w3, Pixmap (width thumb) (height thumb) (Some a), true) /\
     heap w3 !! a = Some (opaque <$> pxs)) /\
  (loaded_bytes p' <> saved_bytes p ->
   (thumbnail_load sizeof_params loaded_bytes w2 thumb2 source p' stack).2 = false).
Proof.
  intros Hls Hll Hs [Hw0 Hw] [Hh0 Hh] Hn Hpx Hroom Hdir Hfile Hstat Hts Hmem.
  assert (Hwrap : wrap64 (width thumb * height thumb) = width thumb * height thumb).
  { unfold wrap64. apply Z.mod_small. lia. }
  destruct (cache_file_opened w source) as [[w3 path]|] eqn:E.
  2:{ destruct (thumbnail_save_not_opened saved_bytes w thumb source p E) as [w' Hs'].
      congruence. }
  destruct (thumbnail_save_opened saved_bytes w w3 thumb source path p pxs E)
    as (Hs' & Hf & dir & Hc & Hp); [lia|by rewrite Hwrap|].
  rewrite Hs in Hs'. injection Hs' as Hw1. rewrite <- Hw1 in Hf, Hc.
  apply cache_file_opened_Some in E as (wa & wb & E1 & _).
  assert (E2 : get_thumb_path w2 source = (w2, Some path)).
  { unfold get_thumb_path. by rewrite Hdir, Hc, Hp. }
  rewrite take_ge in Hf by done.
  assert (Hfile2 : fs w2 !! path
                   = Some (File (entry_bytes saved_bytes (width thumb) (height thumb)
                                   p pxs) (now w))).
  { rewrite Hfile; [done|]. by rewrite E1. }
  split.
  - intros Hb.
    assert (He : entry_bytes saved_bytes (width thumb) (height thumb) p pxs
                 = entry_bytes loaded_bytes (width thumb) (height thumb) p' pxs).
    { unfold entry_bytes. by rewrite Hb. }
    rewrite He in Hfile2.
    eexists _, _. split.
    + eapply (thumbnail_load_entry sizeof_params loaded_bytes Hll
                w2 w2 thumb2 source path p' stack [] _ _ ts (now w) pxs); try done.
      * by rewrite app_nil_r.
      * apply pixels_of_length in Hpx; [done|lia].
    + simpl. apply lookup_insert_eq.
  - intros Hne.
    destruct (thumbnail_load _ _ w2 thumb2 source p' stack) as [[w' t'] []] eqn:El; [|done].
    exfalso. apply Hne.
    apply (thumbnail_load_true sizeof_params loaded_bytes) in El
      as (w1' & path' & ts' & tc' & c' & E1' & _ & Ef' & _ & Hr).
    rewrite E2 in E1'. injection E1' as <- <-.
    rewrite Hfile2 in Ef'. injection Ef' as <- <-.
    apply (read_entry_true sizeof_params loaded_bytes) in Hr
      as (thumb1 & fp1 & Hhd & Hpb & _).
    unfold entry_bytes in Hhd. cbn [app] in Hhd.
    rewrite fscanf_header_bytes in Hhd by done.
    injection Hhd as <- <-. rewrite Hpb.
    change (drop 1 (x23 :: ?l)) with l.
    rewrite !(take_app_length' (saved_bytes p)) by (symmetry; apply Hls).
    reflexivity.
Qed.

(** ** The generator *)

Lemma enlarges_false_of_le (p : ThumbnailParams) :
  SFleb (F64.of_float (scale p)) F64.one = true -> enlarges p = false.
Proof.
  unfold enlarges, F64.ltb, SFleb, SFltb.
  destruct (F64.of_float (scale p)) as [s|s| |s m e]; try done; try (by destruct s).
  change F64.one with (S754_finite false 4503599627370496 (-52)).
  cbn [SFcompare]. destruct s; [done|].
  rewrite (Z.compare_antisym e (-52)).
  destruct (e ?= -52) eqn:E; cbn [CompOpp]; try done.
  change (PosDef.Pos.compare_cont Eq 4503599627370496 m)
    with (Pos.compare_cont (CompOpp Eq) 4503599627370496 m).
  rewrite <- (Pos.compare_cont_antisym m 4503599627370496 Eq).
  by destruct (Pos.compare_cont Eq m 4503599627370496).
Qed.


(** ** Floating-point rounding

    The operations of the specification, on normal numbers whose result is
    in the normal range, return a normal number within the relative error
    [2^-prec] of the exact result. *)
(** The specification of the operations is written with the definitions of
    the core library; this brings them to the names the lemmas use. *)
Ltac std_names :=
  change IntDef.Z.add with Z.add in *; change IntDef.Z.sub with Z.sub in *;
  change IntDef.Z.mul with Z.mul in *; change IntDef.Z.opp with Z.opp in *;
  change IntDef.Z.max with Z.max in *; change IntDef.Z.min with Z.min in *;
  change IntDef.Z.eqb with Z.eqb in *; change IntDef.Z.leb with Z.leb in *;
  change IntDef.Z.ltb with Z.ltb in *; change IntDef.Z.compare with Z.compare in *;
  change IntDef.Z.even with Z.even in *; change IntDef.Z.shiftl with Z.shiftl in *;
  change IntDef.Z.div_eucl with Z.div_eucl in *; change IntDef.Z.div2 with Z.div2 in *;
  change IntDef.Z.to_pos with Z.to_pos in *;
  change PosDef.Pos.mul with Pos.mul in *; change PosDef.Pos.succ with Pos.succ in *;
  change @PosDef.Pos.iter with @Pos.iter in *;
  change PosDef.Pos.compare_cont with Pos.compare_cont in *.

(** digits *)
Lemma digits2_pos_size (p : positive) : digits2_pos p = Pos.size p.
Proof. induction p; simpl; congruence. Qed.

Lemma Zdigits2_bounds (p : positive) :
  2 ^ (Zdigits2 (Z.pos p) - 1) <= Z.pos p < 2 ^ Zdigits2 (Z.pos p).
Proof.
  unfold Zdigits2. rewrite digits2_pos_size.
  pose proof (Pos.size_gt p) as Hgt. pose proof (Pos.size_le p) as Hle.
  assert (E : Z.pos (2 ^ Pos.size p) = 2 ^ Z.pos (Pos.size p)) by (apply Pos2Z.inj_pow).
  split.
  - assert (2 ^ Z.pos (Pos.size p) = 2 * 2 ^ (Z.pos (Pos.size p) - 1)).
    { rewrite <- Z.pow_succ_r by lia. f_equal. lia. }
    lia.
  - lia.
Qed.


Lemma shr_1_nonneg (m : Z) (r s : bool) :
  0 <= m ->
  shr_1 {| shr_m := m; shr_r := r; shr_s := s |}
  = {| shr_m := m / 2; shr_r := Z.odd m; shr_s := r || s |}.
Proof.
  intros Hm. destruct m as [|p|p]; [reflexivity| |lia].
  destruct p as [p|p|]; unfold shr_1.
  - f_equal. rewrite Pos2Z.inj_xI. apply Z.div_unique with 1; lia.
  - f_equal. rewrite Pos2Z.inj_xO. apply Z.div_unique with 0; lia.
  - reflexivity.
Qed.

Lemma shr_1_loc (N D : Z) :
  0 <= N -> 0 < D -> shr_1 (loc_of N D) = loc_of N (2 * D).
Proof.
  intros HN HD. unfold loc_of.
  assert (Hm : 0 <= N / D) by (apply Z.div_pos; lia).
  rewrite shr_1_nonneg by assumption.
  pose proof (Z.div_mod N D ltac:(lia)) as E1.
  pose proof (Z.mod_pos_bound N D HD) as B1.
  pose proof (Z.div_mod (N / D) 2 ltac:(lia)) as E2.
  pose proof (Z.mod_pos_bound (N / D) 2 ltac:(lia)) as B2.
  assert (Hq : N / (2 * D) = N / D / 2).
  { rewrite Z.mul_comm. symmetry. apply Z.div_div; lia. }
  assert (Hr : N mod (2 * D) = (N / D mod 2) * D + N mod D).
  { symmetry. apply Z.mod_unique with (N / D / 2); [left; nia | nia]. }
  rewrite Hq. rewrite Zodd_mod.
  assert (C : (N / D) mod 2 = 0 \/ (N / D) mod 2 = 1) by lia.
  destruct C as [C|C]; rewrite C in Hr |- *;
    rewrite ?Z.mul_0_l, ?Z.mul_1_l, ?Z.add_0_l in Hr.
  all: change (0 =? 1) with false; change (1 =? 1) with true.
  all: f_equal.
  all: repeat match goal with
         | |- context [?a <=? ?b] => destruct (Z.leb_spec a b)
         | |- context [?a =? ?b] => destruct (Z.eqb_spec a b)
         end; simpl; try reflexivity; lia.
Qed.

Lemma iter_pos_shr_1_loc (p : positive) :
  forall N D, 0 <= N -> 0 < D ->
    SpecFloat.iter_pos shr_1 p (loc_of N D) = loc_of N (D * 2 ^ Z.pos p).
Proof.
  induction p as [p IH|p IH|]; intros N D HN HD; cbn [SpecFloat.iter_pos].
  - rewrite shr_1_loc, IH, IH by (try apply Z.mul_pos_pos; try apply Z.pow_pos_nonneg; lia).
    f_equal. rewrite Pos2Z.inj_xI.
    rewrite Z.pow_add_r, Z.pow_mul_r by lia. change (2 ^ 2) with 4. change (2 ^ 1) with 2.
    replace (4 ^ Z.pos p) with (2 ^ Z.pos p * 2 ^ Z.pos p).
    + ring.
    + rewrite <- Z.pow_add_r by lia. replace (Z.pos p + Z.pos p) with (2 * Z.pos p) by lia.
      rewrite Z.pow_mul_r by lia. reflexivity.
  - rewrite IH, IH by (try apply Z.mul_pos_pos; try apply Z.pow_pos_nonneg; lia).
    f_equal. rewrite Pos2Z.inj_xO.
    rewrite <- Z.mul_assoc, <- Z.pow_add_r by lia. f_equal. f_equal. lia.
  - rewrite shr_1_loc by lia. f_equal. change (2 ^ 1) with 2. ring.
Qed.

Lemma loc_of_exact (m : Z) : shr_record_of_loc m loc_Exact = loc_of m 1.
Proof.
  unfold loc_of. rewrite Z.div_1_r, Z.mod_1_r. reflexivity.
Qed.

Lemma loc_of_new_location (N D : Z) :
  0 <= N -> 0 < D ->
  shr_record_of_loc (N / D) (new_location D (N mod D)) = loc_of N D.
Proof.
  intros HN HD. pose proof (Z.mod_pos_bound N D HD) as B.
  unfold loc_of, new_location, new_location_even, new_location_odd. std_names.
  destruct (Z.even D) eqn:Ev.
  - destruct (Z.eqb_spec (N mod D) 0) as [E0|E0].
    + rewrite E0. cbn [shr_record_of_loc negb orb]. f_equal.
      symmetry. apply Z.leb_gt. lia.
    + destruct (Z.compare_spec (2 * (N mod D)) D) as [E|E|E];
        cbn [shr_record_of_loc]; f_equal;
        repeat match goal with
          | |- context [?a <=? ?b] => destruct (Z.leb_spec a b)
          | |- context [?a =? ?b] => destruct (Z.eqb_spec a b)
          end; cbn [negb orb]; try reflexivity; lia.
  - assert (Hodd : 2 * (N mod D) <> D).
    { intros E. rewrite <- E, Z.even_mul in Ev. discriminate. }
    destruct (Z.eqb_spec (N mod D) 0) as [E0|E0].
    + rewrite E0. cbn [shr_record_of_loc negb orb]. f_equal.
      symmetry. apply Z.leb_gt. lia.
    + destruct (Z.compare_spec (2 * (N mod D) + 1) D) as [E|E|E];
        cbn [shr_record_of_loc]; f_equal;
        repeat match goal with
          | |- context [?a <=? ?b] => destruct (Z.leb_spec a b)
          | |- context [?a =? ?b] => destruct (Z.eqb_spec a b)
          end; cbn [negb orb]; try reflexivity; lia.
Qed.


Lemma rne_spec (N D : Z) :
  0 <= N -> 0 < D ->
  N / D <= rne N D <= N / D + 1 /\ - D <= 2 * (rne N D * D - N) <= D.
Proof.
  intros HN HD. pose proof (Z.mod_pos_bound N D HD) as B.
  pose proof (Z.div_mod N D ltac:(lia)) as E.
  unfold rne, loc_of, loc_of_shr_record, round_nearest_even. cbn [shr_m]. std_names.
  destruct (Z.leb_spec D (2 * (N mod D))) as [H1|H1];
    destruct (Z.eqb_spec (N mod D) 0) as [H2|H2];
    destruct (Z.eqb_spec (2 * (N mod D)) D) as [H3|H3]; cbn [negb orb];
    try destruct (Z.even (N / D)); nia.
Qed.

Lemma rne_exact (m : Z) : rne m 1 = m.
Proof.
  unfold rne, loc_of. rewrite Z.div_1_r, Z.mod_1_r. reflexivity.
Qed.

Lemma Zdigits2_unique (m k : Z) :
  0 < k -> 2 ^ (k - 1) <= m < 2 ^ k -> Zdigits2 m = k.
Proof.
  intros Hk [H1 H2].
  assert (0 < m) by (pose proof (Z.pow_pos_nonneg 2 (k - 1)); lia).
  destruct m as [|p|p]; try lia.
  pose proof (Zdigits2_bounds p) as [B1 B2].
  set (d := Zdigits2 (Z.pos p)) in *.
  assert (0 < d) by (subst d; simpl; lia).
  destruct (Z.lt_trichotomy d k) as [Hlt|[Heq|Hgt]]; [|assumption|].
  - assert (2 ^ d <= 2 ^ (k - 1)) by (apply Z.pow_le_mono_r; lia). lia.
  - assert (2 ^ k <= 2 ^ (d - 1)) by (apply Z.pow_le_mono_r; lia). lia.
Qed.

Section Round.

Variables prec emax : Z.
Hypothesis Hprec : 0 < prec.

Lemma binary_round_aux_normal (s : bool) (N D mx ex : Z) (lx : location) :
  0 < D -> 0 <= N -> mx = N / D -> shr_record_of_loc mx lx = loc_of N D ->
  prec <= Zdigits2 mx ->
  emin prec emax <= Zdigits2 mx + ex - prec ->
  Zdigits2 mx + ex - prec + 1 <= emax - prec ->
  exists m'' e'',
    binary_round_aux prec emax s mx ex lx = S754_finite s m'' e'' /\
    2 ^ (prec - 1) <= Z.pos m'' < 2 ^ prec /\
    (e'' = ex + (Zdigits2 mx - prec) \/ e'' = ex + (Zdigits2 mx - prec) + 1) /\
    Z.pos m'' * 2 ^ (e'' - (ex + (Zdigits2 mx - prec)))
    = rne N (D * 2 ^ (Zdigits2 mx - prec)).
Proof.
  intros HD HN Hmx Hloc Hd Hmin Hmax.
  set (d := Zdigits2 mx) in *. set (n := d - prec) in *.
  assert (Hmxpos : 0 < mx).
  { destruct mx as [|p|p]; [subst d; simpl in Hd; lia|lia|].
    pose proof (Z.div_pos N D HN HD). lia. }
  assert (Hdb : 2 ^ (d - 1) <= mx < 2 ^ d).
  { destruct mx as [|p|p]; try lia. apply Zdigits2_bounds. }
  assert (Hn : 0 <= n) by lia.
  assert (H2n : 0 < 2 ^ n) by (apply Z.pow_pos_nonneg; lia).
  (* the first shift *)
  assert (S1 : shr_fexp prec emax mx ex lx = (loc_of N (D * 2 ^ n), ex + n)).
  { unfold shr_fexp, fexp. std_names. fold d.
    replace (Z.max (d + ex - prec) (emin prec emax) - ex) with n by lia.
    rewrite Hloc. unfold shr. destruct n as [|p|p] eqn:En; [| |lia].
    - rewrite Z.pow_0_r, Z.mul_1_r, Z.add_0_r. reflexivity.
    - std_names. rewrite iter_pos_shr_1_loc by lia. reflexivity. }
  (* the mantissa after it *)
  set (m := N / (D * 2 ^ n)).
  assert (Hm : m = mx / 2 ^ n).
  { subst m. rewrite Hmx. symmetry. apply Z.div_div; lia. }
  assert (Hmb : 2 ^ (prec - 1) <= m < 2 ^ prec).
  { rewrite Hm. split.
    - apply Z.div_le_lower_bound; [lia|].
      rewrite <- Z.pow_add_r by lia. replace (n + (prec - 1)) with (d - 1) by lia. lia.
    - apply Z.div_lt_upper_bound; [lia|].
      rewrite <- Z.pow_add_r by lia. replace (n + prec) with d by lia. lia. }
  destruct (rne_spec N (D * 2 ^ n)) as [Hr1 Hr2]; [lia|nia|].
  fold m in Hr1. set (m1 := rne N (D * 2 ^ n)) in *.
  assert (H2p : 2 ^ prec = 2 * 2 ^ (prec - 1)).
  { rewrite <- Z.pow_succ_r by lia. f_equal. lia. }
  unfold binary_round_aux. rewrite S1. fold (rne N (D * 2 ^ n)). fold m1.
  destruct (Z.eq_dec m1 (2 ^ prec)) as [Hcarry|Hnocarry].
  - (* the rounding carried into a new digit *)
    assert (Hdig : Zdigits2 m1 = prec + 1).
    { apply Zdigits2_unique; [lia|]. replace (prec + 1 - 1) with prec by lia.
      rewrite Hcarry.
      assert (2 ^ (prec + 1) = 2 ^ prec * 2) by (rewrite Z.pow_add_r by lia; reflexivity).
      lia. }
    unfold shr_fexp, fexp. std_names. rewrite Hdig, loc_of_exact.
    replace (Z.max (prec + 1 + (ex + n) - prec) (emin prec emax) - (ex + n)) with 1 by lia.
    unfold shr. cbn [SpecFloat.iter_pos]. rewrite shr_1_loc by lia.
    unfold loc_of. cbn [shr_m]. rewrite Z.mul_1_r.
    assert (Hhalf : m1 / 2 = 2 ^ (prec - 1)).
    { rewrite Hcarry, H2p. rewrite Z.mul_comm. apply Z.div_mul. lia. }
    rewrite Hhalf.
    destruct (2 ^ (prec - 1)) as [|q|q] eqn:Eq; try lia.
    std_names.
    replace (ex + n + 1 <=? emax - prec) with true by (symmetry; apply Z.leb_le; lia).
    exists q, (ex + n + 1). repeat split; try lia.
    replace (ex + n + 1 - (ex + n)) with 1 by lia. lia.
  - assert (Hdig : Zdigits2 m1 = prec) by (apply Zdigits2_unique; lia).
    unfold shr_fexp, fexp. std_names. rewrite Hdig, loc_of_exact.
    replace (Z.max (prec + (ex + n) - prec) (emin prec emax) - (ex + n)) with 0 by lia.
    unfold shr. unfold loc_of. cbn [shr_m]. rewrite Z.div_1_r.
    destruct m1 as [|q|q] eqn:Eq; try lia.
    std_names.
    replace (ex + n <=? emax - prec) with true by (symmetry; apply Z.leb_le; lia).
    exists q, (ex + n). repeat split; try lia.
    rewrite Z.sub_diag. lia.
Qed.

End Round.




Lemma bpow_pos (e : Z) : (0 < bpow e)%R.
Proof. apply powerRZ_lt. lra. Qed.

Lemma bpow_add (a b : Z) : bpow (a + b) = (bpow a * bpow b)%R.
Proof. apply powerRZ_add. lra. Qed.

Lemma bpow_IZR (e : Z) : 0 <= e -> bpow e = IZR (2 ^ e).
Proof.
  intros He. unfold bpow. replace e with (Z.of_nat (Z.to_nat e)) by lia.
  rewrite <- pow_powerRZ, <- pow_IZR. reflexivity.
Qed.

Lemma bpow_le (a b : Z) : a <= b -> (bpow a <= bpow b)%R.
Proof.
  intros H. replace b with (a + (b - a)) at 1 by lia. rewrite bpow_add.
  rewrite (bpow_IZR (b - a)) by lia.
  assert (1 <= 2 ^ (b - a)) by (pose proof (Z.pow_pos_nonneg 2 (b - a)); lia).
  apply IZR_le in H0. pose proof (bpow_pos a). nra.
Qed.

Lemma bpow_lt (a b : Z) : a < b -> (bpow a < bpow b)%R.
Proof.
  intros H. replace b with (a + (b - a)) at 1 by lia. rewrite bpow_add.
  rewrite (bpow_IZR (b - a)) by lia.
  assert (2 <= 2 ^ (b - a)).
  { replace (b - a) with (Z.succ (b - a - 1)) by lia. rewrite Z.pow_succ_r by lia.
    pose proof (Z.pow_pos_nonneg 2 (b - a - 1)). lia. }
  apply IZR_le in H0. pose proof (bpow_pos a). nra.
Qed.

Lemma bpow_lt_inv (a b : Z) : (bpow a < bpow b)%R -> a < b.
Proof.
  intros H. destruct (Z.lt_ge_cases a b) as [Hlt|Hge]; [assumption|].
  apply bpow_le in Hge. lra.
Qed.

Lemma bpow_0 : bpow 0 = 1%R.
Proof. reflexivity. Qed.

Lemma bpow_opp (e : Z) : bpow (- e) = (/ bpow e)%R.
Proof.
  pose proof (bpow_pos e). apply Rmult_eq_reg_l with (bpow e); [|lra].
  rewrite <- bpow_add, Z.add_opp_diag_r, bpow_0. field. lra.
Qed.


Lemma F2R_digits (p : positive) (e : Z) :
  (bpow (Zdigits2 (Z.pos p) + e - 1) <= F2R (Z.pos p) e < bpow (Zdigits2 (Z.pos p) + e))%R.
Proof.
  pose proof (Zdigits2_bounds p) as [H1 H2].
  assert (Hd : 0 < Zdigits2 (Z.pos p)) by (simpl; lia).
  unfold F2R.
  replace (Zdigits2 (Z.pos p) + e - 1) with ((Zdigits2 (Z.pos p) - 1) + e) by lia.
  rewrite !bpow_add, (bpow_IZR (Zdigits2 (Z.pos p) - 1)), (bpow_IZR (Zdigits2 (Z.pos p)))
    by lia.
  apply IZR_le in H1. apply IZR_lt in H2. pose proof (bpow_pos e). nra.
Qed.

Lemma IZR_div_bounds (N D : Z) :
  0 < D ->
  (IZR (N / D) <= IZR N / IZR D < IZR (N / D) + 1)%R.
Proof.
  intros HD. pose proof (Z.div_mod N D ltac:(lia)) as E.
  pose proof (Z.mod_pos_bound N D HD) as [B1 B2].
  assert (HDr : (0 < IZR D)%R) by (apply IZR_lt; assumption).
  assert (EN : IZR N = (IZR D * IZR (N / D) + IZR (N mod D))%R).
  { rewrite <- mult_IZR, <- plus_IZR. f_equal. assumption. }
  apply IZR_le in B1. apply IZR_lt in B2.
  split.
  - apply Rmult_le_reg_r with (IZR D); [assumption|].
    unfold Rdiv. rewrite Rmult_assoc, Rinv_l by lra. lra.
  - apply Rmult_lt_reg_r with (IZR D); [assumption|].
    unfold Rdiv. rewrite Rmult_assoc, Rinv_l by lra. lra.
Qed.

Section RoundR.

Variables prec emax : Z.
Hypothesis Hprec : 0 < prec.

(** Rounding a positive real in the normal range: the result is a normal
    number within the relative error [2^-prec].  The real is [N/D * 2^ex],
    given by the integer part [mx] of [N/D] and the position [lx] of the
    rest. *)
Lemma round_correct (s : bool) (N D mx ex : Z) (lx : location) :
  0 < D -> 0 <= N -> mx = N / D -> shr_record_of_loc mx lx = loc_of N D ->
  prec <= Zdigits2 mx ->
  (bpow (emin prec emax + prec - 1) <= IZR N / IZR D * bpow ex)%R ->
  (IZR N / IZR D * bpow ex < bpow (emax - 1))%R ->
  exists m e,
    binary_round_aux prec emax s mx ex lx = S754_finite s m e /\
    (2 ^ (prec - 1) <= Z.pos m < 2 ^ prec /\ emin prec emax <= e <= emax - prec) /\
    (Rabs (F2R (Z.pos m) e - IZR N / IZR D * bpow ex)
     <= bpow (- prec) * (IZR N / IZR D * bpow ex))%R.
Proof.
  intros HD HN Hmx Hloc Hd Hlo Hhi.
  set (x := (IZR N / IZR D * bpow ex)%R) in *.
  set (d := Zdigits2 mx) in *.
  assert (Hmxpos : 0 < mx).
  { destruct mx as [|p|p]; [subst d; simpl in Hd; lia|lia|].
    pose proof (Z.div_pos N D HN HD). lia. }
  destruct mx as [|p|p] eqn:Emx; try lia.
  pose proof (F2R_digits p ex) as [F1 F2]. fold d in F1, F2.
  pose proof (IZR_div_bounds N D HD) as [Q1 Q2]. rewrite <- Hmx in Q1, Q2.
  pose proof (bpow_pos ex) as Hbe.
  assert (Hx1 : (F2R (Z.pos p) ex <= x)%R) by (unfold F2R, x; nra).
  assert (Hx2 : (x < bpow (d + ex))%R).
  { assert (IZR (Z.pos p) + 1 <= bpow d)%R.
    { pose proof (Zdigits2_bounds p) as [_ B]. fold d in B.
      rewrite bpow_IZR by lia. rewrite <- plus_IZR. apply IZR_le. lia. }
    rewrite bpow_add. unfold x. nra. }
  assert (Hmag1 : emin prec emax + prec - 1 < d + ex) by (apply bpow_lt_inv; lra).
  assert (Hmag2 : d + ex - 1 < emax - 1) by (apply bpow_lt_inv; lra).
  destruct (binary_round_aux_normal prec emax Hprec s N D (Z.pos p) ex lx)
    as (m & e & Hres & Hm & He & Hval); try assumption; fold d; try lia.
  fold d in He, Hval.
  set (n := d - prec) in *. set (e1 := ex + n) in *.
  assert (Hn : 0 <= n) by lia.
  assert (H2n : 0 < 2 ^ n) by (apply Z.pow_pos_nonneg; lia).
  destruct (rne_spec N (D * 2 ^ n)) as [_ Hr]; [lia|nia|].
  set (m1 := rne N (D * 2 ^ n)) in *.
  exists m, e. split; [assumption|]. split; [split; [assumption|lia]|].
  (* the value of the result *)
  assert (Hv : F2R (Z.pos m) e = (IZR m1 * bpow e1)%R).
  { unfold F2R. rewrite <- Hval, mult_IZR.
    replace e with ((e - e1) + e1) at 1 by lia.
    rewrite bpow_add, (bpow_IZR (e - e1)) by lia. ring. }
  (* the real in units of the last place *)
  assert (Hxn : x = (IZR N / IZR (D * 2 ^ n) * bpow e1)%R).
  { unfold x, e1. rewrite bpow_add, (bpow_IZR n), mult_IZR by lia.
    assert (0 < IZR D)%R by (apply IZR_lt; assumption).
    assert (0 < IZR (2 ^ n))%R by (apply IZR_lt; assumption).
    field. lra. }
  assert (HD' : (0 < IZR (D * 2 ^ n))%R) by (apply IZR_lt; nia).
  assert (Hhalf : (Rabs (IZR m1 - IZR N / IZR (D * 2 ^ n)) <= / 2)%R).
  { destruct Hr as [R1 R2]. apply IZR_le in R1, R2.
    rewrite opp_IZR in R1.
    assert (E : IZR (2 * (m1 * (D * 2 ^ n) - N))
                = (2 * (IZR m1 * IZR (D * 2 ^ n) - IZR N))%R)
      by (rewrite mult_IZR, minus_IZR, mult_IZR; reflexivity).
    rewrite E in R1, R2.
    set (K := IZR (D * 2 ^ n)) in *.
    apply Rabs_le. split; apply Rmult_le_reg_r with K; try assumption.
    - replace ((IZR m1 - IZR N / K) * K)%R with (IZR m1 * K - IZR N)%R by (field; lra).
      lra.
    - replace ((IZR m1 - IZR N / K) * K)%R with (IZR m1 * K - IZR N)%R by (field; lra).
      lra. }
  pose proof (bpow_pos e1) as Hbe1.
  rewrite Hv. rewrite Hxn at 1.
  replace (IZR m1 * bpow e1 - IZR N / IZR (D * 2 ^ n) * bpow e1)%R
    with ((IZR m1 - IZR N / IZR (D * 2 ^ n)) * bpow e1)%R by ring.
  rewrite Rabs_mult, (Rabs_pos_eq (bpow e1)) by lra.
  assert (Hulp : (bpow e1 = 2 * (bpow (- prec) * bpow (d + ex - 1)))%R).
  { rewrite <- bpow_add. replace (- prec + (d + ex - 1)) with (e1 - 1) by (unfold e1, n; lia).
    replace e1 with (1 + (e1 - 1)) at 1 by lia. rewrite bpow_add.
    change (bpow 1) with (2 * 1)%R. ring. }
  pose proof (bpow_pos (- prec)) as Hbp.
  pose proof (Rabs_pos (IZR m1 - IZR N / IZR (D * 2 ^ n))) as Hap.
  nra.
Qed.

End RoundR.

Lemma iter_xO_value (m k : positive) :
  Z.pos (Pos.iter xO m k) = Z.pos m * 2 ^ Z.pos k.
Proof.
  induction k as [|k IH] using Pos.peano_ind.
  - simpl. lia.
  - rewrite Pos.iter_succ, Pos2Z.inj_xO, IH, Pos2Z.inj_succ, Z.pow_succ_r by lia. ring.
Qed.

Lemma Zdigits2_shift (m : positive) (k : Z) :
  0 <= k -> Zdigits2 (Z.pos m * 2 ^ k) = Zdigits2 (Z.pos m) + k.
Proof.
  intros Hk. pose proof (Zdigits2_bounds m) as [B1 B2].
  assert (Hd : 0 < Zdigits2 (Z.pos m)) by (simpl; lia).
  assert (0 < 2 ^ k) by (apply Z.pow_pos_nonneg; lia).
  apply Zdigits2_unique; [lia|].
  replace (Zdigits2 (Z.pos m) + k - 1) with ((Zdigits2 (Z.pos m) - 1) + k) by lia.
  rewrite !Z.pow_add_r by lia. nia.
Qed.

Section Ops.

Variables prec emax : Z.
Hypothesis Hprec : 0 < prec.

Lemma binary_round_aux_exact (s : bool) (m : positive) (e : Z) :
  Zdigits2 (Z.pos m) = prec -> emin prec emax <= e -> e + 1 <= emax - prec ->
  binary_round_aux prec emax s (Z.pos m) e loc_Exact = S754_finite s m e.
Proof.
  intros Hd He1 He2.
  destruct (binary_round_aux_normal prec emax Hprec s (Z.pos m) 1 (Z.pos m) e loc_Exact)
    as (m' & e' & Hres & Hm & He & Hval); try lia.
  - symmetry. apply Z.div_1_r.
  - apply loc_of_exact.
  - rewrite Hres. rewrite Hd, Z.sub_diag, Z.add_0_r in He, Hval.
    rewrite Z.pow_0_r, Z.mul_1_r, rne_exact in Hval.
    pose proof (Zdigits2_bounds m) as [_ B]. rewrite Hd in B.
    assert (H2p : 2 ^ prec = 2 * 2 ^ (prec - 1)).
    { rewrite <- Z.pow_succ_r by lia. f_equal. lia. }
    destruct He as [-> | ->].
    + rewrite Z.sub_diag, Z.pow_0_r in Hval. f_equal. lia.
    + replace (e + 1 - e) with 1 in Hval by lia. change (2 ^ 1) with 2 in Hval. lia.
Qed.

(** Conversions: a number with at most [prec] digits is kept. *)
Lemma binary_round_exact (s : bool) (m : positive) (e : Z) :
  Zdigits2 (Z.pos m) <= prec ->
  emin prec emax <= Zdigits2 (Z.pos m) + e - prec ->
  Zdigits2 (Z.pos m) + e + 1 <= emax ->
  exists m' e',
    binary_round prec emax s m e = S754_finite s m' e' /\
    (2 ^ (prec - 1) <= Z.pos m' < 2 ^ prec /\ emin prec emax <= e' <= emax - prec) /\
    F2R (Z.pos m') e' = F2R (Z.pos m) e.
Proof.
  intros Hd He1 He2. set (d := Zdigits2 (Z.pos m)) in *.
  assert (Hdpos : 0 < d) by (subst d; simpl; lia).
  unfold binary_round, shl_align, fexp. std_names.
  change (Z.pos (digits2_pos m)) with d.
  replace (Z.max (d + e - prec) (emin prec emax) - e) with (d - prec) by lia.
  remember (d - prec) as n eqn:Ek. destruct n as [|k|k]; try lia.
  - replace (Z.max (d + e - prec) (emin prec emax)) with e by lia.
    rewrite binary_round_aux_exact by (fold d; lia).
    exists m, e. split; [reflexivity|]. split; [|reflexivity].
    pose proof (Zdigits2_bounds m) as B. fold d in B.
    replace d with prec in B by lia. lia.
  - std_names.
    assert (Hv : Z.pos (Pos.iter xO m k) = Z.pos m * 2 ^ Z.pos k) by apply iter_xO_value.
    assert (Hdk : Zdigits2 (Z.pos (Pos.iter xO m k)) = prec).
    { rewrite Hv, Zdigits2_shift by lia. fold d. lia. }
    replace (Z.max (d + e - prec) (emin prec emax)) with (e - Z.pos k) by lia.
    rewrite binary_round_aux_exact by lia.
    exists (Pos.iter xO m k), (e - Z.pos k). split; [reflexivity|]. split.
    + pose proof (Zdigits2_bounds (Pos.iter xO m k)) as B. rewrite Hdk in B. lia.
    + unfold F2R. rewrite Hv, mult_IZR.
      replace e with (Z.pos k + (e - Z.pos k)) at 2 by lia.
      rewrite bpow_add, (bpow_IZR (Z.pos k)) by lia. ring.
Qed.

(** Conversions: a longer number is rounded. *)
Lemma binary_round_correct (s : bool) (m : positive) (e : Z) :
  prec <= Zdigits2 (Z.pos m) ->
  (bpow (emin prec emax + prec - 1) <= F2R (Z.pos m) e)%R ->
  (F2R (Z.pos m) e < bpow (emax - 1))%R ->
  exists m' e',
    binary_round prec emax s m e = S754_finite s m' e' /\
    (2 ^ (prec - 1) <= Z.pos m' < 2 ^ prec /\ emin prec emax <= e' <= emax - prec) /\
    (Rabs (F2R (Z.pos m') e' - F2R (Z.pos m) e) <= bpow (- prec) * F2R (Z.pos m) e)%R.
Proof.
  intros Hd Hlo Hhi. set (d := Zdigits2 (Z.pos m)) in *.
  pose proof (F2R_digits m e) as [F1 F2]. fold d in F1, F2.
  assert (Hmag1 : emin prec emax + prec - 1 < d + e) by (apply bpow_lt_inv; lra).
  unfold binary_round, shl_align, fexp. std_names.
  change (Z.pos (digits2_pos m)) with d.
  replace (Z.max (d + e - prec) (emin prec emax) - e) with (d - prec) by lia.
  assert (Hx : F2R (Z.pos m) e = (IZR (Z.pos m) / IZR 1 * bpow e)%R)
    by (unfold F2R; field).
  rewrite Hx in *.
  remember (d - prec) as n eqn:Ek. destruct n as [|k|k]; try lia.
  - apply round_correct; try assumption; try lia.
    + symmetry. apply Z.div_1_r.
    + apply loc_of_exact.
  - apply round_correct; try assumption; try lia.
    + symmetry. apply Z.div_1_r.
    + apply loc_of_exact.
Qed.

End Ops.

Lemma shiftl_match (m s : Z) :
  0 < s ->
  match s with
  | 0 => m
  | Z.pos _ => Z.shiftl m s
  | Z.neg _ => 0
  end = m * 2 ^ s.
Proof.
  intros Hs. destruct s; try lia. apply Z.shiftl_mul_pow2. lia.
Qed.

Section Arith.

Variables prec emax : Z.
Hypothesis Hprec : 0 < prec.

Lemma normal_inv (x : spec_float) :
  normal prec emax x ->
  exists m e, x = S754_finite false m e /\
    2 ^ (prec - 1) <= Z.pos m < 2 ^ prec /\ emin prec emax <= e <= emax - prec.
Proof.
  destruct x as [s|s| |[] m e]; simpl; try tauto. intros H. exists m, e; auto.
Qed.

Lemma normal_digits (m : positive) :
  2 ^ (prec - 1) <= Z.pos m < 2 ^ prec -> Zdigits2 (Z.pos m) = prec.
Proof. intros H. apply Zdigits2_unique; assumption. Qed.

Lemma normal_pos (x : spec_float) : normal prec emax x -> (0 < SF2R x)%R.
Proof.
  intros (m & e & -> & _)%normal_inv. simpl. unfold F2R.
  apply Rmult_lt_0_compat; [apply IZR_lt; lia|apply bpow_pos].
Qed.

(** Multiplication of two normal numbers whose product is in the normal
    range. *)
Lemma SFmul_correct (x y : spec_float) :
  normal prec emax x -> normal prec emax y ->
  (bpow (emin prec emax + prec - 1) <= SF2R x * SF2R y)%R ->
  (SF2R x * SF2R y < bpow (emax - 1))%R ->
  exists z,
    SFmul prec emax x y = z /\ normal prec emax z /\
    (Rabs (SF2R z - SF2R x * SF2R y) <= bpow (- prec) * (SF2R x * SF2R y))%R.
Proof.
  intros (mx & ex & -> & Hmx & Hex)%normal_inv (my & ey & -> & Hmy & Hey)%normal_inv.
  cbn [SF2R]. intros Hlo Hhi.
  assert (Hx : (F2R (Z.pos mx) ex * F2R (Z.pos my) ey
                = IZR (Z.pos mx * Z.pos my) / IZR 1 * bpow (ex + ey))%R).
  { unfold F2R. rewrite mult_IZR, bpow_add. field. }
  rewrite Hx in *.
  destruct (round_correct prec emax Hprec false (Z.pos mx * Z.pos my) 1
              (Z.pos mx * Z.pos my) (ex + ey) loc_Exact)
    as (m & e & Hres & Hn & Herr); try assumption; try lia.
  - symmetry. apply Z.div_1_r.
  - apply loc_of_exact.
  - assert (H2p : 2 ^ prec = 2 * 2 ^ (prec - 1)).
    { rewrite <- Z.pow_succ_r by lia. f_equal. lia. }
    assert (0 < 2 ^ (prec - 1)) by (apply Z.pow_pos_nonneg; lia).
    assert (HP : 2 ^ (prec - 1) <= Z.pos mx * Z.pos my) by nia.
    change (Z.pos mx * Z.pos my) with (Z.pos (mx * my)) in *.
    pose proof (Zdigits2_bounds (mx * my)) as [_ B].
    assert (H0 : 2 ^ (prec - 1) < 2 ^ Zdigits2 (Z.pos (mx * my))) by lia.
    apply Z.pow_lt_mono_r_iff in H0; [lia|lia|simpl; lia].
  - exists (S754_finite false m e). split; [|split; assumption].
    unfold SFmul. cbn [xorb]. std_names. exact Hres.
Qed.

(** Division of two normal numbers whose quotient is in the normal range. *)
Lemma SFdiv_correct (x y : spec_float) :
  normal prec emax x -> normal prec emax y ->
  (bpow (emin prec emax + prec) <= SF2R x / SF2R y)%R ->
  (SF2R x / SF2R y < bpow (emax - 1))%R ->
  exists z,
    SFdiv prec emax x y = z /\ normal prec emax z /\
    (Rabs (SF2R z - SF2R x / SF2R y) <= bpow (- prec) * (SF2R x / SF2R y))%R.
Proof.
  intros (mx & ex & -> & Hmx & Hex)%normal_inv (my & ey & -> & Hmy & Hey)%normal_inv.
  cbn [SF2R]. intros Hlo Hhi.
  assert (H2p : 2 ^ prec = 2 * 2 ^ (prec - 1)).
  { rewrite <- Z.pow_succ_r by lia. f_equal. lia. }
  assert (H2p1 : 0 < 2 ^ (prec - 1)) by (apply Z.pow_pos_nonneg; lia).
  pose proof (bpow_pos ex) as Hbx. pose proof (bpow_pos ey) as Hby.
  assert (Hmxr : (0 < IZR (Z.pos mx))%R) by (apply IZR_lt; lia).
  assert (Hmyr : (0 < IZR (Z.pos my))%R) by (apply IZR_lt; lia).
  (* the quotient of the mantissas is between 1/2 and 2 *)
  assert (Hq : (F2R (Z.pos mx) ex / F2R (Z.pos my) ey
                = IZR (Z.pos mx * 2 ^ prec) / IZR (Z.pos my) * bpow (ex - ey - prec))%R).
  { unfold F2R. rewrite mult_IZR, <- (bpow_IZR prec) by lia.
    replace ex with (prec + (ex - ey - prec) + ey) at 1 by lia.
    rewrite !bpow_add. field. pose proof (bpow_pos prec). lra. }
  assert (Hup : (F2R (Z.pos mx) ex / F2R (Z.pos my) ey < bpow (ex - ey + 1))%R).
  { unfold F2R. replace (ex - ey + 1) with (1 + ex + - ey) by lia.
    rewrite !bpow_add, bpow_opp. change (bpow 1) with (2 * 1)%R.
    apply Rmult_lt_reg_r with (IZR (Z.pos my) * bpow ey)%R; [nra|].
    field_simplify; [|lra|lra].
    assert (IZR (Z.pos mx) < 2 * IZR (Z.pos my))%R.
    { rewrite <- mult_IZR. apply IZR_lt. lia. }
    nra. }
  assert (Hnorm : emin prec emax <= ex - ey - prec).
  { assert (emin prec emax + prec < ex - ey + 1) by (apply bpow_lt_inv; lra). lia. }
  rewrite Hq in *.
  set (N := Z.pos mx * 2 ^ prec) in *.
  assert (HN : 0 < 2 ^ prec) by lia.
  assert (A1 : 0 < Z.pos my) by lia.
  assert (A2 : 0 <= N) by lia.
  assert (A4 : shr_record_of_loc (N / Z.pos my) (new_location (Z.pos my) (N mod Z.pos my))
               = loc_of N (Z.pos my)) by (apply loc_of_new_location; lia).
  assert (A5 : prec <= Zdigits2 (N / Z.pos my)).
  { assert (2 ^ (prec - 1) <= N / Z.pos my).
    { apply Z.div_le_lower_bound; [lia|]. subst N. nia. }
    assert (0 < N / Z.pos my) by lia.
    destruct (N / Z.pos my) as [|q|q] eqn:Eq; try lia.
    pose proof (Zdigits2_bounds q) as [_ B].
    assert (H1 : 2 ^ (prec - 1) < 2 ^ Zdigits2 (Z.pos q)) by lia.
    apply Z.pow_lt_mono_r_iff in H1; [lia|lia|simpl; lia]. }
  assert (A6 : (bpow (emin prec emax + prec - 1)
                <= IZR N / IZR (Z.pos my) * bpow (ex - ey - prec))%R).
  { pose proof (bpow_le (emin prec emax + prec - 1) (emin prec emax + prec) ltac:(lia)).
    lra. }
  destruct (round_correct prec emax Hprec false N (Z.pos my) (N / Z.pos my)
              (ex - ey - prec) (new_location (Z.pos my) (N mod Z.pos my))
              A1 A2 eq_refl A4 A5 A6 Hhi)
    as (m & e & Hres & Hn & Herr).
  - exists (S754_finite false m e). split; [|split; assumption].
    unfold SFdiv, SFdiv_core_binary. cbn [xorb]. std_names.
    rewrite !normal_digits by assumption.
    unfold fexp. std_names.
    replace (Z.min (Z.max (prec + ex - (prec + ey) - prec) (emin prec emax)) (ex - ey))
      with (ex - ey - prec) by lia.
    replace (ex - ey - (ex - ey - prec)) with prec by lia.
    rewrite shiftl_match by lia.
    unfold Z.div, Z.modulo in Hres. subst N.
    destruct (Z.div_eucl (Z.pos mx * 2 ^ prec) (Z.pos my)) as [q r]. exact Hres.
Qed.

(** Comparison of two normal numbers. *)
Lemma SFltb_correct (x y : spec_float) :
  normal prec emax x -> normal prec emax y ->
  SFltb x y = true <-> (SF2R x < SF2R y)%R.
Proof.
  intros (mx & ex & -> & Hmx & Hex)%normal_inv (my & ey & -> & Hmy & Hey)%normal_inv.
  unfold SFltb. cbn [SFcompare SF2R]. std_names.
  assert (H2p : 2 ^ prec = 2 * 2 ^ (prec - 1)).
  { rewrite <- Z.pow_succ_r by lia. f_equal. lia. }
  assert (Hlt : forall m1 e1 m2 e2,
             2 ^ (prec - 1) <= Z.pos m1 < 2 ^ prec ->
             2 ^ (prec - 1) <= Z.pos m2 < 2 ^ prec ->
             e1 < e2 -> (F2R (Z.pos m1) e1 < F2R (Z.pos m2) e2)%R).
  { intros m1 e1 m2 e2 H1 H2 He. unfold F2R.
    replace e2 with ((e2 - e1) + e1) by lia. rewrite bpow_add, (bpow_IZR (e2 - e1)) by lia.
    rewrite <- Rmult_assoc, <- mult_IZR.
    apply Rmult_lt_compat_r; [apply bpow_pos|]. apply IZR_lt.
    assert (2 <= 2 ^ (e2 - e1)).
    { replace (e2 - e1) with (Z.succ (e2 - e1 - 1)) by lia. rewrite Z.pow_succ_r by lia.
      pose proof (Z.pow_pos_nonneg 2 (e2 - e1 - 1)). lia. }
    nia. }
  destruct (Z.compare_spec ex ey) as [E|E|E].
  - subst ey. change (Pos.compare_cont Eq mx my) with (Pos.compare mx my).
    rewrite Pos2Z.inj_compare. unfold F2R. pose proof (bpow_pos ex).
    destruct (Z.compare_spec (Z.pos mx) (Z.pos my)) as [C|C|C]; split; try (intros; discriminate); try (intros; reflexivity).
    + rewrite C. lra.
    + intros _. apply IZR_lt in C. nra.
    + apply IZR_lt in C. nra.
  - split; [intros _; apply Hlt; assumption|reflexivity].
  - split; [discriminate|]. pose proof (Hlt my ey mx ex Hmy Hmx E). lra.
Qed.

End Arith.

(** ** The arithmetic of thumbnail_params *)
Lemma digits_below (p : positive) (k : Z) :
  0 <= k -> Z.pos p < 2 ^ k -> Zdigits2 (Z.pos p) <= k.
Proof.
  intros Hk Ht. pose proof (Zdigits2_bounds p) as [B _].
  assert (H1 : 2 ^ (Zdigits2 (Z.pos p) - 1) < 2 ^ k) by lia.
  apply Z.pow_lt_mono_r_iff in H1; lia.
Qed.

(** [(float)n] is exact below [2^24]. *)
Lemma of_size_t_exact (n : Z) :
  1 <= n < 2 ^ 24 ->
  normal 24 128 (F32.of_size_t n) /\ SF2R (F32.of_size_t n) = IZR n.
Proof.
  intros Hn. destruct n as [|p|p]; try lia.
  unfold F32.of_size_t, F32.prec, F32.emax, binary_normalize.
  pose proof (digits_below p 24 ltac:(lia) ltac:(lia)) as Hd.
  assert (0 < Zdigits2 (Z.pos p)) by (simpl; lia).
  destruct (binary_round_exact 24 128 ltac:(lia) false p 0) as (m & e & -> & Hnorm & Hv);
    try (change (emin 24 128) with (-149); lia).
  split; [exact Hnorm|].
  cbn [SF2R]. rewrite Hv. unfold F2R. rewrite bpow_0. ring.
Qed.

(** The promotion of a [float] to [double] is exact. *)
Lemma of_float_exact (x : spec_float) :
  normal 24 128 x ->
  normal 53 1024 (F64.of_float x) /\ SF2R (F64.of_float x) = SF2R x.
Proof.
  intros (m & e & -> & Hm & He)%(normal_inv 24 128).
  change (emin 24 128) with (-149) in He.
  assert (Hd : Zdigits2 (Z.pos m) = 24) by (apply Zdigits2_unique; lia).
  unfold F64.of_float, F64.prec, F64.emax.
  destruct (binary_round_exact 53 1024 ltac:(lia) false m e) as (m' & e' & -> & Hnorm & Hv);
    try (change (emin 53 1024) with (-1074); lia).
  split; [exact Hnorm|]. cbn [SF2R]. exact Hv.
Qed.

Lemma bpow_neg (k : positive) : bpow (Z.neg k) = (/ IZR (2 ^ Z.pos k))%R.
Proof.
  change (Z.neg k) with (- Z.pos k). rewrite bpow_opp, bpow_IZR by lia. reflexivity.
Qed.

Lemma one_normal : normal 53 1024 F64.one /\ SF2R F64.one = 1%R.
Proof.
  change F64.one with (S754_finite false 4503599627370496 (-52)).
  split.
  - cbn [normal]. change (emin 53 1024) with (-1074).
    change (2 ^ (53 - 1)) with 4503599627370496.
    change (2 ^ 53) with 9007199254740992. lia.
  - cbn [SF2R]. unfold F2R. rewrite bpow_neg.
    change (2 ^ 52) with 4503599627370496. field.
Qed.


Lemma u32_val : u32 = (/ 16777216)%R.
Proof. unfold u32. rewrite bpow_neg. reflexivity. Qed.

Lemma u64_val : u64 = (/ 9007199254740992)%R.
Proof. unfold u64. rewrite bpow_neg. reflexivity. Qed.

(** An error bound as an interval. *)
Lemma Rabs_interval (v x u : R) :
  (Rabs (v - x) <= u * x)%R -> (x * (1 - u) <= v <= x * (1 + u))%R.
Proof.
  intros Ht. unfold Rabs in Ht. destruct (Rcase_abs (v - x)); lra.
Qed.


Lemma below_pow30 (x : R) : (x < 1073741824)%R -> (x < bpow 127)%R.
Proof.
  intros Ht. apply Rlt_le_trans with (bpow 30); [|apply bpow_le; lia].
  rewrite (bpow_IZR 30) by lia. exact Ht.
Qed.

Lemma below_pow60 (x : R) : (x < 1152921504606846976)%R -> (x < bpow 127)%R.
Proof.
  intros Ht. apply Rlt_le_trans with (bpow 60); [|apply bpow_le; lia].
  rewrite (bpow_IZR 60) by lia. exact Ht.
Qed.

Lemma above_pow30 (x : R) (k : Z) :
  k <= -30 -> (/ 1073741824 <= x)%R -> (bpow k <= x)%R.
Proof.
  intros Hk Ht. apply Rle_trans with (bpow (-30)); [apply bpow_le; lia|].
  rewrite bpow_neg. exact Ht.
Qed.

Lemma IZR_bounds (n lo hi : Z) : lo <= n < hi -> (IZR lo <= IZR n <= IZR hi - 1)%R.
Proof.
  intros [H1 H2]. split; [apply IZR_le; assumption|].
  rewrite <- minus_IZR. apply IZR_le. lia.
Qed.

Lemma ratio_bounds (a b : R) :
  (1 <= a <= 16777215)%R -> (1 <= b <= 16777215)%R ->
  (/ 16777215 <= a / b <= 16777215)%R.
Proof.
  intros Ha Hb. assert (Hb0 : (0 < b)%R) by lra.
  split.
  - apply Rmult_le_reg_r with b; [exact Hb0|].
    unfold Rdiv. rewrite Rmult_assoc, Rinv_l by lra. lra.
  - apply Rmult_le_reg_r with b; [exact Hb0|].
    unfold Rdiv. rewrite Rmult_assoc, Rinv_l by lra. nra.
Qed.

(** The factor computed for a dimension: a normal number close to
    [size/dim]. *)
Lemma scale_factor_correct (dim size : Z) :
  1 <= dim < 2 ^ 24 -> 1 <= size < 2 ^ 24 ->
  normal 24 128 (scale_factor dim size) /\
  (IZR size / IZR dim * factor_lo <= SF2R (scale_factor dim size)
   <= IZR size / IZR dim * factor_hi)%R.
Proof.
  intros Hd Hs. unfold scale_factor.
  destruct (of_size_t_exact dim Hd) as [NW VW].
  destruct (of_size_t_exact size Hs) as [NS VS].
  pose proof (IZR_bounds dim 1 (2 ^ 24) Hd) as BD.
  pose proof (IZR_bounds size 1 (2 ^ 24) Hs) as BS.
  change (IZR (2 ^ 24) - 1)%R with (16777216 - 1)%R in BD, BS.
  assert (BD' : (1 <= IZR dim <= 16777215)%R) by lra.
  assert (BS' : (1 <= IZR size <= 16777215)%R) by lra.
  pose proof (ratio_bounds _ _ BD' BS') as BX.
  pose proof (ratio_bounds _ _ BS' BD') as BY.
  set (X := (IZR dim / IZR size)%R) in *.
  set (Y := (IZR size / IZR dim)%R) in *.
  assert (HXY : (/ X = Y)%R).
  { unfold X, Y. field. lra. }
  (* the quotient, in single precision *)
  destruct (SFdiv_correct 24 128 ltac:(lia) _ _ NW NS) as (q & Eq & Nq & Hq).
  { rewrite VW, VS. fold X. apply above_pow30; [change (emin 24 128) with (-149); lia|lra]. }
  { rewrite VW, VS. fold X. apply below_pow30. lra. }
  rewrite VW, VS in Hq. fold X in Hq. apply Rabs_interval in Hq.
  change (bpow (- (24))) with u32 in Hq. rewrite u32_val in Hq.
  change (F32.div (F32.of_size_t dim) (F32.of_size_t size))
    with (SFdiv 24 128 (F32.of_size_t dim) (F32.of_size_t size)).
  rewrite Eq.
  (* promoted to double *)
  destruct (of_float_exact q Nq) as [Nqd Vqd].
  destruct one_normal as [N1 V1].
  assert (Hq0 : (0 < SF2R q)%R) by nra.
  assert (Hinv : (Y * / (1 + / 16777216) <= / SF2R q <= Y * / (1 - / 16777216))%R).
  { rewrite <- HXY. rewrite <- !Rinv_mult.
    split; apply Rinv_le_contravar; nra. }
  (* the reciprocal, in double precision *)
  destruct (SFdiv_correct 53 1024 ltac:(lia) _ _ N1 Nqd) as (r & Er & Nr & Hr).
  { rewrite V1, Vqd. unfold Rdiv. rewrite Rmult_1_l.
    apply above_pow30; [change (emin 53 1024) with (-1074); lia|nra]. }
  { rewrite V1, Vqd. unfold Rdiv. rewrite Rmult_1_l.
    apply Rlt_le_trans with (bpow 30); [|apply bpow_le; lia].
    rewrite (bpow_IZR 30) by lia. change (2 ^ 30) with 1073741824. nra. }
  rewrite V1, Vqd in Hr. unfold Rdiv in Hr. rewrite Rmult_1_l in Hr.
  apply Rabs_interval in Hr. change (bpow (- (53))) with u64 in Hr. rewrite u64_val in Hr.
  change (F64.div F64.one (F64.of_float q))
    with (SFdiv 53 1024 F64.one (F64.of_float q)).
  rewrite Er.
  (* stored in a float *)
  destruct (normal_inv 53 1024 r Nr) as (mr & er & -> & Hmr & Her).
  cbn [SF2R] in Hr. unfold F32.of_double, F32.prec, F32.emax.
  destruct (binary_round_correct 24 128 ltac:(lia) false mr er) as (m & e & -> & Nm & Hm).
  { rewrite (normal_digits 53 ltac:(lia) mr Hmr). lia. }
  { apply above_pow30; [change (emin 24 128) with (-149); lia|nra]. }
  { apply below_pow30. nra. }
  apply Rabs_interval in Hm. change (bpow (- (24))) with u32 in Hm. rewrite u32_val in Hm.
  split; [exact Nm|]. cbn [SF2R].
  unfold factor_lo, factor_hi. rewrite u32_val, u64_val.
  set (Q := SF2R q) in *. set (R64 := F2R (Z.pos mr) er) in *.
  set (V := F2R (Z.pos m) e) in *.
  assert (HY : (0 < Y)%R) by lra.
  split.
  - apply Rle_trans with (R64 * (1 - / 16777216))%R; [|lra].
    apply Rle_trans with (/ Q * (1 - / 9007199254740992) * (1 - / 16777216))%R; [|nra].
    apply Rle_trans with (Y * / (1 + / 16777216) * (1 - / 9007199254740992)
                          * (1 - / 16777216))%R; [|nra].
    apply Req_le. field; lra.
  - apply Rle_trans with (R64 * (1 + / 16777216))%R; [lra|].
    apply Rle_trans with (/ Q * (1 + / 9007199254740992) * (1 + / 16777216))%R; [nra|].
    apply Rle_trans with (Y * / (1 - / 16777216) * (1 + / 9007199254740992)
                          * (1 + / 16777216))%R; [nra|].
    apply Req_le. field; lra.
Qed.

(** The conversion to [size_t] drops the fraction. *)
Lemma to_size_t_floor (m : positive) (e : Z) :
  (F2R (Z.pos m) e < 18446744073709551616)%R ->
  exists z,
    F32.to_size_t (S754_finite false m e) = Some z /\ 0 <= z /\
    (IZR z <= F2R (Z.pos m) e < IZR z + 1)%R.
Proof.
  intros Hlt. unfold F32.to_size_t, SIZE_MAX.
  destruct (Z.leb_spec 0 e) as [He|He].
  - assert (Hv : F2R (Z.pos m) e = IZR (Z.pos m * 2 ^ e)).
    { unfold F2R. rewrite mult_IZR, bpow_IZR by lia. reflexivity. }
    rewrite Hv in Hlt. apply lt_IZR in Hlt.
    assert (0 < 2 ^ e) by (apply Z.pow_pos_nonneg; lia).
    replace (Z.pos m * 2 ^ e <=? 2 ^ 64 - 1) with true
      by (symmetry; apply Z.leb_le; change (2 ^ 64) with 18446744073709551616; lia).
    exists (Z.pos m * 2 ^ e). split; [reflexivity|]. split; [nia|].
    rewrite Hv. lra.
  - assert (H2 : 0 < 2 ^ (- e)) by (apply Z.pow_pos_nonneg; lia).
    assert (Hv : F2R (Z.pos m) e = (IZR (Z.pos m) / IZR (2 ^ (- e)))%R).
    { unfold F2R. replace e with (- (- e)) at 1 by lia.
      rewrite bpow_opp, bpow_IZR by lia. reflexivity. }
    pose proof (IZR_div_bounds (Z.pos m) (2 ^ (- e)) H2) as [B1 B2].
    rewrite <- Hv in B1, B2.
    assert (Hz : 0 <= Z.pos m / 2 ^ (- e)) by (apply Z.div_pos; lia).
    assert (Hmax : Z.pos m / 2 ^ (- e) < 18446744073709551616).
    { apply lt_IZR. lra. }
    replace (Z.pos m / 2 ^ (- e) <=? 2 ^ 64 - 1) with true
      by (symmetry; apply Z.leb_le; change (2 ^ 64) with 18446744073709551616; lia).
    exists (Z.pos m / 2 ^ (- e)). split; [reflexivity|]. split; [exact Hz|]. lra.
Qed.

(** A scaled dimension: the product is rounded to a float and the fraction
    is dropped. *)
Lemma scaled_correct (sc : spec_float) (dim : Z) :
  normal 24 128 sc -> 1 <= dim < 2 ^ 24 ->
  (/ 1073741824 <= SF2R sc * IZR dim)%R ->
  (SF2R sc * IZR dim < 1152921504606846976)%R ->
  exists z v,
    scaled sc dim = Some z /\ 0 <= z /\
    (IZR z <= v < IZR z + 1)%R /\
    (SF2R sc * IZR dim * (1 - / 16777216) <= v
     <= SF2R sc * IZR dim * (1 + / 16777216))%R.
Proof.
  intros Nsc Hd Hlo Hhi. unfold scaled.
  destruct (of_size_t_exact dim Hd) as [NW VW].
  destruct (SFmul_correct 24 128 ltac:(lia) _ _ Nsc NW) as (t & Et & Nt & Ht).
  { rewrite VW. apply above_pow30; [change (emin 24 128) with (-149); lia|exact Hlo]. }
  { rewrite VW. apply below_pow60. exact Hhi. }
  rewrite VW in Ht. apply Rabs_interval in Ht.
  change (bpow (- (24))) with u32 in Ht. rewrite u32_val in Ht.
  change (F32.mul sc (F32.of_size_t dim)) with (SFmul 24 128 sc (F32.of_size_t dim)).
  rewrite Et.
  destruct (normal_inv 24 128 t Nt) as (m & e & -> & _ & _). cbn [SF2R] in Ht.
  destruct (to_size_t_floor m e) as (z & Ez & Hz & Hfl); [lra|].
  exists z, (F2R (Z.pos m) e). auto.
Qed.

(** From a real within one of [size] to its integer part. *)
Lemma floor_near (z size : Z) (v : R) :
  (IZR z <= v < IZR z + 1)%R -> (IZR size - 1 < v < IZR size + 1)%R ->
  size - 1 <= z <= size.
Proof.
  intros [H1 H2] [H3 H4].
  assert (A : (IZR z < IZR (size + 1))%R) by (rewrite plus_IZR; lra).
  assert (B : (IZR (size - 2) < IZR z)%R) by (rewrite minus_IZR; lra).
  apply lt_IZR in A, B. lia.
Qed.

Lemma floor_below (z size : Z) (v : R) :
  (IZR z <= v < IZR z + 1)%R -> (v < IZR size + 1)%R -> z <= size.
Proof.
  intros [H1 H2] H4.
  assert (A : (IZR z < IZR (size + 1))%R) by (rewrite plus_IZR; lra).
  apply lt_IZR in A. lia.
Qed.

(** The factor times its own dimension is close to [size]. *)
Lemma own_product (dim size : Z) :
  1 <= dim < 2 ^ 24 -> 1 <= size < 2 ^ 24 ->
  normal 24 128 (scale_factor dim size) /\
  (IZR size * (1 - 5 / 2 * / 16777216)
   <= SF2R (scale_factor dim size) * IZR dim
   <= IZR size * (1 + 5 / 2 * / 16777216))%R /\
  (/ 33554432 <= SF2R (scale_factor dim size) <= 33554432)%R.
Proof.
  intros Hd Hs.
  destruct (scale_factor_correct dim size Hd Hs) as [Nr Br].
  split; [exact Nr|].
  unfold factor_lo, factor_hi in Br. rewrite u32_val, u64_val in Br.
  pose proof (IZR_bounds dim 1 (2 ^ 24) Hd) as BD.
  pose proof (IZR_bounds size 1 (2 ^ 24) Hs) as BS.
  change (IZR (2 ^ 24) - 1)%R with (16777216 - 1)%R in BD, BS.
  set (r := SF2R (scale_factor dim size)) in *.
  set (D := IZR dim) in *. set (Sz := IZR size) in *.
  set (a := ((1 - / 9007199254740992) * (1 - / 16777216) / (1 + / 16777216))%R) in *.
  set (b := ((1 + / 9007199254740992) * (1 + / 16777216) / (1 - / 16777216))%R) in *.
  assert (Ha : (1 - 5 / 2 * / 16777216 <= a)%R) by (unfold a; lra).
  assert (Hb : (b <= 1 + 5 / 2 * / 16777216)%R) by (unfold b; lra).
  assert (HD : (0 < D)%R) by lra.
  assert (HS : (0 < Sz)%R) by lra.
  assert (E1 : (Sz / D * a * D = Sz * a)%R) by (field; lra).
  assert (E2 : (Sz / D * b * D = Sz * b)%R) by (field; lra).
  destruct Br as [Br1 Br2].
  apply (Rmult_le_compat_r D) in Br1; [|lra].
  apply (Rmult_le_compat_r D) in Br2; [|lra].
  rewrite E1 in Br1. rewrite E2 in Br2.
  assert (La : (Sz * (1 - 5 / 2 * / 16777216) <= Sz * a)%R)
    by (apply Rmult_le_compat_l; lra).
  assert (Lb : (Sz * b <= Sz * (1 + 5 / 2 * / 16777216))%R)
    by (apply Rmult_le_compat_l; lra).
  split; [lra|].
  assert (HrD : (/ 2 <= r * D <= 33554432)%R) by lra.
  assert (Hr0 : (0 < r)%R).
  { apply Rmult_lt_reg_r with D; [exact HD|]. lra. }
  split.
  - apply Rmult_le_reg_r with D; [exact HD|].
    apply Rle_trans with (/ 2)%R; [|lra].
    apply Rle_trans with (/ 33554432 * 16777216)%R; [|lra].
    apply Rmult_le_compat_l; lra.
  - apply Rle_trans with (r * D)%R; [|lra].
    rewrite <- (Rmult_1_r r) at 1. apply Rmult_le_compat_l; lra.
Qed.

(** The scaled dimensions under the contain policy. *)
Lemma contain_dimensions (w h size : Z) :
  1 <= w < 2 ^ 24 -> 1 <= h < 2 ^ 24 -> 1 <= size <= 2 ^ 22 ->
  exists tw th,
    scaled (min (scale_factor w size) (scale_factor h size)) w = Some tw /\
    scaled (min (scale_factor w size) (scale_factor h size)) h = Some th /\
    0 <= tw <= size /\ 0 <= th <= size /\
    (size - 1 <= tw \/ size - 1 <= th).
Proof.
  intros Hw Hh Hs.
  destruct (own_product w size Hw ltac:(lia)) as (Nw & Pw & Lw & _).
  destruct (own_product h size Hh ltac:(lia)) as (Nh & Ph & Lh & _).
  pose proof (IZR_bounds w 1 (2 ^ 24) Hw) as BW.
  pose proof (IZR_bounds h 1 (2 ^ 24) Hh) as BH.
  change (IZR (2 ^ 24) - 1)%R with (16777216 - 1)%R in BW, BH.
  assert (BS : (1 <= IZR size <= 4194304)%R).
  { split; apply IZR_le; lia. }
  set (rw := SF2R (scale_factor w size)) in *.
  set (rh := SF2R (scale_factor h size)) in *.
  set (Wd := IZR w) in *. set (Ht := IZR h) in *. set (Sz := IZR size) in *.
  unfold min, F32.ltb.
  destruct (SFltb (scale_factor w size) (scale_factor h size)) eqn:E.
  - (* the width decides *)
    apply (SFltb_correct 24 128 ltac:(lia) _ _ Nw Nh) in E. fold rw rh in E.
    assert (C1 : (rw * Ht <= rh * Ht)%R) by (apply Rmult_le_compat_r; lra).
    assert (C2 : (rw * 1 <= rw * Ht)%R) by (apply Rmult_le_compat_l; lra).
    destruct (scaled_correct _ w Nw Hw) as (tw & vw & Ew & Hw0 & Fw & Vw);
      fold rw Wd; [lra|lra|].
    destruct (scaled_correct _ h Nw Hh) as (th & vh & Eh & Hh0 & Fh & Vh);
      fold rw Ht; [lra|lra|].
    fold rw Wd in Vw. fold rw Ht in Vh.
    exists tw, th. split; [exact Ew|]. split; [exact Eh|].
    assert (Tw : size - 1 <= tw <= size).
    { apply (floor_near tw size vw Fw). fold Sz. lra. }
    assert (Th : th <= size).
    { apply (floor_below th size vh Fh). fold Sz. lra. }
    lia.
  - (* the height decides *)
    assert (E' : (rh <= rw)%R).
    { destruct (Rle_or_lt rh rw) as [C|C]; [exact C|].
      apply (SFltb_correct 24 128 ltac:(lia) _ _ Nw Nh) in C. congruence. }
    assert (C1 : (rh * Wd <= rw * Wd)%R) by (apply Rmult_le_compat_r; lra).
    assert (C2 : (rh * 1 <= rh * Wd)%R) by (apply Rmult_le_compat_l; lra).
    destruct (scaled_correct _ w Nh Hw) as (tw & vw & Ew & Hw0 & Fw & Vw);
      fold rh Wd; [lra|lra|].
    destruct (scaled_correct _ h Nh Hh) as (th & vh & Eh & Hh0 & Fh & Vh);
      fold rh Ht; [lra|lra|].
    fold rh Wd in Vw. fold rh Ht in Vh.
    exists tw, th. split; [exact Ew|]. split; [exact Eh|].
    assert (Th : size - 1 <= th <= size).
    { apply (floor_near th size vh Fh). fold Sz. lra. }
    assert (Tw : tw <= size).
    { apply (floor_below tw size vw Fw). fold Sz. lra. }
    lia.
Qed.


(** Size zero: both factors are zero and so are the scaled dimensions. *)
Lemma scale_factor_zero (dim : Z) :
  1 <= dim < 2 ^ 24 -> scale_factor dim 0 = S754_zero false.
Proof.
  intros Hd. destruct (of_size_t_exact dim Hd) as [NW _].
  apply (normal_inv 24 128) in NW as (m & e & E & _).
  unfold scale_factor. rewrite E. reflexivity.
Qed.

Lemma scaled_zero (dim : Z) :
  1 <= dim < 2 ^ 24 -> scaled (S754_zero false) dim = Some 0.
Proof.
  intros Hd. destruct (of_size_t_exact dim Hd) as [NW _].
  apply (normal_inv 24 128) in NW as (m & e & E & _).
  unfold scaled. rewrite E. reflexivity.
Qed.

(** ** The parameter calculator *)

Lemma to_size_t_range (x : spec_float) (z : Z) :
  F32.to_size_t x = Some z -> is_size_t z.
Proof.
  unfold F32.to_size_t, is_size_t. destruct x as [s|s| |s m e]; try done.
  - intros [= <-]. unfold SIZE_MAX. lia.
  - set (t := if 0 <=? e then _ else _).
    assert (0 <= t).
    { subst t. destruct (0 <=? e) eqn:E.
      - apply Z.leb_le in E. apply Z.mul_nonneg_nonneg; [lia|].
        apply Z.pow_nonneg. lia.
      - apply Z.div_pos; [lia|]. apply Z.pow_pos_nonneg; lia. }
    destruct s.
    + destruct (t =? 0); [|done]. intros [= <-]. unfold SIZE_MAX. lia.
    + destruct (t <=? SIZE_MAX) eqn:E; [|done]. apply Z.leb_le in E.
      intros [= <-]. lia.
Qed.

Lemma signed_difference (a b : Z) :
  is_size_t a -> is_size_t b ->
  to_ssize_t (wrap64 (a / 2 - b / 2)) = a / 2 - b / 2.
Proof.
  unfold is_size_t, SIZE_MAX, to_ssize_t, wrap64. intros Ha Hb.
  assert (0 <= a / 2 < 2 ^ 63) by (split; [apply Z.div_pos|apply Z.div_lt_upper_bound]; lia).
  assert (0 <= b / 2 < 2 ^ 63) by (split; [apply Z.div_pos|apply Z.div_lt_upper_bound]; lia).
  rewrite Z.mod_mod by lia.
  destruct (Z.lt_ge_cases (a / 2 - b / 2) 0) as [Hneg|Hpos].
  - replace ((a / 2 - b / 2) mod 2 ^ 64) with (a / 2 - b / 2 + 2 ^ 64).
    + destruct (_ <? _) eqn:E; [apply Z.ltb_lt in E|]; lia.
    + symmetry. rewrite <- (Z.mod_add _ 1) by lia. apply Z.mod_small. lia.
  - rewrite Z.mod_small by lia.
    destruct (_ <? _) eqn:E; [|apply Z.ltb_ge in E]; lia.
Qed.

Lemma min_zero : min (S754_zero false) (S754_zero false) = S754_zero false.
Proof. reflexivity. Qed.

Lemma max_zero : max (S754_zero false) (S754_zero false) = S754_zero false.
Proof. reflexivity. Qed.


(** C4, as the code has it.  Without [fill] the scale is the smaller of the
    two factors, the canvas is each source dimension times the scale with
    the fraction dropped, and both offsets are zero; a 4000 by 2000 source
    at size 256 gets the canvas 256 by 128.  For dimensions below [2^24]
    and a size of at most [2^22] the parameters are produced, neither
    dimension of the canvas exceeds the size and one of them is the size or
    one less. *)
Theorem thumbnail_params_contain (img : image) (size : Z) (aa : bool) :
  0 < width (frame0 img) <= SIZE_MAX -> 0 < height (frame0 img) <= SIZE_MAX ->
  is_size_t size ->
  (forall p,
     thumbnail_params img size false aa = Some p ->
     scale p = min (scale_factor (width (frame0 img)) size)
                   (scale_factor (height (frame0 img)) size) /\
     scaled (scale p) (width (frame0 img)) = Some (thumb_width p) /\
     scaled (scale p) (height (frame0 img)) = Some (thumb_height p) /\
     offset_x p = 0 /\ offset_y p = 0 /\ fill p = false /\ antialias p = aa) /\
  (width (frame0 img) < 2 ^ 24 -> height (frame0 img) < 2 ^ 24 -> size <= 2 ^ 22 ->
   exists p,
     thumbnail_params img size false aa = Some p /\
     0 <= thumb_width p <= size /\ 0 <= thumb_height p <= size /\
     (size - 1 <= thumb_width p \/ size - 1 <= thumb_height p)) /\
  thumbnail_params (Image (Pixmap 4000 2000 None) false) 256 false aa
  = Some (Params 256 128 0 0 false aa (S754_finite false 8589935 (-27))).
Proof.
  intros Hw Hh Hs. split; [|split; [|by destruct aa; vm_compute]].
  - intros p H. unfold thumbnail_params in H. cbv zeta in H.
    destruct (scaled _ (width _)) as [sw|] eqn:Ew; [|done].
    destruct (scaled _ (height _)) as [sh|] eqn:Eh; [|done].
    injection H as <-.
    cbn [scale thumb_width thumb_height fill antialias offset_x offset_y].
    by rewrite Ew, Eh.
  - intros Hw24 Hh24 Hs22. unfold thumbnail_params. cbv zeta.
    destruct (Z.eq_dec size 0) as [->|Hne].
    + rewrite !scale_factor_zero, min_zero, !scaled_zero by lia.
      eexists. split; [reflexivity|]. simpl. lia.
    + destruct (contain_dimensions (width (frame0 img)) (height (frame0 img)) size)
        as (tw & th & -> & -> & Htw & Hth & Hone);
        [lia|lia|unfold is_size_t in Hs; lia|].
      eexists. split; [reflexivity|]. simpl. lia.
Qed.

(** ** The generator, with the value of the scale *)

(** [params->scale > 1.0] on a normal number is the comparison of its
    value with one. *)
Lemma enlarges_value (p : ThumbnailParams) :
  normal 24 128 (scale p) ->
  enlarges p = true <-> (1 < SF2R (scale p))%R.
Proof.
  intros N. destruct (of_float_exact (scale p) N) as [Nd Vd].
  destruct one_normal as [N1 V1].
  unfold enlarges, F64.ltb.
  rewrite (SFltb_correct 53 1024 ltac:(lia) _ _ N1 Nd), V1, Vd. reflexivity.
Qed.

Section GeneratorProperties.

Variable pixmap_scale :
  pixmap_scale_t -> pixmap -> pixmap -> Z -> Z -> spec_float -> bool -> world -> world.

(** C9.  The resampler is nearest-neighbour without antialiasing, and with
    it bicubic when the scale is above 1.0 and averaging when it is not,
    which for a normal scale means a value of at most 1.0.
    [thumbnail_create] asks for a destination of [thumb_width] by
    [thumb_height]; when that is allocated it hands it to the resampler
    chosen, with the offsets, the scale and the alpha flag, and reports
    success; when it is not, it reports failure and the resampler is not
    called. *)
Theorem thumbnail_create_scaler (w : world) (thumb : pixmap) (img : image)
    (p : ThumbnailParams) :
  (antialias p = false -> scaler_of p = pixmap_nearest) /\
  (antialias p = true -> SFltb F64.one (F64.of_float (scale p)) = true ->
   scaler_of p = pixmap_bicubic) /\
  (antialias p = true -> SFleb (F64.of_float (scale p)) F64.one = true ->
   scaler_of p = pixmap_average) /\
  (antialias p = true -> SFltb F64.one (F64.of_float (scale p)) = false ->
   scaler_of p = pixmap_average) /\
  (antialias p = true -> normal 24 128 (scale p) -> (1 < SF2R (scale p))%R ->
   scaler_of p = pixmap_bicubic) /\
  (antialias p = true -> normal 24 128 (scale p) -> (SF2R (scale p) <= 1)%R ->
   scaler_of p = pixmap_average) /\
  thumbnail_create pixmap_scale w thumb img p
  = match pixmap_create w thumb (thumb_width p) (thumb_height p) with
    | (w1, t1, true) =>
        (pixmap_scale (scaler_of p) (frame0 img) t1 (offset_x p) (offset_y p)
           (scale p) (alpha img) w1,
         t1, true)
    | (w1, t1, false) => (w1, t1, false)
    end /\
  (forall w1 t1,
     pixmap_create w thumb (thumb_width p) (thumb_height p) = (w1, t1, true) ->
     width t1 = thumb_width p /\ height t1 = thumb_height p /\
     exists a, data t1 = Some a /\ heap w !! a = None /\
       length <$> heap w1 !! a = Some (Z.to_nat (thumb_width p * thumb_height p))).
Proof.
  unfold scaler_of.
  split; [by intros ->|].
  split; [intros -> H; unfold enlarges, F64.ltb; by rewrite H|].
  split; [intros -> H; by rewrite enlarges_false_of_le|].
  split; [intros -> H; unfold enlarges, F64.ltb; by rewrite H|].
  split; [intros -> N H; apply (enlarges_value p N) in H; by rewrite H|].
  split.
  { intros -> N H. destruct (enlarges p) eqn:E; [|done].
    apply (enlarges_value p N) in E. lra. }
  split.
  { unfold thumbnail_create.
    by destruct (pixmap_create _ _ _ _) as [[wa ta] []]. }
  intros w1 t1 H. apply pixmap_create_true in H as (Hf & -> & -> & _).
  split; [done|]. split; [done|].
  eexists. split; [reflexivity|]. split; [exact Hf|].
  simpl. rewrite lookup_insert_eq. simpl. by rewrite length_replicate.
Qed.

End GeneratorProperties.

(** ** Instances *)

Lemma le_bytes_length (n : nat) (z : Z) : length (LP64.le_bytes n z) = n.
Proof. revert z. induction n as [|n IH]; intros z; simpl; [done|]. by rewrite IH. Qed.

Lemma LP64_params_bytes_length (p : ThumbnailParams) :
  length (LP64.params_bytes p) = LP64.sizeof_params.
Proof.
  unfold LP64.params_bytes. rewrite !length_app, !le_bytes_length. reflexivity.
Qed.

Lemma LP64_params_bytes_padded_length (a b : byte) (p : ThumbnailParams) :
  length (LP64.params_bytes_padded a b p) = LP64.sizeof_params.
Proof.
  unfold LP64.params_bytes_padded. rewrite !length_app, !le_bytes_length. reflexivity.
Qed.

Import Examples.

Abbreviation lp64_save := (thumbnail_save LP64.params_bytes).
Abbreviation lp64_load := (thumbnail_load LP64.sizeof_params LP64.params_bytes).

Lemma thumbnail_load_staleness_witness :
  (lp64_load (world_entry params0) blank source params0 []).2 = true.
Proof.
  apply (proj2 (thumbnail_load_staleness LP64.sizeof_params LP64.params_bytes
                  LP64_params_bytes_length)
           (world_entry params0) (world_entry params0) blank source cache params0 []
           2 1 5 99 pixels0).
  - vm_compute. reflexivity.
  - vm_compute. reflexivity.
  - vm_compute. reflexivity.
  - unfold is_size_t, SIZE_MAX. lia.
  - unfold is_size_t, SIZE_MAX. lia.
  - reflexivity.
  - lia.
  - simpl. lia.
  - lia.
Defined.

Lemma thumbnail_load_params_mismatch_witness :
  (lp64_load (world_entry params0) blank source params1 []).2 = false.
Proof.
  apply (thumbnail_load_params_mismatch LP64.sizeof_params LP64.params_bytes
           (world_entry params0) (world_entry params0) blank source cache params1 []
           (entry_bytes LP64.params_bytes 2 1 params0 pixels0)
           (LP64.params_bytes params0) 99).
  - vm_compute. reflexivity.
  - vm_compute. reflexivity.
  - vm_compute. reflexivity.
  - vm_compute. discriminate.
Defined.


(** The thumbnail of [world0] was saved with zeros in the padding of the
    parameters.  A load with the same object hits; a load with the same
    fields in an object whose padding holds other bytes misses. *)
Lemma thumbnail_round_trip_witness :
  (exists w3 a,
     lp64_load world1 blank source params0 [] = (w3, Pixmap 2 1 (Some a), true) /\
     heap w3 !! a = Some (opaque <$> pixels0)) /\
  (thumbnail_load LP64.sizeof_params (LP64.params_bytes_padded xaa x55)
     world1 blank source params0 []).2 = false.
Proof.
  split.
  - refine (proj1 (thumbnail_round_trip LP64.sizeof_params LP64.params_bytes
                     LP64.params_bytes world0 world1 thumb0 source params0 params0
                     pixels0 world1 blank [] 5 LP64_params_bytes_length
                     LP64_params_bytes_length _ _ _ _ _ _ _ _ _ _ _) _).
    + vm_compute. reflexivity.
    + unfold is_size_t, SIZE_MAX. simpl. lia.
    + unfold is_size_t, SIZE_MAX. simpl. lia.
    + simpl. lia.
    + vm_compute. reflexivity.
    + vm_compute. lia.
    + reflexivity.
    + reflexivity.
    + vm_compute. reflexivity.
    + simpl. lia.
    + vm_compute. discriminate.
    + reflexivity.
  - refine (proj2 (thumbnail_round_trip LP64.sizeof_params LP64.params_bytes
                     (LP64.params_bytes_padded xaa x55) world0 world1 thumb0 source
                     params0 params0 pixels0 world1 blank [] 5 LP64_params_bytes_length
                     (LP64_params_bytes_padded_length xaa x55) _ _ _ _ _ _ _ _ _ _ _) _).
    + vm_compute. reflexivity.
    + unfold is_size_t, SIZE_MAX. simpl. lia.
    + unfold is_size_t, SIZE_MAX. simpl. lia.
    + simpl. lia.
    + vm_compute. reflexivity.
    + vm_compute. lia.
    + reflexivity.
    + reflexivity.
    + vm_compute. reflexivity.
    + simpl. lia.
    + vm_compute. discriminate.
    + vm_compute. discriminate.
Defined.

(** C3 as stated fails on a pixel that is not opaque: the first pixel
    saved is [0x80112233], the one loaded is [0xff112233]. *)
Lemma thumbnail_round_trip_drops_alpha :
  lp64_save world0 thumb0 source params0 = Some (world1, true) /\
  (lp64_load world1 blank source params0 []).2 = true /\
  heap world0 !! 1%positive = Some [0x80112233; 0xff445566] /\
  heap (lp64_load world1 blank source params0 []).1.1 !! 2%positive
  = Some [0xff112233; 0xff445566] /\
  data (lp64_load world1 blank source params0 []).1.2 = Some 2%positive.
Proof. vm_compute. repeat split; reflexivity. Qed.

Lemma thumbnail_save_result_witness :
  exists w' b,
    lp64_save world_full thumb0 source params0 = Some (w', b) /\
    (b = false <-> cache_file_opened world_full source = None) /\
    (forall w3 path,
       cache_file_opened world_full source = Some (w3, path) ->
       fs w' !! path
       = Some (File (take (space world_full)
                       (entry_bytes LP64.params_bytes (width thumb0) (height thumb0)
                          params0 pixels0))
                 (now world_full))).
Proof.
  apply (thumbnail_save_result LP64.params_bytes world_full thumb0 source params0 pixels0).
  - vm_compute. reflexivity.
  - vm_compute. reflexivity.
Defined.

(** C7 as stated fails on a full device: nothing of the entry reaches the
    file and the save reports success all the same. *)
Lemma thumbnail_save_unchecked_writes :
  exists w',
    lp64_save world_full thumb0 source params0 = Some (w', true) /\
    fs w' !! cache = Some (File [] 10).
Proof. eexists. split; vm_compute; reflexivity. Qed.



(** A load of the entry that stops four bytes before its end. *)
Lemma thumbnail_load_failure_releases_witness :
  fs (lp64_load MoreExamples.world_truncated blank source params0 []).1.1
  = fs MoreExamples.world_truncated /\
  heap (lp64_load MoreExamples.world_truncated blank source params0 []).1.1
  = heap MoreExamples.world_truncated /\
  mem (lp64_load MoreExamples.world_truncated blank source params0 []).1.1
  = mem MoreExamples.world_truncated /\
  open_files (lp64_load MoreExamples.world_truncated blank source params0 []).1.1
  = open_files MoreExamples.world_truncated /\
  ((lp64_load MoreExamples.world_truncated blank source params0 []).1.2 = blank \/
   exists path c tc,
     (get_thumb_path MoreExamples.world_truncated source).2 = Some path /\
     fs MoreExamples.world_truncated !! path = Some (File c tc) /\
     width (lp64_load MoreExamples.world_truncated blank source params0 []).1.2
     = width (fscanf_header c blank).1.2 /\
     height (lp64_load MoreExamples.world_truncated blank source params0 []).1.2
     = height (fscanf_header c blank).1.2 /\
     (data (lp64_load MoreExamples.world_truncated blank source params0 []).1.2
      = data blank \/
      (data (lp64_load MoreExamples.world_truncated blank source params0 []).1.2
       = Some (fresh (dom (heap MoreExamples.world_truncated))) /\
       heap (lp64_load MoreExamples.world_truncated blank source params0 []).1.1
         !! fresh (dom (heap MoreExamples.world_truncated)) = None))).
Proof.
  apply (thumbnail_load_failure_releases LP64.sizeof_params LP64.params_bytes
           MoreExamples.world_truncated _ blank _ source params0 []).
  vm_compute. reflexivity.
Defined.

(** C6 as stated fails on a corrupted header: the load reports a miss and
    the width and the height of the destination have been overwritten.  It
    fails on a payload that is too short as well: the destination is left
    with the dimensions of the header and with the address of a buffer
    that has been freed. *)
Lemma thumbnail_load_failure_modifies_pixmap :
  (lp64_load world_corrupt blank source params0 []).2 = false /\
  (lp64_load world_corrupt blank source params0 []).1.2 = Pixmap 7 9 None /\
  blank = Pixmap 0 0 None /\
  (lp64_load MoreExamples.world_truncated blank source params0 []).2 = false /\
  (lp64_load MoreExamples.world_truncated blank source params0 []).1.2
  = Pixmap 2 1 (Some 1%positive) /\
  heap (lp64_load MoreExamples.world_truncated blank source params0 []).1.1
    !! 1%positive = None.
Proof. vm_compute. repeat split; reflexivity. Qed.

(** A destination of 2 by 1 is allocated in [world0] and handed to the
    resampler; the scale of [params0] is below one, that of the last
    parameters is two. *)
Lemma thumbnail_create_scaler_witness :
  thumbnail_create MoreExamples.no_scale world0 blank MoreExamples.picture params0
  = (set_heap <[2%positive := [0; 0]]> 98 world0, Pixmap 2 1 (Some 2%positive), true) /\
  scaler_of params0 = pixmap_average /\
  scaler_of (Params 2 1 0 0 false false (scale params0)) = pixmap_nearest /\
  scaler_of (Params 8000 4000 0 0 false true (S754_finite false 8388608 (-22)))
  = pixmap_bicubic.
Proof.
  destruct (thumbnail_create_scaler MoreExamples.no_scale world0 blank
              MoreExamples.picture params0) as (_ & _ & Havg & _ & _ & _ & Hcreate & _).
  destruct (thumbnail_create_scaler MoreExamples.no_scale world0 blank
              MoreExamples.picture (Params 2 1 0 0 false false (scale params0)))
    as (Hnear & _).
  destruct (thumbnail_create_scaler MoreExamples.no_scale world0 blank
              MoreExamples.picture
              (Params 8000 4000 0 0 false true (S754_finite false 8388608 (-22))))
    as (_ & Hcub & _).
  split; [|split; [|split]].
  - rewrite Hcreate. vm_compute. reflexivity.
  - apply Havg; [reflexivity|vm_compute; reflexivity].
  - apply Hnear. reflexivity.
  - apply Hcub; [reflexivity|vm_compute; reflexivity].
Defined.

Lemma unset_environment_fails_witness :
  lp64_save world_noenv thumb0 source params0 = Some (world_noenv, false) /\
  lp64_load world_noenv thumb0 source params0 [] = (world_noenv, thumb0, false).
Proof.
  apply (unset_environment_fails LP64.sizeof_params LP64.params_bytes
           world_noenv thumb0 source params0 []).
  - intros dir H. vm_compute in H. discriminate H.
  - vm_compute. reflexivity.
  - vm_compute. reflexivity.
Defined.

Lemma thumbnail_load_dimensions_witness :
  exists w' t',
    lp64_load (world_entry params1) blank source params1 [] = (w', t', true) /\
    (width t', height t') = (2, 1) /\
    (width t', height t') <> (thumb_width params1, thumb_height params1).
Proof.
  apply (proj2 (thumbnail_load_dimensions LP64.sizeof_params LP64.params_bytes
                  LP64_params_bytes_length)
           (world_entry params1) (world_entry params1) blank source cache params1 []
           2 1 5 99 pixels0).
  - vm_compute. reflexivity.
  - vm_compute. reflexivity.
  - vm_compute. reflexivity.
  - lia.
  - unfold is_size_t, SIZE_MAX. lia.
  - unfold is_size_t, SIZE_MAX. lia.
  - reflexivity.
  - lia.
  - simpl. lia.
  - vm_compute. discriminate.
Defined.


Lemma thumbnail_params_contain_witness :
  exists p,
    thumbnail_params (Image (Pixmap 4000 2000 None) false) 256 false true = Some p /\
    0 <= thumb_width p <= 256 /\ 0 <= thumb_height p <= 256 /\
    (256 - 1 <= thumb_width p \/ 256 - 1 <= thumb_height p).
Proof.
  assert (Hd : 0 < 4000 <= SIZE_MAX) by (unfold SIZE_MAX; lia).
  assert (He : 0 < 2000 <= SIZE_MAX) by (unfold SIZE_MAX; lia).
  assert (Hs : is_size_t 256) by (unfold is_size_t, SIZE_MAX; lia).
  apply (proj1 (proj2 (thumbnail_params_contain (Image (Pixmap 4000 2000 None) false)
                         256 true Hd He Hs))); simpl; lia.
Defined.

(** C4 as stated fails for a large size: a 1 by 1 source at size 16777219
    gets a canvas of 16777220 by 16777220. *)
Lemma thumbnail_params_exceeds_size :
  thumbnail_params (Image (Pixmap 1 1 None) false) 16777219 false false
  = Some (Params 16777220 16777220 0 0 false false (S754_finite false 8388610 1)) /\
  16777219 < 16777220.
Proof. split; [vm_compute; reflexivity|lia]. Qed.

(** * Further properties *)

(** ** Strings *)

Lemma string_app_cons (x : ascii) (a b : string) :
  String x a +:+ b = String x (a +:+ b).
Proof. reflexivity. Qed.

Lemma string_app_assoc (a b c : string) : (a +:+ b) +:+ c = a +:+ (b +:+ c).
Proof.
  induction a as [|x a IH]; [reflexivity|].
  rewrite !string_app_cons. by rewrite IH.
Qed.

Lemma string_app_nil_r (a : string) : a +:+ "" = a.
Proof.
  induction a as [|x a IH]; [reflexivity|].
  rewrite string_app_cons. by rewrite IH.
Qed.

Lemma string_length_app (a b : string) :
  String.length (a +:+ b) = (String.length a + String.length b)%nat.
Proof.
  induction a as [|x a IH]; [reflexivity|].
  rewrite string_app_cons. cbn [String.length]. by rewrite IH.
Qed.

Lemma string_app_ne (a b : string) : b <> "" -> a +:+ b <> a.
Proof.
  intros Hb E. apply (f_equal String.length) in E.
  rewrite string_length_app in E. destruct b; [done|]. simpl in E. lia.
Qed.

(** Where the first slash of a text can be. *)
Lemma slash_split (c : ascii) (rest pre post : string) :
  String c rest = pre +:+ "/" +:+ post ->
  (pre = "" /\ c = "/"%char /\ post = rest) \/
  (exists pre', pre = String c pre' /\ rest = pre' +:+ "/" +:+ post).
Proof.
  destruct pre as [|x pre].
  - change ("" +:+ "/" +:+ post) with (String "/" post).
    intros [= -> ->]. by left.
  - rewrite string_app_cons. intros [= -> ->]. right. by exists pre.
Qed.

(** ** make_directories *)

Lemma mkdir_cases (w : world) (d : string) :
  (is_Some (fs w !! d) /\ mkdir w d = (w, Some EEXIST)) \/
  (fs w !! d = None /\ (d ∈ denied w) /\ mkdir w d = (w, Some EACCES)) \/
  (fs w !! d = None /\ (d ∉ denied w) /\
   mkdir w d = (set_fs <[d := Dir (now w)]> w, None)).
Proof.
  unfold mkdir. destruct (fs w !! d) eqn:E; [left; eauto|].
  case_decide; auto.
Qed.

(** The loop: what it adds, what is there when it succeeds, and when it
    succeeds. *)
Lemma make_directories_loop_spec (rest : string) :
  forall w done w' r,
    make_directories_loop w done rest = (w', r) ->
    (forall q, fs w' !! q = fs w !! q \/
       (fs w !! q = None /\ (q ∉ denied w) /\ fs w' !! q = Some (Dir (now w)) /\
        exists pre post, rest = pre +:+ "/" +:+ post /\ q = done +:+ pre)) /\
    (r = true -> forall pre post, rest = pre +:+ "/" +:+ post ->
        is_Some (fs w' !! (done +:+ pre))) /\
    (r = true <-> forall pre post, rest = pre +:+ "/" +:+ post ->
        is_Some (fs w !! (done +:+ pre)) \/ (done +:+ pre ∉ denied w)).
Proof.
  induction rest as [|c rest IH]; intros w done w' r; cbn [make_directories_loop].
  - intros [= <- <-]. split; [by left|]. split.
    + intros _ pre post E. by destruct pre.
    + split; [|done]. intros _ pre post E. by destruct pre.
  - destruct (Ascii.eqb_spec c "/") as [->|Hc].
    + (* a slash: the directory in front of it is asked for *)
      assert (Hne : forall pre', (done +:+ "/") +:+ pre' <> done).
      { intros pre'. rewrite string_app_assoc. by apply string_app_ne. }
      destruct (mkdir_cases w done) as [(Hex & ->)|[(Hno & Hden & ->)|(Hno & Hden & ->)]].
      * intros H. destruct (IH _ _ _ _ H) as (A & B & C). split; [|split].
        -- intros q. destruct (A q) as [E|(E1 & E2 & E3 & pre & post & -> & ->)]; [by left|].
           right. repeat split; try done.
           exists (String "/" pre), post. split; [done|].
           by rewrite string_app_assoc.
        -- intros Hr pre post [(-> & _ & ->)|(pre' & -> & E)]%slash_split.
           ++ rewrite string_app_nil_r.
              destruct (A done) as [->|(E1 & _)]; [done|].
              rewrite E1 in Hex. by destruct Hex.
           ++ replace (done +:+ String "/" pre') with ((done +:+ "/") +:+ pre')
                by (by rewrite string_app_assoc).
              by eapply B.
        -- rewrite C. split.
           ++ intros Hall pre post [(-> & _ & ->)|(pre' & -> & E)]%slash_split.
              ** left. by rewrite string_app_nil_r.
              ** replace (done +:+ String "/" pre') with ((done +:+ "/") +:+ pre')
                   by (by rewrite string_app_assoc).
                 by eapply Hall.
           ++ intros Hall pre post E.
              replace ((done +:+ "/") +:+ pre) with (done +:+ String "/" pre)
                by (by rewrite string_app_assoc).
              apply (Hall _ post). by rewrite E.
      * intros [= <- <-]. split; [by left|]. split; [done|].
        split; [done|]. intros Hall.
        destruct (Hall "" rest eq_refl) as [Hs|Hd]; rewrite string_app_nil_r in *.
        -- rewrite Hno in Hs. by destruct Hs.
        -- done.
      * intros H. destruct (IH _ _ _ _ H) as (A & B & C). simpl in A, C.
        split; [|split].
        -- intros q. destruct (decide (q = done)) as [->|Hq].
           ++ right. destruct (A done) as [E|(E1 & _)].
              ** rewrite lookup_insert_eq in E. repeat split; try done.
                 exists "", rest. split; [done|]. by rewrite string_app_nil_r.
              ** by rewrite lookup_insert_eq in E1.
           ++ destruct (A q) as [E|(E1 & E2 & E3 & pre & post & -> & ->)].
              ** left. by rewrite lookup_insert_ne in E.
              ** right. rewrite lookup_insert_ne in E1 by done.
                 repeat split; try done.
                 exists (String "/" pre), post. split; [done|].
                 by rewrite string_app_assoc.
        -- intros Hr pre post [(-> & _ & ->)|(pre' & -> & E)]%slash_split.
           ++ rewrite string_app_nil_r.
              destruct (A done) as [->|(E1 & _)].
              ** by rewrite lookup_insert_eq.
              ** by rewrite lookup_insert_eq in E1.
           ++ replace (done +:+ String "/" pre') with ((done +:+ "/") +:+ pre')
                by (by rewrite string_app_assoc).
              by eapply B.
        -- rewrite C. split.
           ++ intros Hall pre post [(-> & _ & ->)|(pre' & -> & E)]%slash_split.
              ** right. by rewrite string_app_nil_r.
              ** replace (done +:+ String "/" pre') with ((done +:+ "/") +:+ pre')
                   by (by rewrite string_app_assoc).
                 specialize (Hall pre' post E).
                 by rewrite lookup_insert_ne in Hall.
           ++ intros Hall pre post E.
              rewrite lookup_insert_ne by done.
              replace ((done +:+ "/") +:+ pre) with (done +:+ String "/" pre)
                by (by rewrite string_app_assoc).
              apply (Hall _ post). by rewrite E.
    + (* another character *)
      intros H. destruct (IH _ _ _ _ H) as (A & B & C). split; [|split].
      * intros q. destruct (A q) as [E|(E1 & E2 & E3 & pre & post & -> & ->)]; [by left|].
        right. repeat split; try done.
        exists (String c pre), post. split; [done|].
        by rewrite string_app_assoc.
      * intros Hr pre post [(_ & -> & _)|(pre' & -> & E)]%slash_split; [done|].
        replace (done +:+ String c pre') with ((done +:+ String c "") +:+ pre')
          by (by rewrite string_app_assoc).
        by eapply B.
      * rewrite C. split.
        -- intros Hall pre post [(_ & -> & _)|(pre' & -> & E)]%slash_split; [done|].
           replace (done +:+ String c pre') with ((done +:+ String c "") +:+ pre')
             by (by rewrite string_app_assoc).
           by eapply Hall.
        -- intros Hall pre post E.
           replace ((done +:+ String c "") +:+ pre) with (done +:+ String c pre)
             by (by rewrite string_app_assoc).
           apply (Hall _ post). by rewrite E.
Qed.

(** When every directory asked for is there, nothing is done. *)
Lemma make_directories_loop_exist (rest : string) :
  forall w done,
    (forall pre post, rest = pre +:+ "/" +:+ post -> is_Some (fs w !! (done +:+ pre))) ->
    make_directories_loop w done rest = (w, true).
Proof.
  induction rest as [|c rest IH]; intros w dn Hall; cbn [make_directories_loop]; [done|].
  destruct (Ascii.eqb_spec c "/") as [->|Hc].
  - destruct (mkdir_cases w dn) as [(_ & ->)|[(Hno & _)|(Hno & _)]].
    + apply IH. intros pre post E.
      rewrite string_app_assoc. apply (Hall (String "/" pre) post). by rewrite E.
    + specialize (Hall "" rest eq_refl). rewrite string_app_nil_r, Hno in Hall.
      by destruct Hall.
    + specialize (Hall "" rest eq_refl). rewrite string_app_nil_r, Hno in Hall.
      by destruct Hall.
  - apply IH. intros pre post E.
    rewrite string_app_assoc. apply (Hall (String c pre) post). by rewrite E.
Qed.

(** The directories asked for, for a path that starts with [c]. *)
Lemma ancestor_cons (d : string) (c : ascii) (rest : string) :
  ancestor d (String c rest) <->
  exists pre post, rest = pre +:+ "/" +:+ post /\ d = String c "" +:+ pre.
Proof.
  unfold ancestor. split.
  - intros [Hd [post E]]. destruct d as [|x d]; [done|].
    rewrite string_app_cons in E. injection E as -> ->. by exists d, post.
  - intros (pre & post & -> & ->). split; [done|]. by exists post.
Qed.

Lemma ancestor_shorter (d path : string) :
  ancestor d path -> (String.length d < String.length path)%nat.
Proof.
  intros [_ [post ->]]. rewrite string_length_app.
  change ("/" +:+ post) with (String "/" post). simpl. lia.
Qed.

Lemma make_directories_spec (w w' : world) (path : string) (r : bool) :
  make_directories w path = (w', r) ->
  (forall q, fs w' !! q = fs w !! q \/
     (fs w !! q = None /\ (q ∉ denied w) /\ fs w' !! q = Some (Dir (now w)) /\
      ancestor q path)) /\
  (r = true -> forall d, ancestor d path -> is_Some (fs w' !! d)) /\
  (r = true <->
   path <> "" /\
   forall d, ancestor d path -> is_Some (fs w !! d) \/ (d ∉ denied w)).
Proof.
  unfold make_directories. destruct path as [|c rest].
  - intros [= <- <-]. split; [by left|]. split; [done|].
    split; [done|]. intros [Hne _]. by destruct Hne.
  - intros H. apply make_directories_loop_spec in H as (A & B & C).
    split; [|split].
    + intros q. destruct (A q) as [E|(E1 & E2 & E3 & pre & post & E4 & E5)]; [by left|].
      right. split; [done|]. split; [done|]. split; [done|].
      apply ancestor_cons; eauto.
    + intros Hr d (pre & post & E & ->)%ancestor_cons. by eapply B.
    + rewrite C. split.
      * intros Hall. split; [done|].
        intros d (pre & post & E & ->)%ancestor_cons. by eapply Hall.
      * intros [_ Hall] pre post E. apply Hall, ancestor_cons. eauto.
Qed.

(** X1.  After a successful [make_directories] there is something at
    every directory in front of a slash of the path, the first character
    apart. *)
Theorem make_directories_creates_ancestors (w w' : world) (path d : string) :
  make_directories w path = (w', true) -> ancestor d path ->
  is_Some (fs w' !! d).
Proof.
  intros H Hd. apply make_directories_spec in H as (_ & B & _). by apply B.
Qed.

(** X2.  Whatever its result, [make_directories] changes nothing that is
    there: a path holds what it held, or it held nothing, is one of the
    directories asked for and holds a new directory.  The other parts of
    the world are untouched. *)
Theorem make_directories_only_adds (w w' : world) (path : string) (r : bool) :
  make_directories w path = (w', r) ->
  (forall q, fs w' !! q = fs w !! q \/
     (fs w !! q = None /\ ancestor q path /\ fs w' !! q = Some (Dir (now w)))) /\
  fs w' !! path = fs w !! path /\
  env w' = env w /\ cache_dir w' = cache_dir w /\ denied w' = denied w /\
  space w' = space w /\ now w' = now w /\ heap w' = heap w /\ mem w' = mem w /\
  open_files w' = open_files w.
Proof.
  intros H. pose proof (make_directories_store _ _ _ _ H) as St.
  apply make_directories_spec in H as (A & _ & _).
  split; [|split; [|exact St]].
  - intros q. destruct (A q) as [E|(E1 & E2 & E3 & E4)]; auto.
  - destruct (A path) as [E|(_ & _ & _ & E4)]; [done|].
    apply ancestor_shorter in E4. lia.
Qed.

(** X3.  [make_directories] succeeds exactly when the path is not empty
    and each directory asked for is there already or may be created. *)
Theorem make_directories_succeeds_iff (w : world) (path : string) :
  (make_directories w path).2 = true <->
  path <> "" /\
  forall d, ancestor d path -> is_Some (fs w !! d) \/ (d ∉ denied w).
Proof.
  destruct (make_directories w path) as [w' r] eqn:H.
  apply make_directories_spec in H as (_ & _ & C). exact C.
Qed.

(** X4.  Doing it again changes nothing: after a success a second
    [make_directories] of the same path succeeds and leaves the world as it
    is. *)
Theorem make_directories_idempotent (w w' : world) (path : string) :
  make_directories w path = (w', true) ->
  make_directories w' path = (w', true).
Proof.
  intros H. pose proof (make_directories_spec _ _ _ _ H) as (_ & B & _).
  specialize (B eq_refl).
  unfold make_directories in *. destruct path as [|c rest]; [done|].
  apply make_directories_loop_exist. intros pre post E.
  apply B, ancestor_cons. eauto.
Qed.

(** ** get_thumb_path *)

Lemma snprintf_path_length (dir source path : string) :
  snprintf_path dir source = Some path ->
  path = dir +:+ source /\ (String.length path < 4096)%nat.
Proof.
  unfold snprintf_path, PATH_MAX.
  destruct (_ && _) eqn:E; [|done]. intros [= <-].
  apply andb_true_iff in E as [_ E%Z.ltb_lt].
  rewrite string_length_app. split; [done|lia].
Qed.

Lemma snprintf_path_None (dir source : string) :
  snprintf_path dir source = None <->
  (4096 <= String.length dir + String.length source)%nat.
Proof.
  unfold snprintf_path, PATH_MAX.
  destruct (0 <=? _) eqn:E0; [|apply Z.leb_gt in E0; lia].
  destruct (_ <? 4096) eqn:E; simpl.
  - apply Z.ltb_lt in E. split; [done|lia].
  - apply Z.ltb_ge in E. split; [lia|done].
Qed.

(** X5.  Once a cache root has been found it is kept: every later call
    answers from the static variable, whatever has become of the
    environment, and changes nothing; this is so even when the call that
    found the root failed for the length of its path. *)
Theorem get_thumb_path_memoised (w w1 : world) (s1 : string) (r1 : option string) :
  get_thumb_path w s1 = (w1, r1) ->
  is_Some (cache_dir w) \/ is_Some (getenv w "XDG_CACHE_HOME") \/
    is_Some (getenv w "HOME") ->
  exists root,
    cache_dir w1 = Some root /\
    forall f s2,
      get_thumb_path (set_env f w1) s2 = (set_env f w1, snprintf_path root s2).
Proof.
  unfold get_thumb_path at 1. unfold strcat_env, getenv. intros H Hset.
  destruct (cache_dir w) as [root|] eqn:E;
    [|destruct (env w !! "XDG_CACHE_HOME") as [x|] eqn:E1;
      [|destruct (env w !! "HOME") as [h|] eqn:E2]].
  - injection H as <- _. exists root. split; [done|].
    intros f s2. unfold get_thumb_path. simpl. by rewrite E.
  - injection H as <- _. eexists. split; [reflexivity|]. by intros f s2.
  - injection H as <- _. eexists. split; [reflexivity|]. by intros f s2.
  - destruct Hset as [[? [=]]|[[? [=]]|[? [=]]]].
Qed.

(** X6.  Two sources never share a cache file: if two calls in a row
    give the same path, the sources are the same. *)
Theorem get_thumb_path_injective (w w1 w2 : world) (s1 s2 path : string) :
  get_thumb_path w s1 = (w1, Some path) ->
  get_thumb_path w1 s2 = (w2, Some path) ->
  s1 = s2.
Proof.
  intros (dir & Hd & [-> _]%snprintf_path_length)%get_thumb_path_Some.
  unfold get_thumb_path. rewrite Hd. intros [= _ [E _]%snprintf_path_length].
  by apply (inj (String.app dir)) in E.
Qed.

(** X7.  In a process that has no root yet, the path is the text of
    [XDG_CACHE_HOME] followed by [/swayimg] and the source when that
    variable is set, whatever [HOME] holds, and else the text of [HOME]
    followed by [/.swayimg] and the source; it is shorter than
    [PATH_MAX]. *)
Theorem get_thumb_path_result (w w1 : world) (source path : string) :
  cache_dir w = None ->
  get_thumb_path w source = (w1, Some path) ->
  (String.length path < 4096)%nat /\
  match getenv w "XDG_CACHE_HOME", getenv w "HOME" with
  | Some x, _ => path = x +:+ "/swayimg" +:+ source
  | None, Some h => path = h +:+ "/.swayimg" +:+ source
  | None, None => False
  end.
Proof.
  unfold get_thumb_path, getenv. intros ->.
  destruct (env w !! "XDG_CACHE_HOME") as [x|];
    [|destruct (env w !! "HOME") as [h|]; [|done]].
  - intros [= _ [-> Hl]%snprintf_path_length]. split; [done|].
    apply string_app_assoc.
  - intros [= _ [-> Hl]%snprintf_path_length]. split; [done|].
    apply string_app_assoc.
Qed.

(** X8.  [get_thumb_path] fails in two cases only: no root is known and
    neither variable is set, or the root, its suffix and the source take
    [PATH_MAX] characters or more. *)
Theorem get_thumb_path_fails_iff (w : world) (source : string) :
  (get_thumb_path w source).2 = None <->
  match cache_dir w, getenv w "XDG_CACHE_HOME", getenv w "HOME" with
  | Some root, _, _ => (4096 <= String.length root + String.length source)%nat
  | None, Some x, _ => (4096 <= String.length x + 8 + String.length source)%nat
  | None, None, Some h => (4096 <= String.length h + 9 + String.length source)%nat
  | None, None, None => True
  end.
Proof.
  unfold get_thumb_path, getenv.
  destruct (cache_dir w) as [root|];
    [|destruct (env w !! "XDG_CACHE_HOME") as [x|];
      [|destruct (env w !! "HOME") as [h|]; [|done]]]; cbn [snd].
  - apply snprintf_path_None.
  - rewrite snprintf_path_None, string_length_app. reflexivity.
  - rewrite snprintf_path_None, string_length_app. reflexivity.
Qed.

(** ** The header, once more *)

Lemma skip_space_id (fp : list byte) : no_space_ahead fp -> skip_space fp = fp.
Proof. destruct fp as [|b fp]; simpl; [done|]. by intros ->. Qed.

(** The header is read back in front of anything that does not start with
    white space. *)
Lemma fscanf_header_of_bytes (wd ht : Z) (rest : list byte) (thumb : pixmap) :
  is_size_t wd -> is_size_t ht -> no_space_ahead rest ->
  fscanf_header (header_bytes wd ht ++ rest) thumb
  = (3, [x50; x36], Pixmap wd ht (data thumb), rest).
Proof.
  intros Hw Hh Hrest.
  destruct (print_zu_head wd (proj1 Hw)) as (bw & tw & Ew & Dw).
  destruct (print_zu_head ht (proj1 Hh)) as (bh & th & Eh & Dh).
  assert (S1 : forall l, skip_space (print_zu wd ++ l) = print_zu wd ++ l).
  { intros l. rewrite Ew. cbn [app]. by apply skip_space_digit. }
  assert (S2 : forall l, skip_space (print_zu ht ++ l) = print_zu ht ++ l).
  { intros l. rewrite Eh. cbn [app]. by apply skip_space_digit. }
  replace (header_bytes wd ht ++ rest)
    with (x50 :: x36 :: x0a :: print_zu wd ++ x20 :: print_zu ht
            ++ x0a :: x32 :: x35 :: x35 :: x0a :: rest)
    by (unfold header_bytes; cbn [app]; rewrite <- !app_assoc; cbn [app];
        rewrite <- !app_assoc; reflexivity).
  unfold fscanf_header.
  change (scan_2s (x50 :: x36 :: ?l)) with ([x50; x36], l). cbv iota beta.
  change (skip_space (x0a :: ?l)) with (skip_space l).
  rewrite !S1, scan_zu_print_zu by done.
  change (skip_space (x20 :: ?l)) with (skip_space l).
  rewrite !S2, scan_zu_print_zu by done.
  change (skip_space (x0a :: x32 :: ?l)) with (x32 :: l).
  change (scan_literal [x32; x35; x35] (x32 :: x35 :: x35 :: ?l)) with (true, l).
  cbv iota beta.
  change (skip_space (x0a :: rest)) with (skip_space rest).
  by rewrite skip_space_id.
Qed.

(** The same without the line of the maximum value: the literal of the
    format does not match, which [fscanf] does not report. *)
Lemma fscanf_header_no_maxval (wd ht : Z) (rest : list byte) (thumb : pixmap) :
  is_size_t wd -> is_size_t ht ->
  fscanf_header ([x50; x36; x0a] ++ print_zu wd ++ [x20] ++ print_zu ht
                   ++ x0a :: x23 :: rest) thumb
  = (3, [x50; x36], Pixmap wd ht (data thumb), x23 :: rest).
Proof.
  intros Hw Hh.
  destruct (print_zu_head wd (proj1 Hw)) as (bw & tw & Ew & Dw).
  destruct (print_zu_head ht (proj1 Hh)) as (bh & th & Eh & Dh).
  assert (S1 : forall l, skip_space (print_zu wd ++ l) = print_zu wd ++ l).
  { intros l. rewrite Ew. cbn [app]. by apply skip_space_digit. }
  assert (S2 : forall l, skip_space (print_zu ht ++ l) = print_zu ht ++ l).
  { intros l. rewrite Eh. cbn [app]. by apply skip_space_digit. }
  cbn [app]. unfold fscanf_header.
  change (scan_2s (x50 :: x36 :: ?l)) with ([x50; x36], l). cbv iota beta.
  change (skip_space (x0a :: ?l)) with (skip_space l).
  rewrite !S1, scan_zu_print_zu by done.
  change (skip_space (x20 :: ?l)) with (skip_space l).
  rewrite !S2, scan_zu_print_zu by done.
  reflexivity.
Qed.

(** X9.  What [fprintf] writes as the header, [fscanf] reads back: the
    three conversions are made, the magic is [P6] and the two numbers are
    the width and the height, for all values of [size_t]; the stream is
    left at the first byte after the header that is not white space. *)
Theorem header_round_trip (wd ht : Z) (rest : list byte) (thumb : pixmap) :
  is_size_t wd -> is_size_t ht -> no_space_ahead rest ->
  fscanf_header (header_bytes wd ht ++ rest) thumb
  = (3, [x50; x36], Pixmap wd ht (data thumb), rest).
Proof. apply fscanf_header_of_bytes. Qed.

(** ** Pixels, once more *)

Lemma length_color_bind (pxs : list Z) :
  length (pxs ≫= color) = (3 * length pxs)%nat.
Proof.
  induction pxs as [|px pxs IH]; [done|].
  rewrite bind_cons, length_app, IH. simpl. lia.
Qed.

(** A pixel whose alpha channel is 255 is opaque already. *)
Lemma opaque_id (px : Z) : Z.shiftr px 24 = 255 -> opaque px = px.
Proof.
  intros H. unfold opaque. apply Z.bits_inj'. intros n Hn.
  rewrite Z.lor_spec, Z.land_spec, Z.shiftl_spec by done.
  destruct (Z.lt_ge_cases n 24) as [Hlt|Hge].
  - rewrite Z.testbit_neg_r by lia. rewrite Z.testbit_ones_nonneg by lia.
    replace (n <? 24) with true by (symmetry; apply Z.ltb_lt; lia).
    simpl. apply andb_true_r.
  - rewrite Z.testbit_ones_nonneg by lia.
    replace (n <? 24) with false by (symmetry; apply Z.ltb_ge; lia).
    rewrite andb_false_r, orb_false_r, <- H, Z.shiftr_spec by lia.
    f_equal. lia.
Qed.

Lemma rgb_pixels_color (pxs : list Z) (rest : list byte) :
  take (length pxs) (rgb_pixels ((pxs ≫= color) ++ rest)) = opaque <$> pxs.
Proof.
  induction pxs as [|px pxs IH]; [done|].
  rewrite bind_cons. pose proof (ARGB_color px) as Hc.
  destruct (color px) as [|r [|g [|b [|]]]]; try done.
  cbn [app rgb_pixels length take fmap list_fmap]. rewrite Hc. f_equal. exact IH.
Qed.

(** ** The cache codec, once more *)

(** The loop of [thumbnail_load] fails when the payload is too short for
    the pixels still to be read, and whenever the bound is not below
    [2^32], which the counter cannot reach. *)
Lemma load_pixels_short (thumb : pixmap) (n : Z) (k : nat) :
  forall fp w i, (length fp <= k)%nat -> 0 <= i < 2 ^ 32 ->
    2 ^ 32 <= n \/ Z.of_nat (length fp) < 3 * (n - i) ->
    (load_pixels fp w thumb i n).2 = false.
Proof.
  induction k as [|k IH]; intros fp w i Hk Hi Hn.
  - destruct fp; [|simpl in Hk; lia]. simpl.
    destruct (Z.ltb_spec i n); [done|]. simpl in Hn. lia.
  - assert (Hin : i < n) by lia.
    destruct fp as [|r [|g [|b fp]]];
      try (simpl; apply Z.ltb_lt in Hin; by rewrite Hin).
    rewrite load_pixels_step by done. apply IH.
    + simpl in Hk. lia.
    + unfold wrap32. apply Z.mod_pos_bound. lia.
    + unfold wrap32. simpl in Hn.
      destruct (Z.eq_dec (i + 1) (2 ^ 32)) as [E|E].
      * left. lia.
      * rewrite Z.mod_small by lia. lia.
Qed.

(** The loop on any payload that is long enough: the buffer gets the
    pixels of the records, in order. *)
Lemma load_pixels_bytes (thumb : pixmap) (a : positive) (n : Z) :
  data thumb = Some a -> n < 2 ^ 32 ->
  forall tail fp w done,
    heap w !! a = Some (done ++ tail) ->
    Z.of_nat (length done) + Z.of_nat (length tail) = n ->
    (3 * length tail <= length fp)%nat ->
    load_pixels fp w thumb (Z.of_nat (length done)) n
    = (set_heap <[a := done ++ take (length tail) (rgb_pixels fp)]> (mem w) w, true).
Proof.
  intros Ha Hn. induction tail as [|t tail IH]; intros fp w done Hw Hsum Hlen.
  - rewrite app_nil_r in Hw.
    rewrite load_pixels_done by (simpl in Hsum; lia).
    f_equal. destruct w. unfold set_heap. simpl in *. f_equal.
    rewrite app_nil_r. symmetry. by apply insert_id.
  - simpl in Hlen, Hsum.
    destruct fp as [|r [|g [|b fp]]]; try (simpl in Hlen; lia).
    rewrite load_pixels_step by lia.
    set (px := ARGB 255 (Z_of_byte r) (Z_of_byte g) (Z_of_byte b)).
    assert (Hi : wrap32 (Z.of_nat (length done) + 1)
                 = Z.of_nat (length (done ++ [px]))).
    { unfold wrap32. rewrite length_app. simpl.
      rewrite Z.mod_small; lia. }
    rewrite Hi.
    rewrite (IH fp _ (done ++ [px])).
    + f_equal. unfold set_pixel. rewrite Ha. unfold set_heap. simpl.
      f_equal. rewrite insert_alter_eq. by rewrite <- app_assoc.
    + unfold set_pixel. rewrite Ha. simpl.
      rewrite lookup_alter_eq, Hw. simpl. f_equal.
      rewrite Nat2Z.id, insert_app_r_alt by lia.
      rewrite Nat.sub_diag. simpl. by rewrite <- app_assoc.
    + rewrite length_app. simpl. lia.
    + simpl in Hlen. lia.
Qed.

Section CodecFurther.

Variable sizeof_params : nat.
Variable params_bytes : ThumbnailParams -> list byte.
Hypothesis params_bytes_length :
  forall p, length (params_bytes p) = sizeof_params.

(** What a read that succeeds has found and done. *)
Lemma read_entry_hit (w3 w' : world) (fp : list byte) (thumb t' : pixmap)
    (p : ThumbnailParams) (stack : list byte) :
  read_entry sizeof_params params_bytes w3 fp thumb p stack = (w', t', true) ->
  exists thumb1 fp1,
    fscanf_header fp thumb = (3, [x50; x36], thumb1, fp1) /\
    t' = Pixmap (width thumb1) (height thumb1) (Some (fresh (dom (heap w3)))) /\
    0 <= width thumb1 * height thumb1 < 2 ^ 32 /\
    width thumb1 * height thumb1 <= mem w3 /\
    3 * (width thumb1 * height thumb1)
      <= Z.of_nat (length (payload_of sizeof_params fp1)) /\
    w' = fclose (set_heap
                   <[fresh (dom (heap w3)) :=
                       take (Z.to_nat (width thumb1 * height thumb1))
                         (rgb_pixels (payload_of sizeof_params fp1))]>
                   (mem w3 - width thumb1 * height thumb1) w3).
Proof.
  unfold read_entry.
  destruct (fscanf_header fp thumb) as [[[cnt header] thumb1] fp1].
  destruct (cnt =? 3) eqn:E1; [|done]. apply Z.eqb_eq in E1 as ->.
  case_bool_decide as E2; [|done]. subst header.
  case_bool_decide as E3; [|done]. cbn [negb].
  destruct (pixmap_create _ _ _ _) as [[w4 thumb2] []] eqn:Ec; [|done].
  apply pixmap_create_true in Ec as (Hfresh & -> & -> & Hn & Hmax).
  set (a := fresh (dom (heap w3))) in *. cbn [width height].
  set (n := width thumb1 * height thumb1) in *.
  assert (Hwrap : wrap64 n = n).
  { unfold wrap64. apply Z.mod_small. unfold SIZE_MAX in Hmax. lia. }
  rewrite Hwrap.
  fold (payload_of sizeof_params fp1).
  destruct (load_pixels _ _ _ _ _) as [w5 []] eqn:El; [|done].
  intros [= <- <-].
  assert (Hok : n < 2 ^ 32 /\ 3 * n <= Z.of_nat (length (payload_of sizeof_params fp1))).
  { destruct (Z.lt_ge_cases n (2 ^ 32)) as [H1|H1];
      [destruct (Z.le_gt_cases (3 * n)
                   (Z.of_nat (length (payload_of sizeof_params fp1)))) as [H2|H2]|].
    - done.
    - pose proof (load_pixels_short (Pixmap (width thumb1) (height thumb1) (Some a)) n _
                    (payload_of sizeof_params fp1)
                    (set_heap <[a := replicate (Z.to_nat n) 0]> (mem w3 - n) w3)
                    0 (le_n _) ltac:(lia) ltac:(right; lia)) as Hf.
      rewrite El in Hf. done.
    - pose proof (load_pixels_short (Pixmap (width thumb1) (height thumb1) (Some a)) n _
                    (payload_of sizeof_params fp1)
                    (set_heap <[a := replicate (Z.to_nat n) 0]> (mem w3 - n) w3)
                    0 (le_n _) ltac:(lia) ltac:(left; lia)) as Hf.
      rewrite El in Hf. done. }
  destruct Hok as [Hn32 Hpay].
  exists thumb1, fp1. repeat split; try done; try lia.
  pose proof (load_pixels_bytes (Pixmap (width thumb1) (height thumb1) (Some a)) a n
                eq_refl Hn32 (replicate (Z.to_nat n) 0) (payload_of sizeof_params fp1)
                (set_heap <[a := replicate (Z.to_nat n) 0]> (mem w3 - n) w3) []) as L.
  change (Z.of_nat (length [])) with 0 in L. cbn [app] in L.
  rewrite length_replicate in L. rewrite L in El.
  - injection El as <-. unfold fclose, set_open_files, set_heap. simpl.
    by rewrite insert_insert_eq.
  - simpl. apply lookup_insert_eq.
  - lia.
  - lia.
Qed.

(** What a load that succeeds has found and done. *)
Lemma thumbnail_load_hit (w w' : world) (thumb t' : pixmap) (source : string)
    (p : ThumbnailParams) (stack : list byte) :
  thumbnail_load sizeof_params params_bytes w thumb source p stack = (w', t', true) ->
  exists w1 path c tc thumb1 fp1,
    get_thumb_path w source = (w1, Some path) /\
    fs w !! path = Some (File c tc) /\
    fscanf_header c thumb = (3, [x50; x36], thumb1, fp1) /\
    t' = Pixmap (width thumb1) (height thumb1) (Some (fresh (dom (heap w)))) /\
    0 <= width thumb1 * height thumb1 < 2 ^ 32 /\
    width thumb1 * height thumb1 <= mem w /\
    3 * (width thumb1 * height thumb1)
      <= Z.of_nat (length (payload_of sizeof_params fp1)) /\
    w' = set_heap
           <[fresh (dom (heap w)) :=
               take (Z.to_nat (width thumb1 * height thumb1))
                 (rgb_pixels (payload_of sizeof_params fp1))]>
           (mem w - width thumb1 * height thumb1) w1.
Proof.
  intros H.
  apply thumbnail_load_true in H as (w1 & path & ts & tc & c & E1 & Es & Ef & Ht & Hr).
  pose proof (get_thumb_path_store _ _ _ _ E1) as (Hfs & Hden & Hsp & Hnow & Hheap & Hmem & Hopen).
  apply read_entry_hit in Hr as (thumb1 & fp1 & Hh & -> & Hn & Hm & Hpay & ->).
  simpl in *. rewrite Hheap, Hmem in *.
  exists w1, path, c, tc, thumb1, fp1. rewrite <- Hfs.
  repeat split; try done; try lia.
Qed.

(** A read that finds a header, the parameters of the caller and a payload
    that is long enough succeeds. *)
Lemma read_entry_accepts (w3 : world) (fp fp1 : list byte) (thumb thumb1 : pixmap)
    (p : ThumbnailParams) (stack : list byte) :
  fscanf_header fp thumb = (3, [x50; x36], thumb1, fp1) ->
  take sizeof_params (drop 1 fp1) = params_bytes p ->
  0 <= width thumb1 * height thumb1 < 2 ^ 32 ->
  width thumb1 * height thumb1 <= mem w3 ->
  3 * (width thumb1 * height thumb1)
    <= Z.of_nat (length (payload_of sizeof_params fp1)) ->
  read_entry sizeof_params params_bytes w3 fp thumb p stack
  = (fclose (set_heap
               <[fresh (dom (heap w3)) :=
                   take (Z.to_nat (width thumb1 * height thumb1))
                     (rgb_pixels (payload_of sizeof_params fp1))]>
               (mem w3 - width thumb1 * height thumb1) w3),
     Pixmap (width thumb1) (height thumb1) (Some (fresh (dom (heap w3)))), true).
Proof.
  intros Hh Hp Hn Hmem Hpay. unfold read_entry. rewrite Hh.
  change (negb (3 =? 3)) with false. cbv iota.
  rewrite bool_decide_eq_true_2 by done. cbn [negb fread fst snd].
  rewrite Hp.
  rewrite (take_app_length' (params_bytes p)) by (symmetry; apply params_bytes_length).
  rewrite bool_decide_eq_true_2 by done. cbn [negb].
  change (drop 1 (drop sizeof_params (drop 1 fp1)))
    with (payload_of sizeof_params fp1).
  set (n := width thumb1 * height thumb1) in *.
  unfold pixmap_create. fold n.
  replace ((0 <=? n) && (n <=? mem w3) && (n * 4 <=? SIZE_MAX)) with true.
  2:{ symmetry. rewrite !andb_true_iff, !Z.leb_le. unfold SIZE_MAX. lia. }
  set (a := fresh (dom (heap w3))). cbn [width height]. fold n.
  replace (wrap64 n) with n by (unfold wrap64; rewrite Z.mod_small; lia).
  pose proof (load_pixels_bytes (Pixmap (width thumb1) (height thumb1) (Some a)) a n
                eq_refl (proj2 Hn) (replicate (Z.to_nat n) 0)
                (payload_of sizeof_params fp1)
                (set_heap <[a := replicate (Z.to_nat n) 0]> (mem w3 - n) w3) []) as L.
  change (Z.of_nat (length [])) with 0 in L. cbn [app] in L.
  rewrite length_replicate in L. rewrite L.
  - do 2 f_equal. unfold fclose, set_open_files, set_heap. simpl.
    by rewrite insert_insert_eq.
  - simpl. apply lookup_insert_eq.
  - lia.
  - lia.
Qed.

Lemma thumbnail_load_accepts (w w1 : world) (thumb thumb1 : pixmap)
    (source path : string) (p : ThumbnailParams) (stack c fp1 : list byte) (ts tc : Z) :
  get_thumb_path w source = (w1, Some path) ->
  stat w source = Some ts ->
  fs w !! path = Some (File c tc) ->
  ts <= tc ->
  fscanf_header c thumb = (3, [x50; x36], thumb1, fp1) ->
  take sizeof_params (drop 1 fp1) = params_bytes p ->
  0 <= width thumb1 * height thumb1 < 2 ^ 32 ->
  width thumb1 * height thumb1 <= mem w ->
  3 * (width thumb1 * height thumb1)
    <= Z.of_nat (length (payload_of sizeof_params fp1)) ->
  thumbnail_load sizeof_params params_bytes w thumb source p stack
  = (set_heap
       <[fresh (dom (heap w)) :=
           take (Z.to_nat (width thumb1 * height thumb1))
             (rgb_pixels (payload_of sizeof_params fp1))]>
       (mem w - width thumb1 * height thumb1) w1,
     Pixmap (width thumb1) (height thumb1) (Some (fresh (dom (heap w)))), true).
Proof.
  intros E1 Es Ef Ht Hh Hp Hn Hmem Hpay.
  pose proof (get_thumb_path_store _ _ _ _ E1) as (Hfs & Hden & Hsp & Hnow & Hheap & Hm & Hopen).
  unfold thumbnail_load. rewrite E1. unfold stat in *. rewrite Hfs, Es, Ef. simpl.
  replace (0 <? difftime ts tc) with false
    by (symmetry; apply Z.ltb_ge; unfold difftime; lia).
  rewrite (get_thumb_path_again _ _ _ _ E1).
  unfold fopen_rb. rewrite Hfs, Ef.
  erewrite read_entry_accepts; try done; simpl; rewrite ?Hheap, ?Hm; try done.
Qed.

(** X10.  [thumbnail_load] only reads: whatever its result, the files, the
    paths that are denied, the room on the device and the clock are what
    they were, and no stream is left open. *)
Theorem thumbnail_load_read_only (w w' : world) (thumb t' : pixmap) (source : string)
    (p : ThumbnailParams) (stack : list byte) (r : bool) :
  thumbnail_load sizeof_params params_bytes w thumb source p stack = (w', t', r) ->
  fs w' = fs w /\ denied w' = denied w /\ space w' = space w /\ now w' = now w /\
  open_files w' = open_files w.
Proof.
  destruct r.
  - intros (w1 & path & c & tc & thumb1 & fp1 & E1 & _ & _ & _ & _ & _ & _ & ->)
             %thumbnail_load_hit.
    apply get_thumb_path_store in E1. unfold same_store in E1. simpl. tauto.
  - intros H%thumbnail_load_false. unfold same_store in H. tauto.
Qed.



(** What the loop of a read that succeeds has counted: the bound is the
    product as the program has it, a value of [size_t]. *)
Lemma read_entry_hit_count (w3 w' : world) (fp : list byte) (thumb t' : pixmap)
    (p : ThumbnailParams) (stack : list byte) :
  read_entry sizeof_params params_bytes w3 fp thumb p stack = (w', t', true) ->
  wrap64 (width t' * height t') < 2 ^ 32 /\
  3 * wrap64 (width t' * height t')
    <= Z.of_nat (length (payload_of sizeof_params (fscanf_header fp thumb).2)).
Proof.
  unfold read_entry.
  destruct (fscanf_header fp thumb) as [[[cnt header] thumb1] fp1]. cbn [snd].
  destruct (negb (cnt =? 3)); [done|].
  destruct (negb (bool_decide (header = _))); [done|].
  destruct (negb (bool_decide (params_bytes p = _))); [done|].
  destruct (pixmap_create _ _ _ _) as [[w4 thumb2] []]; [|done].
  change (fread 1 (fread sizeof_params (fread 1 fp1).2).2).2
    with (payload_of sizeof_params fp1).
  set (n := wrap64 (width thumb2 * height thumb2)).
  destruct (load_pixels _ _ _ _ _) as [w5 []] eqn:El; [|done].
  intros [= _ <-]. fold n.
  assert (Hn0 : 0 <= n) by (apply Z.mod_pos_bound; lia).
  destruct (Z.lt_ge_cases n (2 ^ 32)) as [H1|H1];
    [destruct (Z.le_gt_cases (3 * n)
                 (Z.of_nat (length (payload_of sizeof_params fp1)))) as [H2|H2]|].
  - done.
  - pose proof (load_pixels_short thumb2 n _ (payload_of sizeof_params fp1) w4
                  0 (le_n _) ltac:(lia) ltac:(right; lia)) as Hf.
    rewrite El in Hf. done.
  - pose proof (load_pixels_short thumb2 n _ (payload_of sizeof_params fp1) w4
                  0 (le_n _) ltac:(lia) ltac:(left; lia)) as Hf.
    rewrite El in Hf. done.
Qed.

(** X12.  A hit means that the number of pixels the loop of
    [thumbnail_load] counts to, the product of the width and the height of
    the header as a value of [size_t], is below [2^32], the counter being
    one of 32 bits, and that the payload holds three bytes for each of
    them. *)
Theorem thumbnail_load_hit_bounds (w w' : world) (thumb t' : pixmap) (source : string)
    (p : ThumbnailParams) (stack : list byte) :
  thumbnail_load sizeof_params params_bytes w thumb source p stack = (w', t', true) ->
  exists path c tc,
    (get_thumb_path w source).2 = Some path /\
    fs w !! path = Some (File c tc) /\
    wrap64 (width t' * height t') < 2 ^ 32 /\
    3 * wrap64 (width t' * height t')
      <= Z.of_nat (length (payload_of sizeof_params (fscanf_header c thumb).2)).
Proof.
  intros H.
  apply (thumbnail_load_true sizeof_params params_bytes) in H
    as (w1 & path & ts & tc & c & E1 & _ & Ef & _ & Hr).
  pose proof (get_thumb_path_store _ _ _ _ E1) as (Hfs & _).
  apply read_entry_hit_count in Hr as [Hn Hpay].
  exists path, c, tc. rewrite E1, <- Hfs. by repeat split.
Qed.


Lemma entry_bytes_split (wd ht : Z) (q : ThumbnailParams) (pxs : list Z) :
  entry_bytes params_bytes wd ht q pxs
  = header_bytes wd ht ++ x23 :: params_bytes q ++ x0a :: (pxs ≫= color).
Proof. reflexivity. Qed.



(** X14.  The byte in front of the parameters and the byte after them are
    read and not looked at, and what follows the payload is not read: an
    entry with any byte that is not white space for the comment marker, any
    byte for the line break and anything after the last pixel is loaded as
    the entry itself is. *)
Theorem thumbnail_load_unchecked_bytes (w w1 : world) (thumb : pixmap)
    (source path : string) (p : ThumbnailParams) (stack rest : list byte)
    (wd ht ts tc : Z) (pxs : list Z) (c d : byte) :
  get_thumb_path w source = (w1, Some path) ->
  stat w source = Some ts ->
  fs w !! path
  = Some (File (header_bytes wd ht ++ c :: params_bytes p ++ d :: (pxs ≫= color) ++ rest)
            tc) ->
  ts <= tc ->
  is_size_t wd -> is_size_t ht ->
  Z.of_nat (length pxs) = wd * ht -> wd * ht < 2 ^ 32 -> wd * ht <= mem w ->
  isspace c = false ->
  thumbnail_load sizeof_params params_bytes w thumb source p stack
  = (set_heap <[fresh (dom (heap w)) := opaque <$> pxs]> (mem w - wd * ht) w1,
     Pixmap wd ht (Some (fresh (dom (heap w)))), true).
Proof.
  intros E1 Es Ef Ht Hw Hh Hlen Hn Hmem Hc.
  assert (Hpl : payload_of sizeof_params
                  (c :: params_bytes p ++ d :: (pxs ≫= color) ++ rest)
                = (pxs ≫= color) ++ rest).
  { unfold payload_of, fread. cbn [snd].
    change (drop 1 (c :: ?l)) with l.
    rewrite (drop_app_length' (params_bytes p)) by (symmetry; apply params_bytes_length).
    reflexivity. }
  erewrite (thumbnail_load_accepts w w1 thumb (Pixmap wd ht (data thumb)) source path
              p stack _ _ ts tc E1 Es Ef Ht).
  - cbn [width height]. rewrite Hpl, <- Hlen, Nat2Z.id, rgb_pixels_color.
    by rewrite Hlen.
  - by apply fscanf_header_of_bytes.
  - change (drop 1 (c :: ?l)) with l.
    by rewrite (take_app_length' (params_bytes p)) by (symmetry; apply params_bytes_length).
  - cbn [width height]. lia.
  - done.
  - cbn [width height]. rewrite Hpl, length_app, length_color_bind. lia.
Qed.

(** X15.  The line of the maximum value is not required: [fscanf] has made
    its three conversions before it comes to the literal [255], and the
    number of conversions is all that is checked.  An entry without that
    line is loaded as the entry itself is. *)
Theorem thumbnail_load_without_maxval (w w1 : world) (thumb : pixmap)
    (source path : string) (p : ThumbnailParams) (stack : list byte)
    (wd ht ts tc : Z) (pxs : list Z) :
  get_thumb_path w source = (w1, Some path) ->
  stat w source = Some ts ->
  fs w !! path
  = Some (File ([x50; x36; x0a] ++ print_zu wd ++ [x20] ++ print_zu ht
                  ++ x0a :: x23 :: params_bytes p ++ x0a :: (pxs ≫= color))
            tc) ->
  ts <= tc ->
  is_size_t wd -> is_size_t ht ->
  Z.of_nat (length pxs) = wd * ht -> wd * ht < 2 ^ 32 -> wd * ht <= mem w ->
  thumbnail_load sizeof_params params_bytes w thumb source p stack
  = (set_heap <[fresh (dom (heap w)) := opaque <$> pxs]> (mem w - wd * ht) w1,
     Pixmap wd ht (Some (fresh (dom (heap w)))), true).
Proof.
  intros E1 Es Ef Ht Hw Hh Hlen Hn Hmem.
  assert (Hpl : payload_of sizeof_params
                  (x23 :: params_bytes p ++ x0a :: (pxs ≫= color))
                = (pxs ≫= color) ++ []).
  { unfold payload_of, fread. cbn [snd].
    change (drop 1 (x23 :: ?l)) with l.
    rewrite (drop_app_length' (params_bytes p)) by (symmetry; apply params_bytes_length).
    change (drop 1 (x0a :: ?l)) with l. by rewrite app_nil_r. }
  erewrite (thumbnail_load_accepts w w1 thumb (Pixmap wd ht (data thumb)) source path
              p stack _ _ ts tc E1 Es Ef Ht).
  - cbn [width height]. rewrite Hpl, <- Hlen, Nat2Z.id, rgb_pixels_color.
    by rewrite Hlen.
  - by apply fscanf_header_no_maxval.
  - change (drop 1 (x23 :: ?l)) with l.
    by rewrite (take_app_length' (params_bytes p)) by (symmetry; apply params_bytes_length).
  - cbn [width height]. lia.
  - done.
  - cbn [width height]. rewrite Hpl, length_app, length_color_bind. simpl. lia.
Qed.

(** What [thumbnail_save] leaves, by the step at which it stopped: [w2] is
    the world after the directories were asked for. *)
Lemma thumbnail_save_inv (w w' : world) (thumb : pixmap) (source : string)
    (p : ThumbnailParams) (b : bool) :
  thumbnail_save params_bytes w thumb source p = Some (w', b) ->
  exists w1 r,
    get_thumb_path w source = (w1, r) /\
    match r with
    | None => w' = w1 /\ b = false
    | Some path =>
        exists w2 mk,
          make_directories w1 path = (w2, mk) /\
          heap w' = heap w2 /\ mem w' = mem w2 /\ open_files w' = open_files w2 /\
          denied w' = denied w2 /\ now w' = now w2 /\
          (forall q, q <> path -> fs w' !! q = fs w2 !! q) /\
          (b = true -> mk = true /\ exists c, fs w' !! path = Some (File c (now w2))) /\
          (b = false -> w' = w2)
    end.
Proof.
  unfold thumbnail_save.
  destruct (get_thumb_path w source) as [w1 [path|]] eqn:E1.
  2:{ intros [= <- <-]. by exists w1, None. }
  destruct (make_directories w1 path) as [w2 mk] eqn:E2.
  destruct mk.
  2:{ intros [= <- <-]. exists w1, (Some path). split; [done|].
      exists w2, false. by repeat split. }
  destruct (fopen_wb w2 path) as [w3 []] eqn:E3.
  2:{ apply fopen_wb_false in E3 as ->. intros [= <- <-].
      exists w1, (Some path). split; [done|]. exists w2, true. by repeat split. }
  destruct (2 ^ 32 <=? _); [done|].
  destruct (pixels_of _ _ _) as [pxs|]; [|done].
  rewrite !fwrite_app, foldl_fwrite. intros [= <- <-].
  exists w1, (Some path). split; [done|]. exists w2, true. split; [done|].
  apply fopen_wb_true in E3 as [-> _].
  match goal with
  | |- context [fwrite ?a ?b ?c] =>
      destruct (fwrite_store a b c) as (_ & _ & Hd & Hn & Hh & Hm & Ho);
      pose proof (fun q => fwrite_other a b q c) as Hq;
      pose proof (fwrite_lookup a b [] c (now w2)) as Hl
  end.
  unfold fclose. simpl in *. rewrite Hh, Hm, Hd, Hn, Ho.
  repeat split; try done.
  - intros q Hne. rewrite Hq by done. by rewrite lookup_insert_ne.
  - rewrite Hl by apply lookup_insert_eq. eauto.
Qed.

(** X16.  [thumbnail_save] changes no file but the cache file: every other
    path holds what it held, or held nothing and holds a new directory that
    leads to the cache file.  The buffers, the free memory, the denied
    paths and the clock are untouched and no stream is left open, whether
    the save succeeds or not. *)
Theorem thumbnail_save_touches (w w' : world) (thumb : pixmap) (source : string)
    (p : ThumbnailParams) (b : bool) :
  thumbnail_save params_bytes w thumb source p = Some (w', b) ->
  heap w' = heap w /\ mem w' = mem w /\ open_files w' = open_files w /\
  denied w' = denied w /\ now w' = now w /\
  forall q, (get_thumb_path w source).2 <> Some q ->
    fs w' !! q = fs w !! q \/
    (fs w !! q = None /\ fs w' !! q = Some (Dir (now w)) /\
     exists path, (get_thumb_path w source).2 = Some path /\ ancestor q path).
Proof.
  intros (w1 & r & E1 & H)%thumbnail_save_inv. rewrite E1. cbn [snd].
  pose proof (get_thumb_path_store _ _ _ _ E1) as (Hfs & Hden & Hsp & Hnow & Hheap & Hmem & Hopen).
  destruct r as [path|].
  - destruct H as (w2 & mk & E2 & Hh & Hm & Ho & Hd & Hn & Hq & _ & _).
    pose proof (make_directories_store _ _ _ _ E2) as (_ & _ & Sd & _ & Sn & Sh & Sm & So).
    apply make_directories_spec in E2 as (A & _ & _).
    repeat split; try congruence.
    intros q Hne. rewrite Hq by congruence.
    destruct (A q) as [E|(F1 & F2 & F3 & F4)].
    + left. congruence.
    + right. rewrite <- Hfs, <- Hnow. repeat split; try done. by exists path.
  - destruct H as [-> _]. repeat split; try done. intros q _. left. by rewrite Hfs.
Qed.

(** X17.  After a save that succeeded the cache file is there, as a
    regular file changed at the time of the save, and so is every directory
    that leads to it. *)
Theorem thumbnail_save_tree (w w' : world) (thumb : pixmap) (source : string)
    (p : ThumbnailParams) :
  thumbnail_save params_bytes w thumb source p = Some (w', true) ->
  exists path c,
    (get_thumb_path w source).2 = Some path /\
    fs w' !! path = Some (File c (now w)) /\
    forall d, ancestor d path -> is_Some (fs w' !! d).
Proof.
  intros (w1 & r & E1 & H)%thumbnail_save_inv. rewrite E1. cbn [snd].
  pose proof (get_thumb_path_store _ _ _ _ E1) as (_ & _ & _ & Hnow & _).
  destruct r as [path|]; [|by destruct H].
  destruct H as (w2 & mk & E2 & _ & _ & _ & _ & _ & Hq & Hb & _).
  destruct (Hb eq_refl) as [-> [c Hc]].
  pose proof (make_directories_store _ _ _ _ E2) as (_ & _ & _ & _ & Sn & _).
  apply make_directories_spec in E2 as (_ & B & _).
  exists path, c. split; [done|]. split; [by rewrite Hc, Sn, Hnow|].
  intros d Hd. rewrite Hq; [by apply B|].
  intros ->. apply ancestor_shorter in Hd. lia.
Qed.

(** X18.  A save that fails has changed no file: the cache file, if there
    was one, and everything else that was there are as they were; at most
    directories have been added. *)
Theorem thumbnail_save_failure_keeps (w w' : world) (thumb : pixmap) (source : string)
    (p : ThumbnailParams) :
  thumbnail_save params_bytes w thumb source p = Some (w', false) ->
  (forall path, (get_thumb_path w source).2 = Some path ->
                fs w' !! path = fs w !! path) /\
  (forall q, is_Some (fs w !! q) -> fs w' !! q = fs w !! q).
Proof.
  intros (w1 & r & E1 & H)%thumbnail_save_inv. rewrite E1. cbn [snd].
  pose proof (get_thumb_path_store _ _ _ _ E1) as (Hfs & _).
  destruct r as [path|].
  - destruct H as (w2 & mk & E2 & _ & _ & _ & _ & _ & _ & _ & Hb).
    rewrite (Hb eq_refl).
    apply make_directories_spec in E2 as (A & _ & _).
    split.
    + intros ? [= <-]. destruct (A path) as [E|(_ & _ & _ & F)]; [congruence|].
      apply ancestor_shorter in F. lia.
    + intros q Hq. destruct (A q) as [E|(F & _)]; [congruence|].
      rewrite <- Hfs, F in Hq. by destruct Hq.
  - destruct H as [-> _]. split; [done|]. intros q _. by rewrite Hfs.
Qed.

(** A load after a save that found room, with the parameters of the save:
    the state the load starts from has the cache file and the static
    variable as the save left them. *)
Lemma save_then_load (w w1 : world) (thumb : pixmap) (source : string)
    (p : ThumbnailParams) (pxs : list Z) :
  thumbnail_save params_bytes w thumb source p = Some (w1, true) ->
  is_size_t (width thumb) -> is_size_t (height thumb) ->
  width thumb * height thumb < 2 ^ 32 ->
  pixels_of w thumb (width thumb * height thumb) = Some pxs ->
  (length (entry_bytes params_bytes (width thumb) (height thumb) p pxs) <= space w)%nat ->
  exists path,
    (get_thumb_path w source).2 = Some path /\
    fs w1 !! path
    = Some (File (entry_bytes params_bytes (width thumb) (height thumb) p pxs) (now w)) /\
    Z.of_nat (length pxs) = width thumb * height thumb /\
    forall w2, cache_dir w2 = cache_dir w1 ->
      get_thumb_path w2 source = (w2, Some path).
Proof.
  intros Hs [Hw0 Hw] [Hh0 Hh] Hn Hpx Hroom.
  assert (Hwrap : wrap64 (width thumb * height thumb) = width thumb * height thumb).
  { unfold wrap64. apply Z.mod_small. lia. }
  destruct (cache_file_opened w source) as [[w3 path]|] eqn:E.
  2:{ destruct (thumbnail_save_not_opened params_bytes w thumb source p E) as [w' Hs'].
      congruence. }
  destruct (thumbnail_save_opened params_bytes w w3 thumb source path p pxs E)
    as (Hs' & Hf & dir & Hc & Hp); [lia|by rewrite Hwrap|].
  rewrite Hs in Hs'. injection Hs' as Hw1. rewrite <- Hw1 in Hf, Hc.
  apply cache_file_opened_Some in E as (wa & wb & E1 & _).
  rewrite take_ge in Hf by done.
  exists path. rewrite E1. repeat split; try done.
  - apply pixels_of_length in Hpx; [done|lia].
  - intros w2 Hdir. unfold get_thumb_path. by rewrite Hdir, Hc, Hp.
Qed.

(** X19.  There is one entry for a source, whatever the parameters: after
    a save with some parameters, a load of the same source with
    parameters that differ from them in some byte is a miss. *)
Theorem thumbnail_save_evicts (w w1 : world) (thumb : pixmap) (source : string)
    (p p' : ThumbnailParams) (pxs : list Z)
    (w2 : world) (thumb2 : pixmap) (stack : list byte) :
  thumbnail_save params_bytes w thumb source p' = Some (w1, true) ->
  is_size_t (width thumb) -> is_size_t (height thumb) ->
  width thumb * height thumb < 2 ^ 32 ->
  pixels_of w thumb (width thumb * height thumb) = Some pxs ->
  (length (entry_bytes params_bytes (width thumb) (height thumb) p' pxs) <= space w)%nat ->
  cache_dir w2 = cache_dir w1 ->
  (forall path, (get_thumb_path w source).2 = Some path ->
                fs w2 !! path = fs w1 !! path) ->
  params_bytes p <> params_bytes p' ->
  (thumbnail_load sizeof_params params_bytes w2 thumb2 source p stack).2 = false.
Proof.
  intros Hs Hw Hh Hn Hpx Hroom Hdir Hfile Hne.
  destruct (save_then_load w w1 thumb source p' pxs Hs Hw Hh Hn Hpx Hroom)
    as (path & Hpath & Hf & Hlen & Hget).
  destruct (thumbnail_load _ _ w2 thumb2 source p stack) as [[w' t'] []] eqn:E; [|done].
  exfalso. apply Hne.
  apply (thumbnail_load_true sizeof_params params_bytes) in E
    as (w1' & path' & ts & tc' & c' & E1' & _ & Ef' & _ & Hr).
  rewrite (Hget w2 Hdir) in E1'. injection E1' as <- <-.
  rewrite (Hfile path Hpath), Hf in Ef'. injection Ef' as <- <-.
  apply (read_entry_true sizeof_params params_bytes) in Hr as (thumb1 & fp1 & Hhd & Hp & _).
  rewrite entry_bytes_split, fscanf_header_bytes in Hhd by done.
  injection Hhd as <- <-. rewrite Hp.
  change (drop 1 (x23 :: ?l)) with l.
  rewrite !(take_app_length' (params_bytes p')) by (symmetry; apply params_bytes_length).
  reflexivity.
Qed.


(** X20.  For a thumbnail whose pixels are opaque the round trip is exact:
    after a save that found room, a load that is passed an object of
    parameters with the bytes of the object that was saved, padding
    included, returns a pixmap of the same dimensions whose buffer holds
    the pixels that were saved. *)
Theorem thumbnail_round_trip_opaque (loaded_bytes : ThumbnailParams -> list byte)
    (w w1 : world) (thumb : pixmap) (source : string)
    (p p' : ThumbnailParams) (pxs : list Z)
    (w2 : world) (thumb2 : pixmap) (stack : list byte) (ts : Z) :
  (forall q, length (loaded_bytes q) = sizeof_params) ->
  thumbnail_save params_bytes w thumb source p = Some (w1, true) ->
  is_size_t (width thumb) -> is_size_t (height thumb) ->
  width thumb * height thumb < 2 ^ 32 ->
  pixels_of w thumb (width thumb * height thumb) = Some pxs ->
  Forall (fun px => Z.shiftr px 24 = 255) pxs ->
  (length (entry_bytes params_bytes (width thumb) (height thumb) p pxs) <= space w)%nat ->
  cache_dir w2 = cache_dir w1 ->
  (forall path, (get_thumb_path w source).2 = Some path ->
                fs w2 !! path = fs w1 !! path) ->
  stat w2 source = Some ts -> ts <= now w ->
  width thumb * height thumb <= mem w2 ->
  loaded_bytes p' = params_bytes p ->
  exists w3 a,
    thumbnail_load sizeof_params loaded_bytes w2 thumb2 source p' stack
    = (w3, Pixmap (width thumb) (height thumb) (Some a), true) /\
    heap w3 !! a = Some pxs.
Proof.
  intros Hll Hs Hw Hh Hn Hpx Hop Hroom Hdir Hfile Hstat Hts Hmem Hb.
  destruct (save_then_load w w1 thumb source p pxs Hs Hw Hh Hn Hpx Hroom)
    as (path & Hpath & Hf & Hlen & Hget).
  assert (He : entry_bytes params_bytes (width thumb) (height thumb) p pxs
               = entry_bytes loaded_bytes (width thumb) (height thumb) p' pxs).
  { unfold entry_bytes. by rewrite Hb. }
  eexists _, _. split.
  - eapply (thumbnail_load_entry sizeof_params loaded_bytes Hll
              w2 w2 thumb2 source path p' stack [] _ _ ts (now w) pxs); try done.
    + by apply Hget.
    + by rewrite app_nil_r, (Hfile path Hpath), Hf, He.
  - simpl. rewrite lookup_insert_eq. f_equal.
    clear -Hop. induction Hop as [|px pxs Hpx _ IH]; [done|].
    cbn [fmap list_fmap]. rewrite opaque_id by done. by f_equal.
Qed.

End CodecFurther.

(** ** thumbnail_params, once more *)

Lemma floor_above (z size : Z) (v : R) :
  (IZR z <= v < IZR z + 1)%R -> (IZR size - 1 < v)%R -> size - 1 <= z.
Proof.
  intros [H1 H2] H3.
  assert (B : (IZR (size - 2) < IZR z)%R) by (rewrite minus_IZR; lra).
  apply lt_IZR in B. lia.
Qed.

(** The scaled dimensions under the fill policy: neither is more than one
    short of the size, and the one whose factor was chosen is not above
    it. *)
Lemma fill_dimensions_cover (w h size : Z) :
  1 <= w < 2 ^ 24 -> 1 <= h < 2 ^ 24 -> 1 <= size <= 2 ^ 22 ->
  exists tw th,
    scaled (max (scale_factor w size) (scale_factor h size)) w = Some tw /\
    scaled (max (scale_factor w size) (scale_factor h size)) h = Some th /\
    size - 1 <= tw /\ size - 1 <= th /\ (tw <= size \/ th <= size).
Proof.
  intros Hw Hh Hs.
  destruct (own_product w size Hw ltac:(lia)) as (Nw & Pw & Lw).
  destruct (own_product h size Hh ltac:(lia)) as (Nh & Ph & Lh).
  pose proof (IZR_bounds w 1 (2 ^ 24) Hw) as BW.
  pose proof (IZR_bounds h 1 (2 ^ 24) Hh) as BH.
  change (IZR (2 ^ 24) - 1)%R with (16777216 - 1)%R in BW, BH.
  assert (BS : (1 <= IZR size <= 4194304)%R).
  { split; apply IZR_le; lia. }
  set (rw := SF2R (scale_factor w size)) in *.
  set (rh := SF2R (scale_factor h size)) in *.
  set (Wd := IZR w) in *. set (Ht := IZR h) in *. set (Sz := IZR size) in *.
  unfold max, F32.ltb.
  destruct (SFltb (scale_factor h size) (scale_factor w size)) eqn:E.
  - (* the factor of the width is the larger *)
    apply (SFltb_correct 24 128 ltac:(lia) _ _ Nh Nw) in E. fold rw rh in E.
    assert (C1 : (rh * Ht <= rw * Ht)%R) by (apply Rmult_le_compat_r; lra).
    assert (C2 : (rw * Ht <= 33554432 * 16777216)%R) by (apply Rmult_le_compat; lra).
    destruct (scaled_correct _ w Nw Hw) as (tw & vw & Ew & Hw0 & Fw & Vw);
      fold rw Wd; [lra|lra|].
    destruct (scaled_correct _ h Nw Hh) as (th & vh & Eh & Hh0 & Fh & Vh);
      fold rw Ht; [lra|lra|].
    fold rw Wd in Vw. fold rw Ht in Vh.
    exists tw, th. split; [exact Ew|]. split; [exact Eh|].
    assert (Tw : size - 1 <= tw <= size).
    { apply (floor_near tw size vw Fw). fold Sz. lra. }
    assert (Th : size - 1 <= th).
    { apply (floor_above th size vh Fh). fold Sz. lra. }
    lia.
  - (* the factor of the height is at least that of the width *)
    assert (E' : (rw <= rh)%R).
    { destruct (Rle_or_lt rw rh) as [C|C]; [exact C|].
      apply (SFltb_correct 24 128 ltac:(lia) _ _ Nh Nw) in C. congruence. }
    assert (C1 : (rw * Wd <= rh * Wd)%R) by (apply Rmult_le_compat_r; lra).
    assert (C2 : (rh * Wd <= 33554432 * 16777216)%R) by (apply Rmult_le_compat; lra).
    destruct (scaled_correct _ w Nh Hw) as (tw & vw & Ew & Hw0 & Fw & Vw);
      fold rh Wd; [lra|lra|].
    destruct (scaled_correct _ h Nh Hh) as (th & vh & Eh & Hh0 & Fh & Vh);
      fold rh Ht; [lra|lra|].
    fold rh Wd in Vw. fold rh Ht in Vh.
    exists tw, th. split; [exact Ew|]. split; [exact Eh|].
    assert (Th : size - 1 <= th <= size).
    { apply (floor_near th size vh Fh). fold Sz. lra. }
    assert (Tw : size - 1 <= tw).
    { apply (floor_above tw size vw Fw). fold Sz. lra. }
    lia.
Qed.

(** X21.  Under the fill policy the scaled picture covers the canvas up
    to one pixel of rounding: for dimensions below [2^24] and a size of at
    most [2^22] neither offset is above 1, and one of them is 0 or 1. *)
Theorem thumbnail_params_fill_covers (img : image) (size : Z) (aa : bool) :
  1 <= width (frame0 img) < 2 ^ 24 -> 1 <= height (frame0 img) < 2 ^ 24 ->
  1 <= size <= 2 ^ 22 ->
  exists p,
    thumbnail_params img size true aa = Some p /\
    offset_x p <= 1 /\ offset_y p <= 1 /\ (0 <= offset_x p \/ 0 <= offset_y p).
Proof.
  intros Hw Hh Hs. unfold thumbnail_params. cbv zeta.
  destruct (fill_dimensions_cover _ _ size Hw Hh Hs)
    as (tw & th & Ew & Eh & Hw1 & Hh1 & Hone).
  rewrite Ew, Eh. eexists. split; [reflexivity|].
  cbn [offset_x offset_y].
  apply to_size_t_range in Ew, Eh.
  assert (Hsz : is_size_t size) by (unfold is_size_t, SIZE_MAX; lia).
  rewrite !signed_difference by done.
  pose proof (Z.div_mod size 2 ltac:(lia)). pose proof (Z.mod_pos_bound size 2 ltac:(lia)).
  pose proof (Z.div_mod tw 2 ltac:(lia)). pose proof (Z.mod_pos_bound tw 2 ltac:(lia)).
  pose proof (Z.div_mod th 2 ltac:(lia)). pose proof (Z.mod_pos_bound th 2 ltac:(lia)).
  lia.
Qed.

(** X22.  A size of zero gives an empty canvas: both factors are zero, and
    so are the scale, the dimensions and the offsets, under both
    policies. *)
Theorem thumbnail_params_size_zero (img : image) (fl aa : bool) :
  1 <= width (frame0 img) < 2 ^ 24 -> 1 <= height (frame0 img) < 2 ^ 24 ->
  thumbnail_params img 0 fl aa = Some (Params 0 0 0 0 fl aa (S754_zero false)).
Proof.
  intros Hw Hh. unfold thumbnail_params. cbv zeta.
  rewrite !scale_factor_zero by done.
  destruct fl; rewrite ?max_zero, ?min_zero, !scaled_zero by done; reflexivity.
Qed.

(** The factor of a dimension of zero is infinite. *)
Lemma scale_factor_empty (size : Z) :
  1 <= size < 2 ^ 24 -> scale_factor 0 size = S754_infinity false.
Proof.
  intros Hs. destruct (of_size_t_exact size Hs) as [NS _].
  apply (normal_inv 24 128) in NS as (m & e & E & _).
  unfold scale_factor. rewrite E. reflexivity.
Qed.

(** X23.  A source without pixels is outside the domain of
    [thumbnail_params]: when both dimensions are zero, and under the fill
    policy when one of them is, the scale is infinite and a scaled
    dimension is infinite or not a number, whose conversion to [size_t]
    is undefined. *)
Theorem thumbnail_params_empty_source (img : image) (size : Z) (fl aa : bool) :
  1 <= size < 2 ^ 24 ->
  0 <= width (frame0 img) < 2 ^ 24 -> 0 <= height (frame0 img) < 2 ^ 24 ->
  (width (frame0 img) = 0 /\ height (frame0 img) = 0) \/
  (fl = true /\ (width (frame0 img) = 0 \/ height (frame0 img) = 0)) ->
  thumbnail_params img size fl aa = None.
Proof.
  intros Hs Hw Hh Hcase. unfold thumbnail_params. cbv zeta.
  assert (G : forall d, 1 <= d < 2 ^ 24 ->
            exists m e, scale_factor d size = S754_finite false m e /\
                        exists m' e', F32.of_size_t d = S754_finite false m' e').
  { intros d Hd. destruct (own_product d size Hd Hs) as (N & _).
    apply (normal_inv 24 128) in N as (m & e & E & _).
    destruct (of_size_t_exact d Hd) as [N' _].
    apply (normal_inv 24 128) in N' as (m' & e' & E' & _). eauto 6. }
  destruct (Z.eq_dec (width (frame0 img)) 0) as [Ew|Ew];
    destruct (Z.eq_dec (height (frame0 img)) 0) as [Eh|Eh].
  - rewrite Ew, Eh, scale_factor_empty by done. by destruct fl.
  - assert (fl = true) as -> by (destruct Hcase as [[_ ?]|[? _]]; [lia|done]).
    destruct (G (height (frame0 img)) ltac:(lia)) as (m & e & -> & _).
    by rewrite Ew, scale_factor_empty.
  - assert (fl = true) as -> by (destruct Hcase as [[? _]|[? _]]; [lia|done]).
    destruct (G (width (frame0 img)) ltac:(lia)) as (m & e & -> & m' & e' & Ew').
    rewrite Eh, scale_factor_empty by done.
    unfold scaled. by rewrite Ew'.
  - lia.
Qed.

(** ** thumbnail_create, once more *)

Section GeneratorFurther.

Variable pixmap_scale :
  pixmap_scale_t -> pixmap -> pixmap -> Z -> Z -> spec_float -> bool -> world -> world.

(** X24.  [thumbnail_create] fails only when the canvas cannot be
    allocated; the resampler is not called then, and the world and the
    destination are what they were. *)
Theorem thumbnail_create_failure (w w' : world) (thumb t' : pixmap) (img : image)
    (p : ThumbnailParams) :
  thumbnail_create pixmap_scale w thumb img p = (w', t', false) ->
  w' = w /\ t' = thumb /\
  (pixmap_create w thumb (thumb_width p) (thumb_height p)).2 = false.
Proof.
  unfold thumbnail_create.
  destruct (pixmap_create _ _ _ _) as [[w1 t1] []] eqn:E; [done|].
  intros [= <- <-]. by apply pixmap_create_false in E as [-> ->].
Qed.

(** X25.  The parameters of the contain policy and the generator
    together: for dimensions below [2^24], a size of at most [2^22] and
    room for [size] times [size] pixels, the parameters are produced and
    [thumbnail_create] succeeds with them; the canvas is within [size] by
    [size], it takes its number of pixels from the free memory, and the
    resampler is called with both offsets zero. *)
Theorem thumbnail_create_contained (w : world) (thumb : pixmap) (img : image)
    (size : Z) (aa : bool) :
  1 <= width (frame0 img) < 2 ^ 24 -> 1 <= height (frame0 img) < 2 ^ 24 ->
  0 <= size <= 2 ^ 22 -> size * size <= mem w ->
  exists p w1 t',
    thumbnail_params img size false aa = Some p /\
    thumbnail_create pixmap_scale w thumb img p
    = (pixmap_scale (scaler_of p) (frame0 img) t' 0 0 (scale p) (alpha img) w1,
       t', true) /\
    width t' = thumb_width p /\ height t' = thumb_height p /\
    0 <= width t' <= size /\ 0 <= height t' <= size /\
    mem w1 = mem w - width t' * height t'.
Proof.
  intros Hw Hh Hs Hmem.
  assert (Hp : exists tw th,
             thumbnail_params img size false aa
             = Some (Params tw th 0 0 false aa
                       (min (scale_factor (width (frame0 img)) size)
                            (scale_factor (height (frame0 img)) size))) /\
             0 <= tw <= size /\ 0 <= th <= size).
  { unfold thumbnail_params. cbv zeta.
    destruct (Z.eq_dec size 0) as [->|Hne].
    - rewrite !scale_factor_zero, min_zero, !scaled_zero by lia.
      exists 0, 0. split; [reflexivity|lia].
    - destruct (contain_dimensions (width (frame0 img)) (height (frame0 img)) size)
        as (tw & th & -> & -> & Htw & Hth & _); [lia|lia|lia|].
      exists tw, th. split; [reflexivity|lia]. }
  destruct Hp as (tw & th & Hp & Htw & Hth).
  eexists _, _, _. split; [exact Hp|].
  unfold thumbnail_create, pixmap_create.
  cbn [thumb_width thumb_height offset_x offset_y scale].
  assert (Hn : 0 <= tw * th <= size * size) by nia.
  replace ((0 <=? tw * th) && (tw * th <=? mem w) && (tw * th * 4 <=? SIZE_MAX))
    with true.
  2:{ symmetry. rewrite !andb_true_iff, !Z.leb_le. unfold SIZE_MAX. nia. }
  split; [reflexivity|]. simpl. repeat split; lia.
Qed.

End GeneratorFurther.

(** ** Instances of the further properties *)

Import MoreExamples.

Lemma make_directories_creates_ancestors_witness :
  is_Some (fs (make_directories world0 cache).1 !! "/home/u/.swayimg").
Proof.
  apply (make_directories_creates_ancestors world0 _ cache "/home/u/.swayimg").
  - vm_compute. reflexivity.
  - split; [discriminate|]. exists "pics/a.png". reflexivity.
Defined.

Lemma make_directories_only_adds_witness :
  fs (make_directories world0 cache).1 !! cache = fs world0 !! cache.
Proof.
  refine (proj1 (proj2 (make_directories_only_adds world0 _ cache true _))).
  vm_compute. reflexivity.
Defined.

Lemma make_directories_idempotent_witness :
  make_directories (make_directories world0 cache).1 cache
  = ((make_directories world0 cache).1, true).
Proof.
  apply (make_directories_idempotent world0 _ cache).
  vm_compute. reflexivity.
Defined.

Lemma get_thumb_path_memoised_witness :
  exists root,
    cache_dir (get_thumb_path world0 source).1 = Some root /\
    forall f s2,
      get_thumb_path (set_env f (get_thumb_path world0 source).1) s2
      = (set_env f (get_thumb_path world0 source).1, snprintf_path root s2).
Proof.
  apply (get_thumb_path_memoised world0 _ source (Some cache)).
  - vm_compute. reflexivity.
  - right. right. exists "/home/u". vm_compute. reflexivity.
Defined.

Lemma get_thumb_path_injective_witness : source = source.
Proof.
  apply (get_thumb_path_injective world0 (get_thumb_path world0 source).1
           (get_thumb_path world0 source).1 source source cache).
  - vm_compute. reflexivity.
  - vm_compute. reflexivity.
Defined.

Lemma get_thumb_path_result_witness :
  (String.length cache < 4096)%nat /\
  match getenv world0 "XDG_CACHE_HOME", getenv world0 "HOME" with
  | Some x, _ => cache = x +:+ "/swayimg" +:+ source
  | None, Some h => cache = h +:+ "/.swayimg" +:+ source
  | None, None => False
  end.
Proof.
  apply (get_thumb_path_result world0 (get_thumb_path world0 source).1 source cache).
  - reflexivity.
  - vm_compute. reflexivity.
Defined.

Lemma header_round_trip_witness :
  fscanf_header (header_bytes 2 1 ++ [x23]) blank
  = (3, [x50; x36], Pixmap 2 1 (data blank), [x23]).
Proof.
  apply (header_round_trip 2 1 [x23] blank).
  - unfold is_size_t, SIZE_MAX. lia.
  - unfold is_size_t, SIZE_MAX. lia.
  - reflexivity.
Defined.

Lemma thumbnail_load_read_only_witness :
  fs (lp64_load (world_entry params0) blank source params0 []).1.1
  = fs (world_entry params0).
Proof.
  refine (proj1 (thumbnail_load_read_only LP64.sizeof_params LP64.params_bytes
                   (world_entry params0) _ blank
                   (lp64_load (world_entry params0) blank source params0 []).1.2
                   source params0 [] true _)).
  vm_compute. reflexivity.
Defined.



Lemma thumbnail_load_hit_bounds_witness :
  exists path c tc,
    (get_thumb_path (world_entry params0) source).2 = Some path /\
    fs (world_entry params0) !! path = Some (File c tc) /\
    wrap64 (2 * 1) < 2 ^ 32 /\
    3 * wrap64 (2 * 1)
      <= Z.of_nat (length (payload_of LP64.sizeof_params (fscanf_header c blank).2)).
Proof.
  apply (thumbnail_load_hit_bounds LP64.sizeof_params LP64.params_bytes
           (world_entry params0)
           (lp64_load (world_entry params0) blank source params0 []).1.1
           blank (Pixmap 2 1 (Some 1%positive)) source params0 []).
  vm_compute. reflexivity.
Defined.


Lemma thumbnail_load_unchecked_bytes_witness :
  lp64_load world_marks blank source params0 []
  = (set_heap <[fresh (dom (heap world_marks)) := opaque <$> pixels0]>
       (mem world_marks - 2 * 1) world_marks,
     Pixmap 2 1 (Some (fresh (dom (heap world_marks)))), true).
Proof.
  apply (thumbnail_load_unchecked_bytes LP64.sizeof_params LP64.params_bytes
           LP64_params_bytes_length world_marks world_marks blank source cache
           params0 [] [x07] 2 1 5 99 pixels0 x21 x00).
  - vm_compute. reflexivity.
  - vm_compute. reflexivity.
  - vm_compute. reflexivity.
  - lia.
  - unfold is_size_t, SIZE_MAX. lia.
  - unfold is_size_t, SIZE_MAX. lia.
  - reflexivity.
  - lia.
  - simpl. lia.
  - reflexivity.
Defined.

Lemma thumbnail_load_without_maxval_witness :
  lp64_load world_no_maxval blank source params0 []
  = (set_heap <[fresh (dom (heap world_no_maxval)) := opaque <$> pixels0]>
       (mem world_no_maxval - 2 * 1) world_no_maxval,
     Pixmap 2 1 (Some (fresh (dom (heap world_no_maxval)))), true).
Proof.
  apply (thumbnail_load_without_maxval LP64.sizeof_params LP64.params_bytes
           LP64_params_bytes_length world_no_maxval world_no_maxval blank source cache
           params0 [] 2 1 5 99 pixels0).
  - vm_compute. reflexivity.
  - vm_compute. reflexivity.
  - vm_compute. reflexivity.
  - lia.
  - unfold is_size_t, SIZE_MAX. lia.
  - unfold is_size_t, SIZE_MAX. lia.
  - reflexivity.
  - lia.
  - simpl. lia.
Defined.

Lemma thumbnail_save_touches_witness :
  heap world1 = heap world0 /\ mem world1 = mem world0 /\
  open_files world1 = open_files world0 /\
  denied world1 = denied world0 /\ now world1 = now world0 /\
  forall q, (get_thumb_path world0 source).2 <> Some q ->
    fs world1 !! q = fs world0 !! q \/
    (fs world0 !! q = None /\ fs world1 !! q = Some (Dir (now world0)) /\
     exists path, (get_thumb_path world0 source).2 = Some path /\ ancestor q path).
Proof.
  apply (thumbnail_save_touches LP64.params_bytes world0 world1 thumb0 source params0 true).
  vm_compute. reflexivity.
Defined.

Lemma thumbnail_save_tree_witness :
  exists path c,
    (get_thumb_path world0 source).2 = Some path /\
    fs world1 !! path = Some (File c (now world0)) /\
    forall d, ancestor d path -> is_Some (fs world1 !! d).
Proof.
  apply (thumbnail_save_tree LP64.params_bytes world0 world1 thumb0 source params0).
  vm_compute. reflexivity.
Defined.


(** A save that makes the four directories of the cache path and then
    cannot create the file: it fails, and the old entry is as it was. *)
Lemma thumbnail_save_failure_keeps_witness :
  (lp64_save world_denied thumb0 source params0
   = Some ((make_directories (get_thumb_path world_denied source).1 cache).1, false)) /\
  fs (make_directories (get_thumb_path world_denied source).1 cache).1 !! cache
  = Some (File [x07] 3) /\
  fs (make_directories (get_thumb_path world_denied source).1 cache).1 !! source
  = Some (File [x01] 5) /\
  fs world_denied !! "/home/u/.swayimg/pics" = None /\
  fs (make_directories (get_thumb_path world_denied source).1 cache).1
    !! "/home/u/.swayimg/pics" = Some (Dir 10).
Proof.
  assert (Hs : lp64_save world_denied thumb0 source params0
               = Some ((make_directories (get_thumb_path world_denied source).1
                          cache).1, false))
    by (vm_compute; reflexivity).
  destruct (thumbnail_save_failure_keeps LP64.params_bytes world_denied _ thumb0
              source params0 Hs) as [Hc Hq].
  split; [exact Hs|]. split; [|split; [|split]].
  - rewrite (Hc cache) by (vm_compute; reflexivity). vm_compute. reflexivity.
  - rewrite (Hq source) by (exists (File [x01] 5); vm_compute; reflexivity).
    vm_compute. reflexivity.
  - vm_compute. reflexivity.
  - vm_compute. reflexivity.
Defined.

Lemma thumbnail_save_evicts_witness :
  (lp64_load world1 blank source params1 []).2 = false.
Proof.
  apply (thumbnail_save_evicts LP64.sizeof_params LP64.params_bytes
           LP64_params_bytes_length world0 world1 thumb0 source params1 params0 pixels0
           world1 blank []).
  - vm_compute. reflexivity.
  - unfold is_size_t, SIZE_MAX. simpl. lia.
  - unfold is_size_t, SIZE_MAX. simpl. lia.
  - simpl. lia.
  - vm_compute. reflexivity.
  - vm_compute. lia.
  - reflexivity.
  - reflexivity.
  - vm_compute. discriminate.
Defined.


Lemma thumbnail_round_trip_opaque_witness :
  exists w3 a,
    lp64_load world_opaque_saved blank source params0 []
    = (w3, Pixmap 2 1 (Some a), true) /\
    heap w3 !! a = Some pixels_opaque.
Proof.
  apply (thumbnail_round_trip_opaque LP64.sizeof_params LP64.params_bytes
           LP64.params_bytes
           world_opaque world_opaque_saved thumb0 source
           params0 params0 pixels_opaque world_opaque_saved blank [] 5).
  - apply LP64_params_bytes_length.
  - vm_compute. reflexivity.
  - unfold is_size_t, SIZE_MAX. simpl. lia.
  - unfold is_size_t, SIZE_MAX. simpl. lia.
  - simpl. lia.
  - vm_compute. reflexivity.
  - repeat constructor.
  - vm_compute. lia.
  - reflexivity.
  - reflexivity.
  - vm_compute. reflexivity.
  - simpl. lia.
  - vm_compute. discriminate.
  - reflexivity.
Defined.

Lemma thumbnail_params_fill_covers_witness :
  exists p,
    thumbnail_params picture 256 true true = Some p /\
    offset_x p <= 1 /\ offset_y p <= 1 /\ (0 <= offset_x p \/ 0 <= offset_y p).
Proof.
  apply (thumbnail_params_fill_covers picture 256 true); simpl; lia.
Defined.

Lemma thumbnail_params_size_zero_witness :
  thumbnail_params picture 0 false true
  = Some (Params 0 0 0 0 false true (S754_zero false)).
Proof.
  apply (thumbnail_params_size_zero picture false true); simpl; lia.
Defined.

Lemma thumbnail_params_empty_source_witness :
  thumbnail_params (Image (Pixmap 0 0 None) false) 256 false true = None.
Proof.
  apply (thumbnail_params_empty_source (Image (Pixmap 0 0 None) false) 256 false true).
  - lia.
  - simpl. lia.
  - simpl. lia.
  - left. split; reflexivity.
Defined.

Lemma thumbnail_create_failure_witness :
  world0 = world0 /\ blank = blank /\
  (pixmap_create world0 blank 256 128).2 = false.
Proof.
  apply (thumbnail_create_failure no_scale world0 world0 blank blank picture
           (Params 256 128 0 0 false true (S754_zero false))).
  vm_compute. reflexivity.
Defined.

Lemma thumbnail_create_contained_witness :
  exists p w1 t',
    thumbnail_params picture 10 false true = Some p /\
    thumbnail_create no_scale world0 blank picture p
    = (no_scale (scaler_of p) (frame0 picture) t' 0 0 (scale p) (alpha picture) w1,
       t', true) /\
    width t' = thumb_width p /\ height t' = thumb_height p /\
    0 <= width t' <= 10 /\ 0 <= height t' <= 10 /\
    mem w1 = mem world0 - width t' * height t'.
Proof.
  apply (thumbnail_create_contained no_scale world0 blank picture 10 true);
    simpl; lia.
Defined.
